(** * A set-associative LRU cache simulator (cache_simulator.c)

    Shallow embedding of [count], [free_cache] and [main], and the properties
    of the simulator proved on it.

    The C program keeps every set as a doubly linked queue of heap nodes
    (head = most recently used, tail = least recently used) and five global
    [int] counters.  The embedding keeps this shape: a heap of queue nodes
    addressed by locations, an array of [queue_set_t] records, and a small
    state-and-fault monad in which the statements of the C functions are
    written one by one.

    Conventions.
    - [int] is 32-bit two's complement, [unsigned long] is 64-bit.  Integer
      additions and multiplications wrap around.
    - A shift whose count lies outside [0, width) yields no value ([None]);
      the run faults where such a value is used, that is when it is passed to
      [count], used as the number of sets, or written into the report.
    - A dereference of [NULL] or of a freed node, and an array access outside
      the allocated sets, is a [Fault]: the run stops there and the state at
      that point is kept.
    - Every [cache_line] is allocated together with the queue node that owns
      it and is reachable only through that node, so a node carries its line
      by value; a [NULL] line pointer is [None].
    - [malloc] is assumed to succeed and returns a location not in use.
    - The loops that follow [next] pointers take as fuel the number of
      allocated nodes; running out of it ([NoFuel]) would mean a cyclic
      queue.
    - Option parsing and file reading are outside the embedding: [main]
      receives the values of [s], [E], [b] and the list of the records that
      [fscanf] delivers. *)

From Stdlib Require Import Ascii.
From stdpp Require Import gmap list numbers strings.

Local Open Scope Z_scope.

(** ** C integers *)

Definition ADDRESS_BITS : Z := 64.
Definition INT_MAX : Z := 2147483647.

Definition is_int (x : Z) : Prop := - 2 ^ 31 ≤ x ≤ INT_MAX.

(** Value of an [int] expression after wrap-around. *)
Definition wrap_int (x : Z) : Z := (x + 2 ^ 31) `mod` 2 ^ 32 - 2 ^ 31.

(** Value of an [unsigned long] expression after wrap-around; also the cast
    [(unsigned long) x] of an [int]. *)
Definition wrap_ulong (x : Z) : Z := x `mod` 2 ^ 64.

(** [x << n] on [int]. *)
Definition shl_int (x n : Z) : option Z :=
  if bool_decide (0 ≤ n < 32) then Some (wrap_int (Z.shiftl x n)) else None.

(** [x << n] and [x >> n] on [unsigned long]. *)
Definition shl_ulong (x n : Z) : option Z :=
  if bool_decide (0 ≤ n < 64) then Some (wrap_ulong (Z.shiftl x n)) else None.

Definition shr_ulong (x n : Z) : option Z :=
  if bool_decide (0 ≤ n < 64) then Some (Z.shiftr x n) else None.

(** ** Data *)

Definition loc := positive.

Record cache_line := CacheLine {
  valid_bit : Z;
  dirty_bit : Z;
  tag : Z
}.

Record queue_node_t := QueueNode {
  prev : option loc;
  line : option cache_line;
  next : option loc
}.

Record queue_set_t := QueueSet {
  head : option loc;
  tail : option loc;
  curr_line_num : Z
}.

(** The memory of the program: the heap of queue nodes, the array [cache] of
    sets, and the global counters. *)
Record state := State {
  heap : gmap loc queue_node_t;
  cache : list queue_set_t;
  hit : Z;
  miss : Z;
  eviction : Z;
  dirty_count : Z;
  dirty_eviction : Z
}.

Global Instance cache_line_eq_dec : EqDecision cache_line.
Proof. solve_decision. Defined.

(** ** The state-and-fault monad *)

Inductive result (A : Type) :=
  | Ok (a : A) (st : state)
  | Fault (st : state)
  | NoFuel (st : state).
Arguments Ok {A} a st.
Arguments Fault {A} st.
Arguments NoFuel {A} st.

Definition M (A : Type) : Type := state → result A.

Global Instance M_ret : MRet M := λ A a st, Ok a st.
Global Instance M_bind : MBind M := λ A B f m st,
  match m st with
  | Ok a st' => f a st'
  | Fault st' => Fault st'
  | NoFuel st' => NoFuel st'
  end.

Definition fault {A} : M A := λ st, Fault st.
Definition out_of_fuel {A} : M A := λ st, NoFuel st.
Definition get_state : M state := λ st, Ok st st.
Definition put_state (st : state) : M unit := λ _, Ok tt st.

(** Field updates. *)
Definition with_heap (h : gmap loc queue_node_t) (st : state) : state :=
  State h (cache st) (hit st) (miss st) (eviction st) (dirty_count st)
    (dirty_eviction st).
Definition with_cache (c : list queue_set_t) (st : state) : state :=
  State (heap st) c (hit st) (miss st) (eviction st) (dirty_count st)
    (dirty_eviction st).
Definition with_hit (v : Z) (st : state) : state :=
  State (heap st) (cache st) v (miss st) (eviction st) (dirty_count st)
    (dirty_eviction st).
Definition with_miss (v : Z) (st : state) : state :=
  State (heap st) (cache st) (hit st) v (eviction st) (dirty_count st)
    (dirty_eviction st).
Definition with_eviction (v : Z) (st : state) : state :=
  State (heap st) (cache st) (hit st) (miss st) v (dirty_count st)
    (dirty_eviction st).
Definition with_dirty_count (v : Z) (st : state) : state :=
  State (heap st) (cache st) (hit st) (miss st) (eviction st) v
    (dirty_eviction st).
Definition with_dirty_eviction (v : Z) (st : state) : state :=
  State (heap st) (cache st) (hit st) (miss st) (eviction st)
    (dirty_count st) v.

Definition set_prev (p : option loc) (n : queue_node_t) : queue_node_t :=
  QueueNode p (line n) (next n).
Definition set_next (p : option loc) (n : queue_node_t) : queue_node_t :=
  QueueNode (prev n) (line n) p.
Definition set_line (l : option cache_line) (n : queue_node_t) : queue_node_t :=
  QueueNode (prev n) l (next n).
Definition set_dirty_bit (d : Z) (l : cache_line) : cache_line :=
  CacheLine (valid_bit l) d (tag l).

Definition set_head (p : option loc) (q : queue_set_t) : queue_set_t :=
  QueueSet p (tail q) (curr_line_num q).
Definition set_tail (p : option loc) (q : queue_set_t) : queue_set_t :=
  QueueSet (head q) p (curr_line_num q).
Definition set_curr_line_num (n : Z) (q : queue_set_t) : queue_set_t :=
  QueueSet (head q) (tail q) n.

(** *** Memory accesses *)

(** [cache[i]] as an rvalue. *)
Definition index (c : list queue_set_t) (i : Z) : option queue_set_t :=
  if bool_decide (0 ≤ i) then c !! Z.to_nat i else None.

Definition read_set (i : Z) : M queue_set_t := λ st,
  match index (cache st) i with
  | Some q => Ok q st
  | None => Fault st
  end.

(** [cache[i].field = ...]. *)
Definition write_set (i : Z) (f : queue_set_t → queue_set_t) : M unit := λ st,
  match index (cache st) i with
  | Some q => Ok tt (with_cache (<[Z.to_nat i := f q]> (cache st)) st)
  | None => Fault st
  end.

(** [*p] as an rvalue, for a node pointer [p]. *)
Definition read_node (p : option loc) : M queue_node_t := λ st,
  match p with
  | Some l =>
      match heap st !! l with
      | Some n => Ok n st
      | None => Fault st
      end
  | None => Fault st
  end.

(** [p->field = ...]. *)
Definition write_node (p : option loc) (f : queue_node_t → queue_node_t)
  : M unit := λ st,
  match p with
  | Some l =>
      match heap st !! l with
      | Some n => Ok tt (with_heap (<[l := f n]> (heap st)) st)
      | None => Fault st
      end
  | None => Fault st
  end.

(** [malloc] of a queue node; the node starts with the given contents. *)
Definition malloc_node (n : queue_node_t) : M loc := λ st,
  let l := fresh (dom (heap st)) in
  Ok l (with_heap (<[l := n]> (heap st)) st).

(** [free(p->line); free(p)]. *)
Definition free_node (p : option loc) : M unit := λ st,
  match p with
  | Some l =>
      match heap st !! l with
      | Some n => Ok tt (with_heap (delete l (heap st)) st)
      | None => Fault st
      end
  | None => Fault st
  end.

(** ** [count] *)

Section Count.

(** The global [E], the number of lines per set. *)
Variable E : Z.

(** The test of lines 75-76:
    [check_line != NULL && check_line->valid_bit != 0 &&
     check_line->tag == curr_tag]. *)
Definition line_matches (check_line : option cache_line) (curr_tag : Z) : bool :=
  match check_line with
  | Some l => negb (valid_bit l =? 0) && (tag l =? curr_tag)
  | None => false
  end.

(** Lines 77-80: count the hit and mark the line on a store. *)
Definition record_hit (check_node : loc) (dirty : Z) : M unit :=
  st ← get_state;
  put_state (with_hit (wrap_int (hit st + 1)) st);;
  if dirty =? 1 then
    write_node (Some check_node)
      (λ n, set_line (set_dirty_bit 1 <$> line n) n)
  else mret tt.

(** Lines 82-96: move the node to the most recently used position. *)
Definition move_to_head (curr_set_num : Z) (check_node : loc) : M unit :=
  n ← read_node (Some check_node);
  let prev_node := prev n in
  match prev_node with
  | Some _ =>
      q ← read_set curr_set_num;
      (if bool_decide (tail q = Some check_node) then
         write_set curr_set_num (set_tail prev_node)
       else
         n ← read_node (Some check_node);
         write_node (next n) (set_prev prev_node));;
      n ← read_node (Some check_node);
      write_node prev_node (set_next (next n));;
      write_node (Some check_node) (set_prev None);;
      q ← read_set curr_set_num;
      write_node (Some check_node) (set_next (head q));;
      q ← read_set curr_set_num;
      write_node (head q) (set_prev (Some check_node));;
      write_set curr_set_num (set_head (Some check_node))
  | None => mret tt
  end.

(** Lines 73-103: the search loop.  Returns [operation_complete]. *)
Fixpoint search (fuel : nat) (curr_tag curr_set_num dirty : Z)
    (check_node : option loc) : M Z :=
  match check_node with
  | None => mret 0
  | Some p =>
      match fuel with
      | O => out_of_fuel
      | S fuel' =>
          n ← read_node (Some p);
          if line_matches (line n) curr_tag then
            record_hit p dirty;;
            move_to_head curr_set_num p;;
            mret 1
          else
            search fuel' curr_tag curr_set_num dirty (next n)
      end
  end.

(** Lines 116-135: evict the least recently used line. *)
Definition evict (curr_set_num : Z) : M unit :=
  st ← get_state;
  put_state (with_eviction (wrap_int (eviction st + 1)) st);;
  q ← read_set curr_set_num;
  let evict_node := tail q in
  has_prev ← match evict_node with
             | Some _ => n ← read_node evict_node; mret (bool_decide (prev n ≠ None))
             | None => mret false
             end;
  (if has_prev : bool then
     n ← read_node evict_node;
     let prev_node := prev n in
     write_node evict_node (set_prev None);;
     write_node prev_node (set_next None);;
     write_set curr_set_num (set_tail prev_node)
   else
     q ← read_set curr_set_num;
     if curr_line_num q =? 1 then
       write_set curr_set_num (set_head None);;
       write_set curr_set_num (set_tail None)
     else mret tt);;
  n ← read_node evict_node;
  match line n with
  | Some l =>
      (if dirty_bit l =? 1 then
         st ← get_state;
         put_state (with_dirty_eviction (wrap_int (dirty_eviction st + 1)) st)
       else mret tt);;
      free_node evict_node;;
      q ← read_set curr_set_num;
      write_set curr_set_num (set_curr_line_num (wrap_int (curr_line_num q - 1)))
  | None => fault
  end.

(** Lines 106-150: the miss. *)
Definition handle_miss (curr_tag curr_set_num dirty : Z) : M unit :=
  st ← get_state;
  put_state (with_miss (wrap_int (miss st + 1)) st);;
  let new_line := CacheLine 1 dirty curr_tag in
  new_node ← malloc_node (QueueNode None (Some new_line) None);
  q ← read_set curr_set_num;
  (if bool_decide (E ≤ curr_line_num q) then evict curr_set_num else mret tt);;
  write_node (Some new_node) (set_prev None);;
  q ← read_set curr_set_num;
  write_node (Some new_node) (set_next (head q));;
  q ← read_set curr_set_num;
  (match head q with
   | Some _ => write_node (head q) (set_prev (Some new_node))
   | None => write_set curr_set_num (set_tail (Some new_node))
   end);;
  write_set curr_set_num (set_head (Some new_node));;
  q ← read_set curr_set_num;
  write_set curr_set_num (set_curr_line_num (wrap_int (curr_line_num q + 1))).

Definition count (curr_tag curr_set_num dirty : Z) : M unit :=
  q ← read_set curr_set_num;
  st ← get_state;
  operation_complete ←
    search (size (heap st)) curr_tag curr_set_num dirty (head q);
  if operation_complete =? 0 then handle_miss curr_tag curr_set_num dirty
  else mret tt.

End Count.

(** ** [free_cache] *)

(** Lines 163-173: free one queue, counting the lines whose dirty bit is 1. *)
Fixpoint free_queue (fuel : nat) (qHead : option loc) : M unit :=
  match qHead with
  | None => mret tt
  | Some _ =>
      match fuel with
      | O => out_of_fuel
      | S fuel' =>
          n ← read_node qHead;
          (match line n with
           | Some l =>
               if dirty_bit l =? 1 then
                 st ← get_state;
                 put_state (with_dirty_count (wrap_int (dirty_count st + 1)) st)
               else mret tt
           | None => mret tt
           end);;
          let qNext := next n in
          free_node qHead;;
          free_queue fuel' qNext
      end
  end.

(** Lines 161-174: the loop [for (int i = 0; i < S; i++)], with [n] the
    number of iterations left. *)
Fixpoint free_sets (n : nat) (i : Z) : M unit :=
  match n with
  | O => mret tt
  | S n' =>
      q ← read_set i;
      st ← get_state;
      free_queue (size (heap st)) (head q);;
      free_sets n' (i + 1)
  end.

(** [nS] is the global [S], the number of sets.  The array [cache] is never
    [NULL] here; [free(cache)] leaves no set. *)
Definition free_cache (nS : Z) : M unit :=
  free_sets (Z.to_nat nS) 0;;
  st ← get_state;
  put_state (with_cache [] st).

(** ** [main] *)

(** One record of the trace, as read by [fscanf] at line 229. *)
Record trace_record := TraceRecord {
  operation : ascii;
  address : Z;
  size_ : Z
}.

(** Modelled from the spec: [csim_stats_t] is declared in cachelab.h, which is
    not among the sources.  Its fields are the five that [main] assigns, each
    an [unsigned long]. *)
Record csim_stats_t := CsimStats {
  hits : Z;
  misses : Z;
  evictions : Z;
  dirty_bytes : Z;
  dirty_evictions : Z
}.

(** Line 230: [address >> (s + b)]. *)
Definition decode_tag (s b address : Z) : option Z :=
  shr_ulong address (wrap_int (s + b)).

(** Lines 213 and 231-233: [(address << t) >> (b + t)], replaced by 0 when
    [t == ADDRESS_BITS]. *)
Definition decode_set (s b address : Z) : option Z :=
  let t := wrap_int (ADDRESS_BITS - wrap_int (s + b)) in
  let curr_set_num :=
    x ← shl_ulong address t; shr_ulong x (wrap_int (b + t)) in
  if t =? ADDRESS_BITS then Some 0 else curr_set_num.

(** The shift counts evaluated by lines 230-231, in order. *)
Definition decode_shift_counts (s b : Z) : list Z :=
  let t := wrap_int (ADDRESS_BITS - wrap_int (s + b)) in
  [wrap_int (s + b); t; wrap_int (b + t)].

(** A call [count(cache, curr_tag, curr_set_num, dirty)] from the loop: the
    two decoded arguments must have a value. *)
Definition call_count (E : Z) (curr_tag curr_set_num : option Z) (dirty : Z)
  : M unit :=
  match curr_tag, curr_set_num with
  | Some tg, Some i => count E tg i dirty
  | _, _ => fault
  end.

(** Lines 230-238: the body of the trace loop. *)
Definition step (s E b : Z) (r : trace_record) : M unit :=
  let curr_tag := decode_tag s b (address r) in
  let curr_set_num := decode_set s b (address r) in
  if bool_decide (operation r = "L"%char) then
    call_count E curr_tag curr_set_num 0
  else if bool_decide (operation r = "S"%char) then
    call_count E curr_tag curr_set_num 1
  else mret tt.

(** Lines 229-239. *)
Fixpoint simulate (s E b : Z) (trace : list trace_record) : M unit :=
  match trace with
  | [] => mret tt
  | r :: trace' => step s E b r;; simulate s E b trace'
  end.

(** The geometries on which [main] can run: the number of sets, and the tag
    and set index of every address, have a value. *)
Definition decodable (s b : Z) : Prop :=
  (1 ≤ s ≤ 30 ∧ 0 ≤ b ∧ s + b ≤ 63) ∨ (s = 0 ∧ b = 0).

Definition empty_set : queue_set_t := QueueSet None None 0.

(** The memory after lines 216-221, for [nS] sets. *)
Definition init_state (nS : Z) : state :=
  State ∅ (replicate (Z.to_nat nS) empty_set) 0 0 0 0 0.

(** Lines 245-249. *)
Definition write_stats (B : option Z) : M csim_stats_t := λ st,
  match B with
  | Some nB =>
      Ok (CsimStats
            (wrap_ulong (hit st))
            (wrap_ulong (miss st))
            (wrap_ulong (eviction st))
            (wrap_ulong (wrap_int (dirty_count st * nB)))
            (wrap_ulong (wrap_int (dirty_eviction st * nB)))) st
  | None => Fault st
  end.

(** [main], from line 211 on, for the options [-s s -E E -b b] and the
    records of the trace file. *)
Definition main (s E b : Z) (trace : list trace_record) : result csim_stats_t :=
  match shl_int 1 s with
  | Some nS =>
      let B := shl_int 1 b in
      (simulate s E b trace;;
       free_cache nS;;
       write_stats B) (init_state nS)
  | None => Fault (init_state 0)
  end.

(** ** Observing the cache *)

(** The lines of one queue, from [qHead] along the [next] pointers: the walk
    of lines 162-173, without the frees. *)
Fixpoint queue_lines (fuel : nat) (h : gmap loc queue_node_t)
    (qHead : option loc) : list cache_line :=
  match qHead, fuel with
  | Some p, S fuel' =>
      match h !! p with
      | Some n =>
          match line n with
          | Some l => l :: queue_lines fuel' h (next n)
          | None => queue_lines fuel' h (next n)
          end
      | None => []
      end
  | _, _ => []
  end.

(** The resident lines of set [i], most recently used first. *)
Definition resident (st : state) (i : nat) : list cache_line :=
  match cache st !! i with
  | Some q => queue_lines (size (heap st)) (heap st) (head q)
  | None => []
  end.

Definition is_dirty (l : cache_line) : bool := dirty_bit l =? 1.

Definition count_dirty (s : list cache_line) : Z :=
  Z.of_nat (length (filter (λ l, is_dirty l = true) s)).

(** Number of resident lines, over all sets, whose dirty bit is 1. *)
Definition dirty_lines (st : state) : Z :=
  count_dirty (concat (resident st <$> seq 0 (length (cache st)))).

(** Number of resident lines, over all sets. *)
Definition total_lines (st : state) : Z :=
  Z.of_nat (length (concat (resident st <$> seq 0 (length (cache st))))).

(** The states the cache goes through: the memory after lines 216-221, and
    every state in which a call of [count] returns. *)
Inductive reachable (E nS : Z) : state → Prop :=
  | reachable_init : reachable E nS (init_state nS)
  | reachable_count st tg i d st' :
      reachable E nS st →
      count E tg i d st = Ok tt st' →
      reachable E nS st'.

(** A sequence of calls of [count], each given as (tag, set index, dirty). *)
Fixpoint run (E : Z) (accs : list (Z * Z * Z)) : M unit :=
  match accs with
  | [] => mret tt
  | (tg, i, d) :: accs' => count E tg i d;; run E accs'
  end.

Definition stats_of (r : result csim_stats_t) : option csim_stats_t :=
  match r with
  | Ok a _ => Some a
  | _ => None
  end.

(** The report [main] would print if the run ended in [st], for block-offset
    bits [b]. *)
Definition report (b : Z) (st : state) : option csim_stats_t :=
  stats_of (write_stats (shl_int 1 b) st).

Definition final_state {A} (r : result A) : state :=
  match r with
  | Ok _ st | Fault st | NoFuel st => st
  end.

Definition load_at (a : Z) : trace_record := TraceRecord "L" a 1.
Definition store_at (a : Z) : trace_record := TraceRecord "S" a 1.

Definition is_access (r : trace_record) : bool :=
  bool_decide (operation r = "L"%char) || bool_decide (operation r = "S"%char).

(** Number of records of the trace that are a Load or a Store. *)
Definition num_accesses (trace : list trace_record) : Z :=
  Z.of_nat (length (filter (λ r, is_access r = true) trace)).

(** ** The cache of the specification

    A set is the list of its lines, most recently used first. *)

Module Spec.

Inductive outcome := Hit | MissNoEvict | MissWithEvict.

Global Instance outcome_eq_dec : EqDecision outcome.
Proof. solve_decision. Defined.

Definition is_line (tg : Z) (l : cache_line) : Prop :=
  valid_bit l ≠ 0 ∧ tag l = tg.

Global Instance is_line_dec tg l : Decision (is_line tg l).
Proof. unfold is_line. apply _. Defined.

(** find(tag): the first valid line with the tag, and its position. *)
Definition find (tg : Z) (s : list cache_line) : option (nat * cache_line) :=
  list_find (is_line tg) s.

(** promote(line): move the line at position [k] to the front. *)
Definition promote (k : nat) (s : list cache_line) : list cache_line :=
  match s !! k with
  | Some l => l :: delete k s
  | None => s
  end.

(** evict_lru(): remove the last line. *)
Definition evict_lru (s : list cache_line) : list cache_line := removelast s.

(** insert_new(tag, dirty). *)
Definition insert_new (E tg dirty : Z) (s : list cache_line) : list cache_line :=
  CacheLine 1 dirty tg ::
    (if bool_decide (E ≤ Z.of_nat (length s)) then evict_lru s else s).

Definition mark (dirty : Z) (l : cache_line) : cache_line :=
  if dirty =? 1 then set_dirty_bit 1 l else l.

(** access(set, tag, is_write) on one set: the set afterwards. *)
Definition access (E tg dirty : Z) (s : list cache_line) : list cache_line :=
  match find tg s with
  | Some (k, l) => promote k (<[k := mark dirty l]> s)
  | None => insert_new E tg dirty s
  end.

Definition access_outcome (E tg : Z) (s : list cache_line) : outcome :=
  match find tg s with
  | Some _ => Hit
  | None =>
      if bool_decide (E ≤ Z.of_nat (length s)) then MissWithEvict
      else MissNoEvict
  end.

(** The line an access evicts, if any. *)
Definition evicted (E tg : Z) (s : list cache_line) : option cache_line :=
  match access_outcome E tg s with
  | MissWithEvict => last s
  | _ => None
  end.

End Spec.

(** ** Representation of a set in the heap *)

(** A chain lists the nodes of one queue from head to tail, each with the
    line it carries. *)
Abbreviation chain := (list (loc * cache_line)).

Definition first_ptr (c : chain) (d : option loc) : option loc :=
  match c with
  | [] => d
  | (p, _) :: _ => Some p
  end.

Definition last_ptr (c : chain) (d : option loc) : option loc :=
  match last c with
  | Some (p, _) => Some p
  | None => d
  end.

(** The nodes of [c] are linked in both directions; [pv] is the [prev] of the
    first node and [nx] the [next] of the last. *)
Fixpoint lseg (h : gmap loc queue_node_t) (pv : option loc) (c : chain)
    (nx : option loc) : Prop :=
  match c with
  | [] => True
  | (p, l) :: c' =>
      h !! p = Some (QueueNode pv (Some l) (first_ptr c' nx)) ∧
      lseg h (Some p) c' nx
  end.

Definition set_inv (h : gmap loc queue_node_t) (q : queue_set_t) (c : chain)
  : Prop :=
  lseg h None c None ∧
  head q = first_ptr c None ∧
  tail q = last_ptr c None ∧
  curr_line_num q = Z.of_nat (length c).

Definition wf_lines (E : Z) (s : list cache_line) : Prop :=
  Forall (λ l, valid_bit l = 1) s ∧
  NoDup (tag <$> s) ∧
  Z.of_nat (length s) ≤ E.

(** No node occurs twice in a chain or in two chains. *)
Definition no_sharing (cs : list chain) : Prop :=
  (∀ i c, cs !! i = Some c → NoDup (c.*1)) ∧
  (∀ i j ci cj p, cs !! i = Some ci → cs !! j = Some cj → i ≠ j →
     p ∈ ci.*1 → p ∉ cj.*1).

(** [cs] lists the chains of the sets of [st]: every set is a well-linked
    queue, no node belongs to two places, and every set holds at most [E]
    valid lines with distinct tags. *)
Definition rep (E : Z) (st : state) (cs : list chain) : Prop :=
  Forall2 (set_inv (heap st)) (cache st) cs ∧
  no_sharing cs ∧
  Forall (λ c : chain, wf_lines E (c.*2)) cs.

(** Every allocated node belongs to one of the chains. *)
Definition tight (st : state) (cs : list chain) : Prop :=
  ∀ p, is_Some (heap st !! p) → ∃ i c, cs !! i = Some c ∧ p ∈ c.*1.

(** ** What the blocks of [count] do *)

(** What a block does to the memory: set [i] goes from chain [c] to chain
    [c'], and nothing outside these chains changes. *)
Definition updates (st st' : state) (i : Z) (c c' : chain) : Prop :=
  ∃ q', cache st' = <[Z.to_nat i := q']> (cache st) ∧
        set_inv (heap st') q' c' ∧
        (∀ k, k ∉ c.*1 → k ∉ c'.*1 → heap st' !! k = heap st !! k).

Definition same_counters (st st' : state) : Prop :=
  hit st' = hit st ∧ miss st' = miss st ∧ eviction st' = eviction st ∧
  dirty_count st' = dirty_count st ∧ dirty_eviction st' = dirty_eviction st.

(** Run the first statement of the block with the lemma that gives its
    result. *)
Definition bump (b : bool) (x : Z) : Z := if b then wrap_int (x + 1) else x.

(** The counters after an access with tag [tg] to a set holding [s]. *)
Definition counters_after (E tg : Z) (s : list cache_line) (st st' : state)
  : Prop :=
  let o := Spec.access_outcome E tg s in
  hit st' = bump (bool_decide (o = Spec.Hit)) (hit st) ∧
  miss st' = bump (bool_decide (o ≠ Spec.Hit)) (miss st) ∧
  eviction st' = bump (bool_decide (o = Spec.MissWithEvict)) (eviction st) ∧
  dirty_eviction st' =
    bump (from_option is_dirty false (Spec.evicted E tg s)) (dirty_eviction st) ∧
  dirty_count st' = dirty_count st.


(** ** States used as examples *)

(** Two sets of two lines; set 0 holds tags 4 and 8, both written. *)
Definition demo_state : state :=
  final_state (run 2 [(4, 0, 0); (8, 0, 1); (4, 0, 1)] (init_state 2)).

(** Two sets of two lines; set 0 holds tag 8, only read, in front of tag 4,
    written. *)
Definition mixed_state : state :=
  final_state (run 2 [(4, 0, 1); (8, 0, 0)] (init_state 2)).

(** One line per set and blocks of [2^30] bytes: a store to address 0, then a
    load of address [2^31], which maps to the same set and evicts it.  Set 0
    holds the line of tag 1, not written so far, and one dirty eviction has
    been counted. *)
Definition big_block_state : state :=
  final_state (simulate 1 1 30 [store_at 0; load_at 0x80000000] (init_state 2)).

(** * Proofs *)

(** ** Running the monad *)

Arguments read_node : simpl never.
Arguments write_node : simpl never.
Arguments free_node : simpl never.
Arguments malloc_node : simpl never.
Arguments read_set : simpl never.
Arguments write_set : simpl never.
Arguments index : simpl never.
Arguments line_matches : simpl never.
Arguments record_hit : simpl never.
Arguments move_to_head : simpl never.
Arguments evict : simpl never.
Arguments handle_miss : simpl never.

Lemma bind_Ok {A B} (m : M A) (f : A → M B) st a st' :
  m st = Ok a st' → (m ≫= f) st = f a st'.
Proof. intros H. unfold mbind, M_bind. by rewrite H. Qed.

Lemma bind_Fault {A B} (m : M A) (f : A → M B) st st' :
  m st = Fault st' → (m ≫= f) st = Fault st'.
Proof. intros H. unfold mbind, M_bind. by rewrite H. Qed.

Lemma get_state_Ok st : get_state st = Ok st st.
Proof. done. Qed.

Lemma put_state_Ok s st : put_state s st = Ok tt s.
Proof. done. Qed.

Lemma ret_Ok {A} (a : A) st : mret (M := M) a st = Ok a st.
Proof. done. Qed.

Lemma wrap_int_id x : - 2 ^ 31 ≤ x ≤ INT_MAX → wrap_int x = x.
Proof.
  unfold wrap_int, INT_MAX. intros H.
  rewrite Z.mod_small by lia. lia.
Qed.

Lemma wrap_int_idemp x y : wrap_int (wrap_int x + y) = wrap_int (x + y).
Proof.
  unfold wrap_int.
  replace ((x + 2 ^ 31) `mod` 2 ^ 32 - 2 ^ 31 + y + 2 ^ 31)
    with ((x + 2 ^ 31) `mod` 2 ^ 32 + y) by lia.
  replace (x + y + 2 ^ 31) with (x + 2 ^ 31 + y) by lia.
  by rewrite Zplus_mod_idemp_l.
Qed.

Lemma read_node_Ok p n st :
  heap st !! p = Some n → read_node (Some p) st = Ok n st.
Proof. intros H. unfold read_node. by rewrite H. Qed.

Lemma write_node_Ok p n f st :
  heap st !! p = Some n →
  write_node (Some p) f st = Ok tt (with_heap (<[p := f n]> (heap st)) st).
Proof. intros H. unfold write_node. by rewrite H. Qed.

Lemma malloc_node_Ok n st :
  malloc_node n st =
  Ok (fresh (dom (heap st)))
     (with_heap (<[fresh (dom (heap st)) := n]> (heap st)) st).
Proof. done. Qed.

Lemma free_node_Ok p n st :
  heap st !! p = Some n →
  free_node (Some p) st = Ok tt (with_heap (delete p (heap st)) st).
Proof. intros H. unfold free_node. by rewrite H. Qed.

Lemma read_set_Ok i q st :
  index (cache st) i = Some q → read_set i st = Ok q st.
Proof. intros H. unfold read_set. by rewrite H. Qed.

Lemma write_set_Ok i q f st :
  index (cache st) i = Some q →
  write_set i f st = Ok tt (with_cache (<[Z.to_nat i := f q]> (cache st)) st).
Proof. intros H. unfold write_set. by rewrite H. Qed.

Lemma index_Some c i q :
  index c i = Some q ↔ 0 ≤ i ∧ c !! Z.to_nat i = Some q.
Proof. unfold index. case_bool_decide; naive_solver. Qed.

Lemma index_insert c i q q' :
  index c i = Some q → index (<[Z.to_nat i := q']> c) i = Some q'.
Proof.
  rewrite !index_Some. intros [? H]. split; [done|].
  apply list_lookup_insert_eq. by eapply lookup_lt_Some.
Qed.

(** ** Chains *)

Lemma first_ptr_app (c1 c2 : chain) d :
  first_ptr (c1 ++ c2) d = first_ptr c1 (first_ptr c2 d).
Proof. by destruct c1 as [|[??]?]. Qed.

Lemma last_ptr_app (c1 c2 : chain) d :
  last_ptr (c1 ++ c2) d = last_ptr c2 (last_ptr c1 d).
Proof.
  unfold last_ptr. destruct c2 as [|x c2] using rev_ind.
  - by rewrite app_nil_r.
  - by rewrite app_assoc, !last_snoc.
Qed.

Lemma last_ptr_snoc (c : chain) p l d : last_ptr (c ++ [(p, l)]) d = Some p.
Proof. unfold last_ptr. by rewrite last_snoc. Qed.

Lemma last_ptr_cons (c : chain) p l d :
  last_ptr ((p, l) :: c) d = last_ptr c (Some p).
Proof. by rewrite (last_ptr_app [(p, l)] c). Qed.

Lemma last_ptr_elem (c : chain) p d :
  last_ptr c d = Some p → c ≠ [] → p ∈ c.*1.
Proof.
  destruct c as [|[q l] c _] using rev_ind; [done|]. intros H _.
  rewrite last_ptr_snoc in H. simplify_eq. rewrite fmap_app. set_solver.
Qed.

Lemma lseg_app h pv (c1 c2 : chain) nx :
  lseg h pv (c1 ++ c2) nx ↔
  lseg h pv c1 (first_ptr c2 nx) ∧ lseg h (last_ptr c1 pv) c2 nx.
Proof.
  revert pv. induction c1 as [|[p l] c1 IH]; intros pv; simpl.
  - naive_solver.
  - rewrite IH, first_ptr_app, last_ptr_cons. naive_solver.
Qed.

Lemma lseg_lookup h pv (c : chain) nx p :
  lseg h pv c nx → p ∈ c.*1 → is_Some (h !! p).
Proof.
  revert pv. induction c as [|[q l] c IH]; intros pv; simpl.
  - by intros _ ?%elem_of_nil.
  - intros [Hq Hc] [->|Hp]%elem_of_cons; eauto.
Qed.

(** A chain only depends on the nodes it lists. *)
Lemma lseg_frame h h' pv (c : chain) nx :
  (∀ p, p ∈ c.*1 → h' !! p = h !! p) →
  lseg h pv c nx → lseg h' pv c nx.
Proof.
  revert pv. induction c as [|[q l] c IH]; intros pv Hag; simpl; [done|].
  intros [Hq Hc]. split.
  - rewrite Hag; [done|]. simpl. set_solver.
  - apply IH; [|done]. intros p Hp. apply Hag. simpl. set_solver.
Qed.

Lemma lseg_insert_ne h pv (c : chain) nx p n :
  p ∉ c.*1 → lseg h pv c nx → lseg (<[p := n]> h) pv c nx.
Proof.
  intros Hp. apply lseg_frame. intros q Hq.
  rewrite lookup_insert_ne; [done|]. set_solver.
Qed.

Lemma lseg_delete_ne h pv (c : chain) nx p :
  p ∉ c.*1 → lseg h pv c nx → lseg (delete p h) pv c nx.
Proof.
  intros Hp. apply lseg_frame. intros q Hq.
  rewrite lookup_delete_ne; [done|]. set_solver.
Qed.

(** Redirecting the [prev] of the first node. *)
Lemma lseg_set_prev h pv pv' p l (c : chain) nx n :
  NoDup (((p, l) :: c).*1) →
  h !! p = Some n →
  lseg h pv ((p, l) :: c) nx →
  lseg (<[p := set_prev pv' n]> h) pv' ((p, l) :: c) nx.
Proof.
  simpl. intros [Hp _]%NoDup_cons Hn [Hq Hc]. simplify_eq. split.
  - by rewrite lookup_insert_eq.
  - by apply lseg_insert_ne.
Qed.

(** Redirecting the [next] of the last node. *)
Lemma lseg_set_next h pv p l (c : chain) nx nx' n :
  NoDup ((c ++ [(p, l)]).*1) →
  h !! p = Some n →
  lseg h pv (c ++ [(p, l)]) nx →
  lseg (<[p := set_next nx' n]> h) pv (c ++ [(p, l)]) nx'.
Proof.
  rewrite fmap_app. intros (_ & Hp & _)%NoDup_app Hn.
  rewrite !lseg_app. simpl. intros [Hc [Hq _]]. simplify_eq. split.
  - apply lseg_insert_ne; [|done]. intros ?. eapply Hp; [done|]. set_solver.
  - by rewrite lookup_insert_eq.
Qed.

(** Replacing the line carried by a node. *)
Lemma lseg_set_line h pv (c1 c2 : chain) p l l' nx n :
  NoDup ((c1 ++ (p, l) :: c2).*1) →
  h !! p = Some n →
  lseg h pv (c1 ++ (p, l) :: c2) nx →
  lseg (<[p := set_line (Some l') n]> h) pv (c1 ++ (p, l') :: c2) nx.
Proof.
  rewrite fmap_app. simpl. intros (_ & Hp1 & [Hp2 _]%NoDup_cons)%NoDup_app Hn.
  rewrite !lseg_app. simpl. intros [Hc1 [Hq Hc2]]. simplify_eq.
  split; [|split].
  - apply lseg_insert_ne; [|done]. intros ?. eapply Hp1; [done|]. set_solver.
  - by rewrite lookup_insert_eq.
  - by apply lseg_insert_ne.
Qed.

Lemma lseg_length h pv (c : chain) nx :
  NoDup (c.*1) → lseg h pv c nx → (length c ≤ size h)%nat.
Proof.
  intros Hnd Hc.
  rewrite <-(length_fmap fst c), <-(size_list_to_set (C := gset loc)) by done.
  rewrite <-size_dom. apply subseteq_size. intros p Hp.
  apply elem_of_list_to_set in Hp. apply elem_of_dom. by eapply lseg_lookup.
Qed.

(** The walk of a well-linked queue lists its lines. *)
Lemma queue_lines_lseg fuel h pv (c : chain) :
  (length c ≤ fuel)%nat →
  lseg h pv c None →
  queue_lines fuel h (first_ptr c None) = c.*2.
Proof.
  revert fuel pv. induction c as [|[p l] c IH]; intros fuel pv Hf; simpl.
  - by destruct fuel.
  - intros [Hp Hc]. destruct fuel as [|fuel]; [simpl in Hf; lia|].
    simpl. rewrite Hp. simpl. f_equal. eapply IH; [|done]. simpl in Hf. lia.
Qed.

(** ** The blocks of [count] *)

Ltac mstep lem := erewrite bind_Ok; [|eapply lem; simpl; try done].

(** Lines 82-96 move the node found to the front of its queue. *)
Lemma move_to_head_spec i p l (pre post : chain) q st :
  index (cache st) i = Some q →
  set_inv (heap st) q (pre ++ (p, l) :: post) →
  NoDup ((pre ++ (p, l) :: post).*1) →
  ∃ st', move_to_head i p st = Ok tt st' ∧
         updates st st' i (pre ++ (p, l) :: post) ((p, l) :: pre ++ post) ∧
         same_counters st st'.
Proof.
  intros Hq (Hseg & Hhd & Htl & Hnum) Hnd.
  destruct st as [h cs hi mi ev dc de]. simpl in *.
  apply lseg_app in Hseg as [Hpre [Hp Hpost]].
  unfold move_to_head. mstep read_node_Ok. simpl.
  destruct pre as [|[pn ln] pre0 _] using rev_ind.
  { (* already the most recently used *)
    simpl. eexists. split; [done|]. split; [|done].
    exists q. simpl. split; [|split; [|done]].
    - apply index_Some in Hq as [_ Hq]. by rewrite list_insert_id.
    - repeat split; simpl; done. }
  rewrite last_ptr_snoc in *. simpl in Hpre.
  rewrite !fmap_app in Hnd. simpl in Hnd.
  apply NoDup_app in Hnd as (Hnd_pre & Hdisj & Hnd_post).
  apply NoDup_cons in Hnd_post as [Hp_post Hnd_post].
  assert (Hp_pre : p ∉ (pre0 ++ [(pn, ln)]).*1).
  { rewrite fmap_app. intros Hin. eapply Hdisj; [done|]. set_solver. }
  assert (Hpn_post : pn ∉ post.*1).
  { intros Hin. eapply (Hdisj pn); set_solver. }
  assert (Hpnp : pn ≠ p).
  { intros ->. apply Hp_pre. rewrite fmap_app. set_solver. }
  assert (Hpn : is_Some (h !! pn)).
  { eapply lseg_lookup; [exact Hpre|]. rewrite fmap_app. set_solver. }
  destruct Hpn as [npn Hpn].
  mstep read_set_Ok.
  set (n := QueueNode (Some pn) (Some l) (first_ptr post None)) in *.
  (* lines 85-90 *)
  assert (∃ h1 q1,
    (if bool_decide (tail q = Some p)
     then write_set i (set_tail (Some pn))
     else n0 ← read_node (Some p); write_node (next n0) (set_prev (Some pn)))
      (State h cs hi mi ev dc de)
    = Ok tt (State h1 (<[Z.to_nat i := q1]> cs) hi mi ev dc de) ∧
    lseg h1 None (pre0 ++ [(pn, ln)]) (Some p) ∧
    h1 !! p = Some n ∧
    lseg h1 (Some pn) post None ∧
    h1 !! pn = Some npn ∧
    head q1 = head q ∧
    tail q1 = last_ptr post (Some pn) ∧
    curr_line_num q1 = curr_line_num q ∧
    (∀ k, k ∉ post.*1 → h1 !! k = h !! k)) as (h1 & q1 & Hrun & Hpre1 & Hp1 & Hpost1 & Hpn1 & Hhd1 & Htl1 & Hnum1 & Hfr1).
  { destruct post as [|[x lx] post'].
    - rewrite last_ptr_app in Htl. simpl in Htl.
      rewrite bool_decide_eq_true_2 by done.
      exists h, (set_tail (Some pn) q). split; [by apply write_set_Ok|].
      repeat split; done.
    - assert (Hne : tail q ≠ Some p).
      { rewrite Htl, last_ptr_app, last_ptr_cons. intros Heq.
        apply last_ptr_elem in Heq; [|done]. by apply Hp_post. }
      rewrite bool_decide_eq_false_2 by done.
      mstep read_node_Ok. simpl in Hpost. destruct Hpost as [Hx Hpost'].
      simpl. exists (<[x := set_prev (Some pn) (QueueNode (Some p) (Some lx) (first_ptr post' None))]> h), q.
      split.
      { unfold n. simpl. erewrite write_node_Ok by done. simpl.
        apply index_Some in Hq as [_ Hq]. by rewrite list_insert_id. }
      assert (x ≠ p) by (intros ->; apply Hp_post; simpl; set_solver).
      assert (x ≠ pn) by (intros ->; apply Hpn_post; simpl; set_solver).
      split; [|split; [|split; [|split]]].
      + apply lseg_insert_ne; [|done]. intros Hin. eapply (Hdisj x); set_solver.
      + by rewrite lookup_insert_ne.
      + eapply (lseg_set_prev _ _ _ _ _ _ _ _ Hnd_post Hx). simpl. done.
      + by rewrite lookup_insert_ne.
      + repeat split; try done.
        * rewrite Htl, last_ptr_app. simpl. by rewrite !last_ptr_cons.
        * intros k Hk. rewrite lookup_insert_ne; [done|]. set_solver. }
  mstep Hrun. clear Hrun.
  (* lines 91-93 *)
  mstep read_node_Ok. simpl.
  mstep write_node_Ok. simpl.
  set (h2 := <[pn := set_next (first_ptr post None) npn]> h1).
  assert (Hpre2 : lseg h2 None (pre0 ++ [(pn, ln)]) (first_ptr post None)).
  { eapply lseg_set_next; try done. by rewrite fmap_app. }
  assert (Hp2 : h2 !! p = Some n) by (unfold h2; by rewrite lookup_insert_ne).
  assert (Hpost2 : lseg h2 (Some pn) post None) by by apply lseg_insert_ne.
  mstep write_node_Ok. simpl.
  mstep read_set_Ok; [|by eapply index_insert].
  mstep write_node_Ok; [|by rewrite lookup_insert_eq]. simpl.
  rewrite insert_insert_eq.
  mstep read_set_Ok; [|by eapply index_insert].
  (* lines 94-95 *)
  assert (∃ p0 l0 pre1, pre0 ++ [(pn, ln)] = (p0, l0) :: pre1)
    as (p0 & l0 & pre1 & Hpre_eq) by (destruct pre0 as [|[??]?]; simpl; eauto).
  assert (Hnd_pre' : NoDup ((pre0 ++ [(pn, ln)]).*1)) by (by rewrite fmap_app).
  assert (Hhd' : head q = Some p0) by (by rewrite Hhd, Hpre_eq).
  assert (Hp0_in : p0 ∈ pre0.*1 ++ [pn]).
  { change [pn] with ([(pn, ln)].*1). rewrite <-fmap_app, Hpre_eq. simpl. set_solver. }
  rewrite Hhd1, Hhd'.
  assert (Hp0p : p0 ≠ p).
  { intros ->. eapply Hdisj; [done|]. set_solver. }
  assert (Hp0 : is_Some (h2 !! p0)).
  { eapply lseg_lookup; [exact Hpre2|]. rewrite Hpre_eq. simpl. set_solver. }
  destruct Hp0 as [np0 Hp0].
  set (n' := QueueNode None (Some l) (Some p0)).
  mstep write_node_Ok; [|by rewrite lookup_insert_ne]. simpl.
  erewrite write_set_Ok by by eapply index_insert. simpl.
  rewrite list_insert_insert_eq.
  eexists. split; [done|]. split; [|done].
  exists (set_head (Some p) q1). simpl. split; [done|]. split.
  - split; [|split; [|split]]; simpl.
    + split.
      * rewrite lookup_insert_ne by done. rewrite lookup_insert_eq.
        by rewrite Hpre_eq.
      * apply lseg_app. split.
        -- rewrite Hpre_eq in *. eapply lseg_set_prev; [done| |].
           ++ by rewrite lookup_insert_ne.
           ++ by apply lseg_insert_ne.
        -- rewrite last_ptr_snoc.
           apply lseg_insert_ne.
           { intros Hin. eapply (Hdisj p0); [done|set_solver]. }
           by apply lseg_insert_ne.
    + done.
    + rewrite Htl1. by rewrite last_ptr_cons, last_ptr_app, last_ptr_snoc.
    + rewrite Hnum1, Hnum. rewrite !length_app. simpl. rewrite ?length_app. simpl. lia.
  - intros k Hk _. rewrite !fmap_app in Hk. simpl in Hk.
    assert (k ≠ p0).
    { intros ->. apply Hk. set_solver. }
    rewrite lookup_insert_ne by done.
    rewrite lookup_insert_ne by set_solver.
    unfold h2. rewrite lookup_insert_ne by set_solver.
    apply Hfr1. set_solver.
Qed.

(** Lines 77-80 count the hit and mark the line found on a store. *)
Lemma record_hit_spec i p l (pre post : chain) q d st :
  index (cache st) i = Some q →
  set_inv (heap st) q (pre ++ (p, l) :: post) →
  NoDup ((pre ++ (p, l) :: post).*1) →
  ∃ st', record_hit p d st = Ok tt st' ∧
         cache st' = cache st ∧
         set_inv (heap st') q (pre ++ (p, Spec.mark d l) :: post) ∧
         (∀ k, k ≠ p → heap st' !! k = heap st !! k) ∧
         hit st' = wrap_int (hit st + 1) ∧ miss st' = miss st ∧
         eviction st' = eviction st ∧ dirty_count st' = dirty_count st ∧
         dirty_eviction st' = dirty_eviction st.
Proof.
  intros Hq (Hseg & Hhd & Htl & Hnum) Hnd.
  destruct st as [h cs hi mi ev dc de]. simpl in *.
  assert (Hp : h !! p = Some (QueueNode (last_ptr pre None) (Some l)
                                (first_ptr post None))).
  { apply lseg_app in Hseg as [_ [Hp _]]. done. }
  unfold record_hit, Spec.mark.
  mstep get_state_Ok. mstep put_state_Ok.
  destruct (d =? 1).
  - erewrite write_node_Ok by done. simpl. eexists. split; [done|]. simpl.
    split; [done|]. split; [|split; [|done]].
    + split; [|split; [|split]].
      * eapply (lseg_set_line _ _ _ _ _ _ _ _ _ Hnd Hp Hseg).
      * by rewrite Hhd, !first_ptr_app.
      * by rewrite Htl, !last_ptr_app, !last_ptr_cons.
      * rewrite Hnum, !length_app. done.
    + intros k Hk. by rewrite lookup_insert_ne.
  - eexists. split; [done|]. simpl. done.
Qed.

Lemma line_matches_spec l tg :
  line_matches (Some l) tg = bool_decide (Spec.is_line tg l).
Proof.
  unfold line_matches, Spec.is_line.
  destruct (Z.eqb_spec (valid_bit l) 0), (Z.eqb_spec (tag l) tg); simpl;
    symmetry; (apply bool_decide_eq_true_2 || apply bool_decide_eq_false_2);
    naive_solver.
Qed.

(** The search loop when no line of the rest of the queue matches. *)
Lemma search_miss tg i d st pv (rest : chain) fuel :
  lseg (heap st) pv rest None →
  Forall (λ x, ¬ Spec.is_line tg x.2) rest →
  (length rest ≤ fuel)%nat →
  search fuel tg i d (first_ptr rest None) st = Ok 0 st.
Proof.
  revert pv fuel. induction rest as [|[p l] rest IH]; intros pv fuel; simpl.
  - by destruct fuel.
  - intros [Hp Hrest] [Hl Hno]%Forall_cons Hf.
    destruct fuel as [|fuel]; [lia|]. simpl.
    mstep read_node_Ok. simpl.
    rewrite line_matches_spec, bool_decide_eq_false_2 by done.
    eapply IH; [done..|lia].
Qed.

(** The search loop when it meets a matching line. *)
Lemma search_hit tg i d q st (pre r1 r2 : chain) p l fuel :
  index (cache st) i = Some q →
  set_inv (heap st) q (pre ++ r1 ++ (p, l) :: r2) →
  NoDup ((pre ++ r1 ++ (p, l) :: r2).*1) →
  Forall (λ x, ¬ Spec.is_line tg x.2) r1 →
  Spec.is_line tg l →
  (length r1 < fuel)%nat →
  ∃ st', search fuel tg i d (first_ptr (r1 ++ (p, l) :: r2) None) st = Ok 1 st' ∧
         updates st st' i (pre ++ r1 ++ (p, l) :: r2)
           ((p, Spec.mark d l) :: pre ++ r1 ++ r2) ∧
         hit st' = wrap_int (hit st + 1) ∧ miss st' = miss st ∧
         eviction st' = eviction st ∧ dirty_count st' = dirty_count st ∧
         dirty_eviction st' = dirty_eviction st.
Proof.
  revert pre fuel. induction r1 as [|[p1 l1] r1 IH]; intros pre fuel Hq Hinv Hnd Hno Hl Hf.
  - simpl in *. destruct fuel as [|fuel]; [lia|]. simpl.
    assert (Hp : heap st !! p = Some (QueueNode (last_ptr pre None) (Some l)
                                (first_ptr r2 None))).
    { destruct Hinv as [Hseg _]. apply lseg_app in Hseg as [_ [Hp _]]. done. }
    mstep read_node_Ok. simpl.
    rewrite line_matches_spec, bool_decide_eq_true_2 by done.
    destruct (record_hit_spec i p l pre r2 q d st) as (st1 & Hrun1 & Hc1 & Hinv1 & Hfr1 & Hcnt1); [done..|].
    mstep Hrun1.
    destruct (move_to_head_spec i p (Spec.mark d l) pre r2 q st1) as (st2 & Hrun2 & Hup2 & Hcnt2).
    { by rewrite Hc1. }
    { done. }
    { revert Hnd. by rewrite !fmap_app. }
    mstep Hrun2. eexists. split; [done|].
    destruct Hcnt2 as (-> & -> & -> & -> & ->). split; [|done].
    destruct Hup2 as (q' & Hc2 & Hinv2 & Hfr2).
    exists q'. rewrite Hc2, Hc1. split; [done|]. split; [done|].
    intros k Hk Hk'. rewrite Hfr2, Hfr1; [done| | |].
    + intros ->. apply Hk. rewrite fmap_app. set_solver.
    + revert Hk. by rewrite !fmap_app.
    + done.
  - apply Forall_cons in Hno as [Hl1 Hno]. simpl in Hf.
    destruct fuel as [|fuel]; [lia|]. simpl.
    assert (Hp1 : heap st !! p1 = Some (QueueNode (last_ptr pre None) (Some l1)
                                (first_ptr (r1 ++ (p, l) :: r2) None))).
    { destruct Hinv as [Hseg _]. apply lseg_app in Hseg as [_ [Hp _]]. done. }
    mstep read_node_Ok. simpl.
    rewrite line_matches_spec, bool_decide_eq_false_2 by done.
    specialize (IH (pre ++ [(p1, l1)]) fuel).
    rewrite <-!app_assoc in IH. simpl in IH. apply IH; try done. lia.
Qed.

(** Lines 116-135 unlink and free the last node of a queue that is not
    empty. *)
Lemma evict_spec i pl ll (c0 : chain) q st :
  index (cache st) i = Some q →
  set_inv (heap st) q (c0 ++ [(pl, ll)]) →
  NoDup ((c0 ++ [(pl, ll)]).*1) →
  Z.of_nat (length (c0 ++ [(pl, ll)])) ≤ INT_MAX →
  ∃ st', evict i st = Ok tt st' ∧
         updates st st' i (c0 ++ [(pl, ll)]) c0 ∧
         heap st' !! pl = None ∧
         hit st' = hit st ∧ miss st' = miss st ∧
         eviction st' = wrap_int (eviction st + 1) ∧
         dirty_count st' = dirty_count st ∧
         dirty_eviction st' =
           (if dirty_bit ll =? 1 then wrap_int (dirty_eviction st + 1)
            else dirty_eviction st).
Proof.
  intros Hq (Hseg & Hhd & Htl & Hnum) Hnd Hmax.
  destruct st as [h cs hi mi ev dc de]. simpl in *.
  rewrite last_ptr_snoc in Htl.
  rewrite fmap_app in Hnd. simpl in Hnd.
  apply NoDup_app in Hnd as (Hnd0 & Hdisj & _).
  assert (Hpl0 : pl ∉ c0.*1) by (intros Hin; eapply Hdisj; [done|set_solver]).
  apply lseg_app in Hseg as [Hc0 [Hpl _]]. simpl in Hc0.
  unfold evict.
  mstep get_state_Ok. mstep put_state_Ok. simpl. mstep read_set_Ok.
  rewrite Htl.
  erewrite bind_Ok; [|erewrite bind_Ok; [apply ret_Ok|by apply read_node_Ok]].
  simpl.
  assert (∃ h1 q1,
    (if bool_decide (last_ptr c0 None ≠ None)
     then n ← read_node (Some pl);
          write_node (Some pl) (set_prev None);;
          write_node (prev n) (set_next None);;
          write_set i (set_tail (prev n))
     else q0 ← read_set i;
          if curr_line_num q0 =? 1
          then write_set i (set_head None);; write_set i (set_tail None)
          else mret tt)
      (State h cs hi mi (wrap_int (ev + 1)) dc de)
    = Ok tt (State h1 (<[Z.to_nat i := q1]> cs) hi mi (wrap_int (ev + 1)) dc de) ∧
    lseg h1 None c0 None ∧
    (∃ n1, h1 !! pl = Some n1 ∧ line n1 = Some ll) ∧
    head q1 = first_ptr c0 None ∧
    tail q1 = last_ptr c0 None ∧
    curr_line_num q1 = curr_line_num q ∧
    (∀ k, k ∉ c0.*1 → k ≠ pl → h1 !! k = h !! k))
    as (h1 & q1 & Hrun & Hc1 & (n1 & Hpl1 & Hln1) & Hhd1 & Htl1 & Hnum1 & Hfr1).
  { destruct c0 as [|[pp lp] c00 _] using rev_ind.
    - simpl.
      mstep read_set_Ok. simpl in Hnum. rewrite Hnum. simpl.
      mstep write_set_Ok.
      erewrite write_set_Ok by by eapply index_insert. simpl.
      rewrite list_insert_insert_eq.
      eexists _, _. split; [done|]. simpl. eauto 10.
    - rewrite last_ptr_snoc. rewrite bool_decide_eq_true_2 by done.
      rewrite last_ptr_snoc in Hpl.
      assert (Hpp : is_Some (h !! pp)).
      { eapply lseg_lookup; [done|]. rewrite fmap_app. set_solver. }
      destruct Hpp as [npp Hpp].
      assert (pp ≠ pl).
      { intros ->. apply Hpl0. rewrite fmap_app. set_solver. }
      mstep read_node_Ok. mstep write_node_Ok. simpl.
      mstep write_node_Ok; [|by rewrite lookup_insert_ne].
      erewrite write_set_Ok by done. simpl.
      eexists _, _. split; [done|]. simpl. split; [|split; [|split; [|split; [|split]]]].
      + eapply lseg_set_next; [done|by rewrite lookup_insert_ne|].
        by apply lseg_insert_ne.
      + eexists. rewrite lookup_insert_ne by done. rewrite lookup_insert_eq.
        done.
      + rewrite Hhd, !first_ptr_app. simpl. by destruct c00 as [|[??]?].
      + done.
      + done.
      + intros k Hk Hkl. rewrite lookup_insert_ne.
        * by rewrite lookup_insert_ne.
        * intros ->. apply Hk. rewrite fmap_app. set_solver. }
  mstep Hrun. clear Hrun.
  mstep read_node_Ok. rewrite Hln1.
  assert (∃ de',
    (if dirty_bit ll =? 1
     then st ← get_state;
          put_state (with_dirty_eviction (wrap_int (dirty_eviction st + 1)) st)
     else mret tt)
      (State h1 (<[Z.to_nat i := q1]> cs) hi mi (wrap_int (ev + 1)) dc de)
    = Ok tt (State h1 (<[Z.to_nat i := q1]> cs) hi mi (wrap_int (ev + 1)) dc de') ∧
    de' = (if dirty_bit ll =? 1 then wrap_int (de + 1) else de))
    as (de' & Hrun & Hde).
  { destruct (dirty_bit ll =? 1); eexists; split; done. }
  mstep Hrun. clear Hrun.
  mstep free_node_Ok. simpl.
  mstep read_set_Ok; [|by eapply index_insert].
  erewrite write_set_Ok by by eapply index_insert. simpl.
  rewrite list_insert_insert_eq.
  eexists. split; [done|]. simpl. split; [|split; [by rewrite lookup_delete_eq|done]].
  eexists. simpl. split; [done|]. split.
  - split; [|split; [|split]]; simpl; try done.
    + by apply lseg_delete_ne.
    + rewrite Hnum1, Hnum, length_app. simpl. rewrite length_app in Hmax. simpl in Hmax.
      rewrite wrap_int_id; unfold INT_MAX in *; lia.
  - intros k Hk Hk'. rewrite fmap_app in Hk. simpl in Hk.
    rewrite lookup_delete_ne by set_solver. apply Hfr1; set_solver.
Qed.

(** Lines 106-150 put a new node in front of the queue, after removing the
    last one when the set is full; the removed node is no longer
    allocated. *)
Lemma handle_miss_full E tg i d (c : chain) q st :
  index (cache st) i = Some q →
  set_inv (heap st) q c →
  NoDup (c.*1) →
  1 ≤ E ≤ INT_MAX →
  Z.of_nat (length c) ≤ E →
  let pnew := fresh (dom (heap st)) in
  let full := bool_decide (E ≤ Z.of_nat (length c)) in
  let c0 := if full then removelast c else c in
  ∃ st', handle_miss E tg i d st = Ok tt st' ∧
         updates st st' i c ((pnew, CacheLine 1 d tg) :: c0) ∧
         (∀ k, k ∈ c.*1 → k ∉ c0.*1 → heap st' !! k = None) ∧
         hit st' = hit st ∧ miss st' = wrap_int (miss st + 1) ∧
         eviction st' = (if full then wrap_int (eviction st + 1) else eviction st) ∧
         dirty_count st' = dirty_count st ∧
         dirty_eviction st' =
           match (if full then last (c.*2) else None) with
           | Some l => if dirty_bit l =? 1 then wrap_int (dirty_eviction st + 1)
                       else dirty_eviction st
           | None => dirty_eviction st
           end.
Proof.
  intros Hq Hinv Hnd HE Hlen pnew full c0.
  assert (Hfresh : heap st !! pnew = None).
  { apply not_elem_of_dom. apply is_fresh. }
  assert (Hpnew : pnew ∉ c.*1).
  { intros Hin. destruct Hinv as [Hseg _].
    destruct (lseg_lookup _ _ _ _ _ Hseg Hin) as [? ?]. congruence. }
  unfold handle_miss.
  mstep get_state_Ok. mstep put_state_Ok. simpl.
  mstep malloc_node_Ok. simpl. fold pnew.
  set (new_line := CacheLine 1 d tg).
  set (n0 := QueueNode None (Some new_line) None).
  set (st0 := with_heap _ _).
  assert (Hq0 : index (cache st0) i = Some q) by done.
  assert (Hinv0 : set_inv (heap st0) q c).
  { destruct Hinv as (Hseg & ?). split; [|done]. simpl. by apply lseg_insert_ne. }
  mstep read_set_Ok.
  (* lines 115-136 *)
  assert (∃ st1 q1,
    (if bool_decide (E ≤ curr_line_num q) then evict i else mret tt) st0 = Ok tt st1 ∧
    index (cache st1) i = Some q1 ∧
    cache st1 = <[Z.to_nat i := q1]> (cache st) ∧
    set_inv (heap st1) q1 c0 ∧
    heap st1 !! pnew = Some n0 ∧
    (∀ k, k ∉ c.*1 → k ≠ pnew → heap st1 !! k = heap st !! k) ∧
    (∀ k, k ∈ c.*1 → k ∉ c0.*1 → heap st1 !! k = None) ∧
    c0.*1 ⊆ c.*1 ∧ NoDup (c0.*1) ∧
    Z.of_nat (length c0) < E ∧
    hit st1 = hit st ∧ miss st1 = wrap_int (miss st + 1) ∧
    eviction st1 = (if full then wrap_int (eviction st + 1) else eviction st) ∧
    dirty_count st1 = dirty_count st ∧
    dirty_eviction st1 =
      match (if full then last (c.*2) else None) with
      | Some l => if dirty_bit l =? 1 then wrap_int (dirty_eviction st + 1)
                  else dirty_eviction st
      | None => dirty_eviction st
      end)
    as (st1 & q1 & Hrun & Hq1 & Hc1 & Hinv1 & Hpnew1 & Hfr1 & Hgone1 & Hsub & Hnd1 & Hlen1 & Hcnt1).
  { destruct Hinv as (_ & _ & _ & Hnum). rewrite Hnum. fold full.
    subst c0. destruct full eqn:Hfull.
    - apply bool_decide_eq_true_1 in Hfull.
      destruct c as [|[pl ll] c' _] using rev_ind; [simpl in *; lia|].
      rewrite removelast_last.
      destruct (evict_spec i pl ll c' q st0) as (st1 & Hrun & (q1 & Hc1 & Hinv1 & Hfr1) & Hgone & Hcnt); try done.
      { lia. }
      exists st1, q1. split; [done|]. rewrite Hc1. simpl.
      split; [by eapply index_insert|]. split; [done|]. split; [done|].
      assert (Hpl : pnew ≠ pl).
      { intros Heq. apply Hpnew. rewrite Heq, fmap_app. set_solver. }
      split; [|split; [|split; [|split; [|split; [|split]]]]].
      + rewrite Hfr1; [by apply lookup_insert_eq|done|].
        intros Hin. apply Hpnew. rewrite fmap_app. set_solver.
      + intros k Hk Hkn. destruct (decide (k ∈ c'.*1)) as [Hin|Hnin].
        { exfalso. apply Hk. rewrite fmap_app. set_solver. }
        rewrite Hfr1 by done. simpl. by rewrite lookup_insert_ne.
      + intros k Hk Hk'. rewrite fmap_app in Hk. simpl in Hk.
        assert (k = pl) as -> by set_solver. done.
      + rewrite fmap_app. set_solver.
      + rewrite fmap_app in Hnd. by apply NoDup_app in Hnd as [? _].
      + rewrite length_app in Hlen. simpl in Hlen. lia.
      + destruct Hcnt as (-> & -> & -> & -> & ->). simpl.
        rewrite fmap_app. simpl. rewrite last_snoc. done.
    - apply bool_decide_eq_false_1 in Hfull.
      exists st0, q. split; [done|]. simpl.
      split; [done|]. split; [|split; [done|]].
      { apply index_Some in Hq as [_ Hq]. by rewrite list_insert_id. }
      split; [by apply lookup_insert_eq|].
      split; [intros k _ Hk; by rewrite lookup_insert_ne|].
      split; [by intros k Hk Hk'|].
      split; [done|]. split; [done|]. split; [lia|]. done. }
  mstep Hrun. clear Hrun.
  destruct st1 as [h1 cs1 hi1 mi1 ev1 dc1 de1]. simpl in *.
  destruct Hinv1 as (Hseg1 & Hhd1 & Htl1 & Hnum1).
  assert (Hpnew0 : pnew ∉ c0.*1) by set_solver.
  (* lines 138-139 *)
  mstep write_node_Ok. simpl.
  mstep read_set_Ok.
  mstep write_node_Ok; [|by rewrite lookup_insert_eq]. simpl.
  rewrite insert_insert_eq.
  set (n1 := set_next (head q1) (set_prev None n0)).
  mstep read_set_Ok.
  (* lines 140-146 *)
  assert (∃ h2 q2,
    match head q1 with
    | Some _ => write_node (head q1) (set_prev (Some pnew))
    | None => write_set i (set_tail (Some pnew))
    end (State (<[pnew := n1]> h1) cs1 hi1 mi1 ev1 dc1 de1)
    = Ok tt (State h2 (<[Z.to_nat i := q2]> cs1) hi1 mi1 ev1 dc1 de1) ∧
    lseg h2 (Some pnew) c0 None ∧
    h2 !! pnew = Some n1 ∧
    head q2 = head q1 ∧
    tail q2 = last_ptr c0 (Some pnew) ∧
    curr_line_num q2 = curr_line_num q1 ∧
    (∀ k, k ∉ c0.*1 → k ≠ pnew → h2 !! k = h1 !! k))
    as (h2 & q2 & Hrun & Hseg2 & Hpnew2 & Hhd2 & Htl2 & Hnum2 & Hfr2).
  { rewrite Hhd1. destruct c0 as [|[p0 l0] c0'] eqn:Hc0eq; simpl.
    - erewrite write_set_Ok by done. simpl.
      eexists _, _. split; [done|]. simpl.
      split; [done|]. split; [by rewrite lookup_insert_eq|].
      split; [done|]. split; [done|]. split; [done|].
      intros k _ Hk. by rewrite lookup_insert_ne.
    - assert (p0 ≠ pnew) by (intros ->; apply Hpnew0; simpl; set_solver).
      simpl in Hseg1. destruct Hseg1 as [Hp0 Hseg1].
      erewrite write_node_Ok
        by (simpl; rewrite lookup_insert_ne by done; exact Hp0).
      simpl.
      exists (<[p0 := set_prev (Some pnew) (QueueNode None (Some l0) (first_ptr c0' None))]> (<[pnew := n1]> h1)), q1.
      split.
      { f_equal. f_equal. apply index_Some in Hq1 as [_ Hq1]. by rewrite list_insert_id. }
      split.
      { eapply (lseg_set_prev _ None); [done|by rewrite lookup_insert_ne|].
        apply lseg_insert_ne; [done|]. simpl. done. }
      split; [rewrite lookup_insert_ne by done; by rewrite lookup_insert_eq|].
      split; [done|]. split; [by rewrite Htl1, last_ptr_cons, last_ptr_cons|].
      split; [done|].
      intros k Hk Hkn. rewrite lookup_insert_ne by set_solver.
      by rewrite lookup_insert_ne. }
  mstep Hrun. clear Hrun.
  (* lines 147-148 *)
  mstep write_set_Ok; [|by eapply index_insert]. simpl.
  rewrite list_insert_insert_eq.
  mstep read_set_Ok; [|by eapply index_insert].
  erewrite write_set_Ok by by eapply index_insert. simpl.
  rewrite list_insert_insert_eq.
  eexists. split; [done|]. simpl. split; [|split; [|done]].
  2:{ intros k Hk Hk'. rewrite Hfr2; [by apply Hgone1|done|].
      intros ->. by apply Hpnew. }
  eexists. simpl. split.
  { rewrite Hc1, list_insert_insert_eq. done. }
  split.
  - split; [|split; [|split]]; simpl.
    + split; [|done]. rewrite Hpnew2. unfold n1, n0. simpl. by rewrite Hhd1.
    + done.
    + by rewrite last_ptr_cons.
    + rewrite Hnum2, Hnum1. rewrite wrap_int_id; unfold INT_MAX in *; lia.
  - intros k Hk Hk'. apply not_elem_of_cons in Hk' as [Hkn Hk0].
    rewrite Hfr2 by done. by apply Hfr1.
Qed.

Lemma handle_miss_spec E tg i d (c : chain) q st :
  index (cache st) i = Some q →
  set_inv (heap st) q c →
  NoDup (c.*1) →
  1 ≤ E ≤ INT_MAX →
  Z.of_nat (length c) ≤ E →
  let pnew := fresh (dom (heap st)) in
  let full := bool_decide (E ≤ Z.of_nat (length c)) in
  let c0 := if full then removelast c else c in
  ∃ st', handle_miss E tg i d st = Ok tt st' ∧
         updates st st' i c ((pnew, CacheLine 1 d tg) :: c0) ∧
         hit st' = hit st ∧ miss st' = wrap_int (miss st + 1) ∧
         eviction st' = (if full then wrap_int (eviction st + 1) else eviction st) ∧
         dirty_count st' = dirty_count st ∧
         dirty_eviction st' =
           match (if full then last (c.*2) else None) with
           | Some l => if dirty_bit l =? 1 then wrap_int (dirty_eviction st + 1)
                       else dirty_eviction st
           | None => dirty_eviction st
           end.
Proof.
  intros Hq Hinv Hnd HE Hlen pnew full c0.
  destruct (handle_miss_full E tg i d c q st Hq Hinv Hnd HE Hlen)
    as (st' & Hrun & Hup & _ & Hcnt).
  by exists st'.
Qed.

(** ** The cache of the specification *)

Lemma find_Some_split tg s k l :
  Spec.find tg s = Some (k, l) →
  ∃ s1 s2, s = s1 ++ l :: s2 ∧ length s1 = k ∧ Spec.is_line tg l ∧
           Forall (λ x, ¬ Spec.is_line tg x) s1.
Proof.
  unfold Spec.find. intros (Hk & Hl & Hno)%list_find_Some.
  exists (take k s), (drop (S k) s). split; [|split; [|split; [done|]]].
  - by rewrite take_drop_middle.
  - apply length_take_le. apply lookup_lt_Some in Hk. lia.
  - apply Forall_lookup. intros j x Hj.
    apply lookup_take_Some in Hj as [Hj Hlt]. eauto.
Qed.

Lemma find_None tg s :
  Spec.find tg s = None → Forall (λ x, ¬ Spec.is_line tg x) s.
Proof. unfold Spec.find. by intros ?%list_find_None. Qed.

Lemma find_split tg s1 l s2 :
  Forall (λ x, ¬ Spec.is_line tg x) s1 → Spec.is_line tg l →
  Spec.find tg (s1 ++ l :: s2) = Some (length s1, l).
Proof.
  intros Hno Hl. unfold Spec.find. apply list_find_Some. split; [|split; [done|]].
  - by rewrite list_lookup_middle.
  - intros j y Hj Hlt. rewrite lookup_app_l in Hj by done.
    by eapply (proj1 (Forall_lookup _ _) Hno).
Qed.

Lemma access_hit E tg d s1 l s2 :
  Forall (λ x, ¬ Spec.is_line tg x) s1 → Spec.is_line tg l →
  Spec.access E tg d (s1 ++ l :: s2) = Spec.mark d l :: s1 ++ s2.
Proof.
  intros Hno Hl. unfold Spec.access. rewrite find_split by done.
  unfold Spec.promote.
  rewrite list_lookup_insert_eq by (rewrite length_app; simpl; lia).
  f_equal. rewrite delete_take_drop.
  rewrite take_insert_ge by lia. rewrite drop_insert_lt by lia.
  rewrite take_app_length. replace (S (length s1)) with (length (s1 ++ [l])).
  - by rewrite (cons_middle l s1 s2), app_assoc, drop_app_length.
  - rewrite length_app. simpl. lia.
Qed.

Lemma access_miss E tg d s :
  Spec.find tg s = None →
  Spec.access E tg d s =
  CacheLine 1 d tg ::
    (if bool_decide (E ≤ Z.of_nat (length s)) then removelast s else s).
Proof. intros H. unfold Spec.access. by rewrite H. Qed.

Lemma mark_tag d l : tag (Spec.mark d l) = tag l.
Proof. unfold Spec.mark. by destruct (d =? 1). Qed.

Lemma mark_valid_bit d l : valid_bit (Spec.mark d l) = valid_bit l.
Proof. unfold Spec.mark. by destruct (d =? 1). Qed.

(** An access keeps a set well formed. *)
Lemma access_wf E tg d s :
  1 ≤ E → wf_lines E s → wf_lines E (Spec.access E tg d s).
Proof.
  intros HE (Hval & Hnd & Hlen).
  destruct (Spec.find tg s) as [[k l]|] eqn:Hfind.
  - apply find_Some_split in Hfind as (s1 & s2 & -> & _ & Hl & Hno).
    rewrite access_hit by done.
    apply Forall_app in Hval as [Hv1 [Hvl Hv2]%Forall_cons].
    split; [|split].
    + apply Forall_cons. simpl in *. rewrite mark_valid_bit. split; [done|].
      by apply Forall_app.
    + rewrite fmap_cons, mark_tag, fmap_app.
      rewrite fmap_app, fmap_cons in Hnd.
      by rewrite <-Permutation_middle in Hnd.
    + revert Hlen. rewrite !length_app. simpl. rewrite length_app. lia.
  - rewrite access_miss by done. apply find_None in Hfind.
    assert (Hfresh : ∀ s', s' ⊆ s → tg ∉ tag <$> s').
    { intros s' Hsub (x & Htg & Hx)%list_elem_of_fmap.
      assert (Hxs : x ∈ s) by set_solver.
      apply (proj1 (Forall_forall _ _) Hfind x Hxs). split; [|done].
      rewrite (proj1 (Forall_forall _ _) Hval x Hxs). done. }
    case_bool_decide as Hfull.
    + destruct s as [|x s _] using rev_ind; [simpl in *; lia|].
      rewrite removelast_last.
      apply Forall_app in Hval as [Hval _].
      rewrite fmap_app in Hnd. apply NoDup_app in Hnd as [Hnd _].
      split; [|split].
      * by apply Forall_cons.
      * rewrite fmap_cons. apply NoDup_cons. split; [|done].
        apply Hfresh. set_solver.
      * rewrite length_app in Hlen. simpl in *. lia.
    + split; [|split].
      * by apply Forall_cons.
      * rewrite fmap_cons. apply NoDup_cons. split; [|done]. by apply Hfresh.
      * simpl. lia.
Qed.

Lemma access_length_hit E tg d s k l :
  Spec.find tg s = Some (k, l) →
  length (Spec.access E tg d s) = length s.
Proof.
  intros (s1 & s2 & -> & _ & Hl & Hno)%find_Some_split.
  rewrite access_hit by done. simpl. rewrite !length_app. simpl. lia.
Qed.

Lemma rep_lookup E st cs i (c : chain) :
  rep E st cs → cs !! i = Some c →
  ∃ q, cache st !! i = Some q ∧ set_inv (heap st) q c ∧ NoDup (c.*1) ∧
       wf_lines E (c.*2).
Proof.
  intros (Hsets & [Hnd _] & Hwf) Hc.
  destruct (Forall2_lookup_r _ _ _ _ _ Hsets Hc) as (q & Hq & Hinv).
  exists q. split; [done|]. split; [done|]. split; [by eapply Hnd|].
  by eapply (proj1 (Forall_lookup _ _) Hwf).
Qed.

Lemma rep_allocated E st cs i (c : chain) p :
  rep E st cs → cs !! i = Some c → p ∈ c.*1 → is_Some (heap st !! p).
Proof.
  intros Hrep Hc Hp.
  destruct (rep_lookup _ _ _ _ _ Hrep Hc) as (q & _ & [Hseg _] & _).
  by eapply lseg_lookup.
Qed.

(** A block that rewrites one set keeps the whole cache represented. *)
Lemma updates_rep E st st' cs i (c c' : chain) :
  rep E st cs → 0 ≤ i → cs !! Z.to_nat i = Some c →
  updates st st' i c c' →
  NoDup (c'.*1) →
  (∀ p, p ∈ c'.*1 → p ∈ c.*1 ∨ heap st !! p = None) →
  wf_lines E (c'.*2) →
  rep E st' (<[Z.to_nat i := c']> cs).
Proof.
  intros Hrep Hi Hc (q' & Hcache & Hinv' & Hframe) Hnd' Hnew Hwf'.
  pose proof Hrep as (Hsets & [Hnd Hsep] & Hwf).
  split; [|split; [split|]].
  - rewrite Hcache. apply Forall2_same_length_lookup. split.
    { rewrite !length_insert. by eapply Forall2_length. }
    intros j q c1 Hq Hc1. destruct (decide (j = Z.to_nat i)) as [->|Hne].
    + apply list_lookup_insert_Some in Hq as [(_ & <- & _)|[? _]]; [|done].
      apply list_lookup_insert_Some in Hc1 as [(_ & <- & _)|[? _]]; done.
    + rewrite list_lookup_insert_ne in Hq by done.
      rewrite list_lookup_insert_ne in Hc1 by done.
      destruct (Forall2_lookup_lr _ _ _ _ _ _ Hsets Hq Hc1) as (Hseg & ?).
      split; [|done]. eapply lseg_frame; [|done].
      intros p Hp. apply Hframe.
      * intros Hin. by eapply (Hsep (Z.to_nat i) j).
      * intros Hin. destruct (Hnew p Hin) as [Hin'|Hnone].
        -- by eapply (Hsep (Z.to_nat i) j).
        -- destruct (rep_allocated _ _ _ _ _ _ Hrep Hc1 Hp). congruence.
  - intros j c1 Hc1. destruct (decide (j = Z.to_nat i)) as [->|Hne].
    + apply list_lookup_insert_Some in Hc1 as [(_ & <- & _)|[? _]]; done.
    + rewrite list_lookup_insert_ne in Hc1 by done. by eapply Hnd.
  - intros j1 j2 c1 c2 p Hc1 Hc2 Hne Hp1 Hp2.
    destruct (decide (j1 = Z.to_nat i)) as [->|Hne1];
      destruct (decide (j2 = Z.to_nat i)) as [->|Hne2]; [done| | |].
    + apply list_lookup_insert_Some in Hc1 as [(_ & <- & _)|[? _]]; [|done].
      rewrite list_lookup_insert_ne in Hc2 by done.
      destruct (Hnew p Hp1) as [Hin'|Hnone].
      * by eapply (Hsep (Z.to_nat i) j2).
      * destruct (rep_allocated _ _ _ _ _ _ Hrep Hc2 Hp2). congruence.
    + apply list_lookup_insert_Some in Hc2 as [(_ & <- & _)|[? _]]; [|done].
      rewrite list_lookup_insert_ne in Hc1 by done.
      destruct (Hnew p Hp2) as [Hin'|Hnone].
      * by eapply (Hsep j1 (Z.to_nat i)).
      * destruct (rep_allocated _ _ _ _ _ _ Hrep Hc1 Hp1). congruence.
    + rewrite list_lookup_insert_ne in Hc1 by done.
      rewrite list_lookup_insert_ne in Hc2 by done.
      by eapply (Hsep j1 j2).
  - apply Forall_insert; done.
Qed.

Lemma chain_split (c : chain) s1 l s2 :
  c.*2 = s1 ++ l :: s2 →
  ∃ c1 p c2, c = c1 ++ (p, l) :: c2 ∧ c1.*2 = s1 ∧ c2.*2 = s2.
Proof.
  intros (c1 & c2' & -> & Hc2 & ->)%fmap_app_inv.
  symmetry in Hc2.
  apply fmap_cons_inv in Hc2 as ([p l'] & c2 & -> & -> & ->).
  by exists c1, p, c2.
Qed.

Lemma no_line_chain tg (c : chain) :
  Forall (λ x, ¬ Spec.is_line tg x) (c.*2) →
  Forall (λ x : loc * cache_line, ¬ Spec.is_line tg x.2) c.
Proof.
  rewrite !Forall_forall. intros H [p l] Hin. apply H.
  apply list_elem_of_fmap. by exists (p, l).
Qed.

(** [count] on a represented cache: it returns, the cache is still
    represented, the lines of the addressed set are those the
    specification's access gives, and every node allocated afterwards is in
    the new chain or was allocated before, outside the old chain. *)
Lemma count_full E tg i d st cs (c : chain) :
  1 ≤ E ≤ INT_MAX → rep E st cs → 0 ≤ i → cs !! Z.to_nat i = Some c →
  ∃ st' c' q',
    count E tg i d st = Ok tt st' ∧
    rep E st' (<[Z.to_nat i := c']> cs) ∧
    cache st' = <[Z.to_nat i := q']> (cache st) ∧
    c'.*2 = Spec.access E tg d (c.*2) ∧
    counters_after E tg (c.*2) st st' ∧
    (∀ p, is_Some (heap st' !! p) →
          p ∈ c'.*1 ∨ ((p ∉ c.*1) ∧ is_Some (heap st !! p))).
Proof.
  intros HE Hrep Hi Hc.
  destruct (rep_lookup _ _ _ _ _ Hrep Hc) as (q & Hq & Hinv & Hnd & Hwf).
  assert (Hidx : index (cache st) i = Some q) by (by apply index_Some).
  assert (Hfuel : (length c ≤ size (heap st))%nat).
  { destruct Hinv as [Hseg _]. by eapply lseg_length. }
  unfold count. mstep read_set_Ok. mstep get_state_Ok.
  destruct Hinv as (Hseg & Hhd & Hrest). rewrite Hhd.
  unfold counters_after, Spec.evicted, Spec.access_outcome.
  destruct (Spec.find tg (c.*2)) as [[k l]|] eqn:Hfind.
  - (* hit *)
    pose proof Hfind as (s1 & s2 & Heq & _ & Hl & Hno)%find_Some_split.
    destruct (chain_split _ _ _ _ Heq) as (c1 & p & c2 & -> & <- & <-).
    destruct (search_hit tg i d q st [] c1 c2 p l (size (heap st)))
      as (st' & Hrun & Hup & Hcnt); simpl; try done.
    { by apply no_line_chain. }
    { rewrite length_app in Hfuel. simpl in Hfuel. lia. }
    mstep Hrun. simpl. pose proof Hup as (q' & Hcache & _).
    exists st', ((p, Spec.mark d l) :: c1 ++ c2), q'.
    split; [done|]. split; [|split; [done|split; [|split]]].
    + eapply updates_rep; try done.
      * rewrite fmap_cons. simpl. rewrite fmap_app in *. simpl in Hnd.
        by rewrite <-Permutation_middle in Hnd.
      * intros p' Hp'. left. rewrite fmap_app. simpl. rewrite fmap_cons, fmap_app in Hp'.
        simpl in Hp'. set_solver.
      * replace (((p, Spec.mark d l) :: c1 ++ c2).*2)
          with (Spec.access E tg d ((c1 ++ (p, l) :: c2).*2)).
        { apply access_wf; [lia|done]. }
        rewrite Heq, access_hit by done. by rewrite fmap_cons, fmap_app.
    + rewrite Heq, access_hit by done. by rewrite fmap_cons, fmap_app.
    + destruct Hcnt as (-> & -> & -> & -> & ->). done.
    + destruct Hup as (_ & _ & _ & Hframe). intros p' Hp'.
      destruct (decide (p' ∈ ((p, Spec.mark d l) :: c1 ++ c2).*1)) as [?|Hn];
        [by left|right].
      assert (p' ∉ (c1 ++ (p, l) :: c2).*1).
      { rewrite fmap_cons, fmap_app in Hn. rewrite fmap_app, fmap_cons.
        simpl in *. set_solver. }
      split; [done|]. by rewrite <-Hframe.
  - (* miss *)
    pose proof (find_None _ _ Hfind) as Hno.
    erewrite bind_Ok; [|eapply search_miss; [exact Hseg| |done]].
    2:{ by apply no_line_chain. }
    simpl.
    destruct (handle_miss_full E tg i d c q st)
      as (st' & Hrun & Hup & Hgone & Hcnt); try done.
    { destruct Hwf as (_ & _ & Hlen). by rewrite length_fmap in Hlen. }
    rewrite Hrun. pose proof Hup as (q' & Hcache & _).
    eexists st', _, q'. split; [done|].
    assert (Hremove : ∀ (b : bool), (if b then removelast c else c).*2
                       = if b then removelast (c.*2) else c.*2).
    { intros []; [|done]. destruct c as [|x c _] using rev_ind; [done|].
      rewrite fmap_app. simpl. by rewrite !removelast_last. }
    split; [|split; [done|split; [|split]]].
    + eapply updates_rep; try done.
      * rewrite fmap_cons. simpl. apply NoDup_cons. split.
        -- intros Hin. assert (Hin' : fresh (dom (heap st)) ∈ c.*1).
           { case_bool_decide; [|done].
             destruct c as [|x c _] using rev_ind; [done|].
             rewrite removelast_last in Hin. rewrite fmap_app. set_solver. }
           destruct (lseg_lookup _ _ _ _ _ Hseg Hin') as [? Hsome].
           pose proof (is_fresh (dom (heap st))) as Hfr.
           apply not_elem_of_dom in Hfr. congruence.
        -- case_bool_decide; [|done].
           destruct c as [|x c _] using rev_ind; [done|].
           rewrite removelast_last. rewrite fmap_app in Hnd.
           by apply NoDup_app in Hnd as [? _].
      * intros p [->|Hp]%elem_of_cons.
        -- right. apply not_elem_of_dom, is_fresh.
        -- left. case_bool_decide; [|done].
           destruct c as [|x c _] using rev_ind; [done|].
           rewrite removelast_last in Hp. rewrite fmap_app. set_solver.
      * rewrite fmap_cons, Hremove. simpl.
        rewrite <-(length_fmap snd c), <-access_miss by done.
        apply access_wf; [lia|done].
    + rewrite fmap_cons, Hremove. simpl.
      by rewrite <-(length_fmap snd c), <-access_miss.
    + rewrite length_fmap.
      destruct Hcnt as (-> & -> & -> & -> & ->).
      case_bool_decide; simpl; [|done].
      split; [done|]. split; [done|]. split; [done|]. split; [|done].
      destruct (last (c.*2)); done.
    + destruct Hup as (_ & _ & _ & Hframe). intros p' Hp'.
      match goal with
      | |- _ ∈ ?l ∨ _ => destruct (decide (p' ∈ l)) as [?|Hn]; [by left|right]
      end.
      rewrite fmap_cons in Hn. apply not_elem_of_cons in Hn as [Hne Hn].
      destruct (decide (p' ∈ c.*1)) as [Hin|Hnin].
      * rewrite (Hgone p' Hin Hn) in Hp'. by destruct Hp'.
      * split; [done|]. rewrite <-Hframe; [done|done|].
        rewrite fmap_cons. by apply not_elem_of_cons.
Qed.

Lemma count_spec E tg i d st cs (c : chain) :
  1 ≤ E ≤ INT_MAX → rep E st cs → 0 ≤ i → cs !! Z.to_nat i = Some c →
  ∃ st' c' q',
    count E tg i d st = Ok tt st' ∧
    rep E st' (<[Z.to_nat i := c']> cs) ∧
    cache st' = <[Z.to_nat i := q']> (cache st) ∧
    c'.*2 = Spec.access E tg d (c.*2) ∧
    counters_after E tg (c.*2) st st'.
Proof.
  intros HE Hrep Hi Hc.
  destruct (count_full E tg i d st cs c HE Hrep Hi Hc)
    as (st' & c' & q' & Hrun & Hrep' & Hcache & Hacc & Hcnt & _).
  by exists st', c', q'.
Qed.

(** ** Reachable states *)

Lemma init_rep E nS : 0 ≤ E → rep E (init_state nS) (replicate (Z.to_nat nS) []).
Proof.
  intros HE. split; [|split; [split|]]; simpl.
  - apply Forall2_replicate. by repeat split.
  - intros i c [-> _]%lookup_replicate. constructor.
  - intros i j ci cj p [-> _]%lookup_replicate _ _ Hp. by apply elem_of_nil in Hp.
  - apply Forall_replicate. repeat split; simpl; [constructor|constructor|lia].
Qed.

Lemma rep_length E st cs : rep E st cs → length cs = length (cache st).
Proof. intros (Hsets & _). symmetry. by eapply Forall2_length. Qed.

Lemma count_Ok_index E tg i d st st' :
  count E tg i d st = Ok tt st' → is_Some (index (cache st) i).
Proof.
  unfold count, mbind, M_bind, read_set.
  destruct (index (cache st) i); [eauto|done].
Qed.

Lemma resident_rep E st cs i :
  rep E st cs →
  resident st i = from_option (fmap snd) [] (cs !! i).
Proof.
  intros Hrep. unfold resident.
  destruct (cs !! i) as [c|] eqn:Hc; simpl.
  - destruct (rep_lookup _ _ _ _ _ Hrep Hc) as (q & -> & (Hseg & -> & _) & Hnd & _).
    eapply queue_lines_lseg; [|done]. by eapply lseg_length.
  - apply lookup_ge_None in Hc. rewrite (rep_length _ _ _ Hrep) in Hc.
    apply lookup_ge_None in Hc. by rewrite Hc.
Qed.

Lemma find_other tg s :
  Forall (λ l, tag l ≠ tg) s → Spec.find tg s = None.
Proof.
  intros H. apply list_find_None. eapply Forall_impl; [done|].
  intros l Hl [_ ?]. done.
Qed.

Lemma mark_dirty d l : dirty_bit l = 1 → Spec.mark d l = l.
Proof.
  unfold Spec.mark, set_dirty_bit. intros Hd. destruct l as [v db tg].
  simpl in *. subst. by destruct (d =? 1).
Qed.

Lemma shl_int_1 b : 0 ≤ b ≤ 30 → shl_int 1 b = Some (2 ^ b).
Proof.
  intros Hb. unfold shl_int. rewrite bool_decide_eq_true_2 by lia.
  rewrite Z.shiftl_1_l. f_equal. apply wrap_int_id.
  assert (2 ^ b ≤ 2 ^ 30) by (apply Z.pow_le_mono_r; lia).
  unfold INT_MAX. lia.
Qed.

Lemma report_dirty_evictions b st :
  0 ≤ b ≤ 30 → 0 ≤ dirty_eviction st → dirty_eviction st * 2 ^ b ≤ INT_MAX →
  dirty_evictions <$> report b st = Some (dirty_eviction st * 2 ^ b).
Proof.
  intros Hb H0 Hmax. unfold report, write_stats. rewrite shl_int_1 by done.
  simpl. f_equal. rewrite wrap_int_id by (unfold INT_MAX in *; lia).
  unfold wrap_ulong. apply Z.mod_small. unfold INT_MAX in *. lia.
Qed.

(** The states that calls of [count] reach from the initial memory, for an
    associativity [E] that is a positive [int]. *)
Section Reachable.

Variables E nS : Z.
Hypothesis HE : 1 ≤ E ≤ INT_MAX.

Lemma reachable_rep st :
  reachable E nS st →
  ∃ cs, rep E st cs ∧ length (cache st) = Z.to_nat nS.
Proof.
  induction 1 as [|st tg i d st' _ (cs & Hrep & Hlen) Hrun].
  - eexists. split; [apply init_rep; lia|]. simpl. by rewrite length_replicate.
  - destruct (count_Ok_index _ _ _ _ _ _ Hrun) as [q [Hi Hq]%index_Some].
    destruct (Forall2_lookup_l _ _ _ _ _ (proj1 Hrep) Hq) as (c & Hc & _).
    destruct (count_spec E tg i d st cs c HE Hrep Hi Hc)
      as (st'' & c' & q' & Hrun' & Hrep' & Hcache & _).
    rewrite Hrun in Hrun'. simplify_eq. eexists. split; [done|].
    by rewrite Hcache, length_insert.
Qed.

(** [count] carries out the access of the specification on the addressed set
    and leaves the other sets alone. *)
Lemma count_rep_refines tg i d st cs :
  rep E st cs →
  0 ≤ i < Z.of_nat (length (cache st)) →
  ∃ st' cs',
    count E tg i d st = Ok tt st' ∧ rep E st' cs' ∧
    length (cache st') = length (cache st) ∧
    resident st' (Z.to_nat i) = Spec.access E tg d (resident st (Z.to_nat i)) ∧
    (∀ j, j ≠ Z.to_nat i →
       resident st' j = resident st j ∧ cache st' !! j = cache st !! j) ∧
    counters_after E tg (resident st (Z.to_nat i)) st st'.
Proof.
  intros Hrep [Hi Hlt].
  destruct (lookup_lt_is_Some_2 cs (Z.to_nat i)) as [c Hc].
  { rewrite (rep_length _ _ _ Hrep). lia. }
  destruct (count_spec E tg i d st cs c HE Hrep Hi Hc)
    as (st' & c' & q' & Hrun & Hrep' & Hcache & Hacc & Hcnt).
  exists st', (<[Z.to_nat i := c']> cs). split; [done|]. split; [done|].
  rewrite (resident_rep _ _ _ _ Hrep), Hc. simpl.
  split; [by rewrite Hcache, length_insert|]. split; [|split; [|done]].
  - rewrite (resident_rep _ _ _ _ Hrep').
    rewrite list_lookup_insert_eq by (by eapply lookup_lt_Some). done.
  - intros j Hj. rewrite (resident_rep _ _ _ _ Hrep'), (resident_rep _ _ _ _ Hrep).
    rewrite Hcache, !list_lookup_insert_ne by done. done.
Qed.

Lemma count_refines tg i d st :
  reachable E nS st → 0 ≤ i < nS →
  ∃ st',
    count E tg i d st = Ok tt st' ∧
    resident st' (Z.to_nat i) = Spec.access E tg d (resident st (Z.to_nat i)) ∧
    (∀ j, j ≠ Z.to_nat i →
       resident st' j = resident st j ∧ cache st' !! j = cache st !! j) ∧
    counters_after E tg (resident st (Z.to_nat i)) st st'.
Proof.
  intros Hreach Hi.
  destruct (reachable_rep _ Hreach) as (cs & Hrep & Hlen).
  destruct (count_rep_refines tg i d st cs Hrep) as (st' & cs' & ? & _ & _ & ?).
  { lia. }
  eauto.
Qed.

Lemma reachable_wf st i :
  reachable E nS st → wf_lines E (resident st i).
Proof.
  intros Hreach.
  destruct (reachable_rep _ Hreach) as (cs & Hrep & Hlen).
  rewrite (resident_rep _ _ _ _ Hrep).
  destruct (cs !! i) as [c|] eqn:Hc; simpl.
  - by destruct (rep_lookup _ _ _ _ _ Hrep Hc) as (q & _ & _ & _ & Hwf).
  - repeat split; simpl; [constructor|constructor|lia].
Qed.

Lemma reachable_curr_line_num st i q :
  reachable E nS st → cache st !! i = Some q →
  curr_line_num q = Z.of_nat (length (resident st i)).
Proof.
  intros Hreach Hq.
  destruct (reachable_rep _ Hreach) as (cs & Hrep & Hlen).
  rewrite (resident_rep _ _ _ _ Hrep).
  destruct (Forall2_lookup_l _ _ _ _ _ (proj1 Hrep) Hq) as (c & Hc & Hinv).
  rewrite Hc. simpl. rewrite length_fmap. by destruct Hinv as (_ & _ & _ & ?).
Qed.

(** * Properties of the simulator *)

(** C2 (capacity invariant): in every state the cache goes through, for any
    associativity [1 <= E <= INT_MAX], every set holds at most [E] lines,
    both as counted by [curr_line_num] and as found by walking its queue; and
    every access to a set of the cache completes. *)
Theorem capacity_invariant st :
  reachable E nS st →
  (∀ i q, cache st !! i = Some q →
     curr_line_num q = Z.of_nat (length (resident st i)) ∧
     Z.of_nat (length (resident st i)) ≤ E) ∧
  (∀ tg i d, 0 ≤ i < nS → ∃ st', count E tg i d st = Ok tt st').
Proof.
  intros Hreach. split.
  - intros i q Hq. split.
    + by eapply reachable_curr_line_num.
    + by destruct (reachable_wf st i Hreach) as (_ & _ & ?).
  - intros tg i d Hi.
    destruct (count_refines tg i d st Hreach Hi) as (st' & ? & _).
    eauto.
Qed.

(** C8 (uniqueness invariant): in every state the cache goes through
    ([1 <= E <= INT_MAX]), two valid lines of one set that carry the same tag
    are the same line. *)
Theorem uniqueness_invariant st i j k l1 l2 :
  reachable E nS st →
  resident st i !! j = Some l1 → resident st i !! k = Some l2 →
  valid_bit l1 ≠ 0 → valid_bit l2 ≠ 0 →
  tag l1 = tag l2 → j = k.
Proof.
  intros Hreach Hj Hk _ _ Htag.
  destruct (reachable_wf st i Hreach) as (_ & Hnd & _).
  eapply NoDup_lookup; [exact Hnd| |].
  - rewrite list_lookup_fmap, Hj. done.
  - rewrite list_lookup_fmap, Hk. simpl. by rewrite Htag.
Qed.

(** C10 (frame): in every state the cache goes through
    ([1 <= E <= INT_MAX]), an access to set [i] leaves every other set as it
    was (its record in the array and the ordered list of its lines with their
    dirty bits); and when the access hits, no set, [i] included, changes its
    number of lines. *)
Theorem count_frame st tg i d :
  reachable E nS st → 0 ≤ i < nS →
  ∃ st', count E tg i d st = Ok tt st' ∧
    (∀ j, j ≠ Z.to_nat i →
       cache st' !! j = cache st !! j ∧ resident st' j = resident st j) ∧
    ((∃ l, l ∈ resident st (Z.to_nat i) ∧ Spec.is_line tg l) →
       hit st' = wrap_int (hit st + 1) ∧ miss st' = miss st ∧
       ∀ j, length (resident st' j) = length (resident st j) ∧
            curr_line_num <$> cache st' !! j = curr_line_num <$> cache st !! j).
Proof.
  intros Hreach Hi.
  destruct (count_refines tg i d st Hreach Hi)
    as (st' & Hrun & Hacc & Hother & Hcnt).
  exists st'. split; [done|]. split; [intros j Hj; by destruct (Hother j Hj)|].
  intros (l & Hin & Hl).
  destruct (Spec.find tg (resident st (Z.to_nat i))) as [[k l']|] eqn:Hfind.
  2:{ apply find_None in Hfind.
      by destruct (proj1 (Forall_forall _ _) Hfind l Hin). }
  unfold counters_after, Spec.access_outcome in Hcnt. rewrite Hfind in Hcnt.
  destruct Hcnt as (Hhit & Hmiss & _). split; [done|]. split; [done|].
  assert (Hreach' : reachable E nS st') by (by eapply reachable_count).
  assert (Hlen : ∀ j, length (resident st' j) = length (resident st j)).
  { intros j. destruct (decide (j = Z.to_nat i)) as [->|Hj].
    - rewrite Hacc. by eapply access_length_hit.
    - by destruct (Hother j Hj) as [-> _]. }
  intros j. split; [done|].
  destruct (reachable_rep _ Hreach) as (_ & _ & Hl1).
  destruct (reachable_rep _ Hreach') as (_ & _ & Hl2).
  destruct (cache st !! j) as [q|] eqn:Hq.
  - destruct (lookup_lt_is_Some_2 (cache st') j) as [q' Hq'].
    { rewrite Hl2, <-Hl1. by eapply lookup_lt_Some. }
    rewrite Hq'. simpl. f_equal.
    rewrite (reachable_curr_line_num st j q), (reachable_curr_line_num st' j q')
      by done. by rewrite Hlen.
  - apply lookup_ge_None in Hq. rewrite Hl1, <-Hl2 in Hq.
    apply lookup_ge_None in Hq. by rewrite Hq.
Qed.

(** X15 (dirty propagation): in every state the cache goes through
    ([1 <= E <= INT_MAX]), a Store that hits a line sets its dirty bit; a line
    whose dirty bit is set keeps it through every access that does not evict
    the line, in particular through a Load that hits it; and the
    eviction of a dirty line adds one to [dirty_eviction], so that the
    reported dirty-eviction bytes grow by exactly [2^b] as long as
    [0 <= b <= 30] and the product [dirty_eviction * 2^b], which line 248
    computes in [int], stays within [INT_MAX]. *)
Theorem dirty_propagation b st i :
  reachable E nS st → 0 ≤ i < nS →
  (∀ tg k l, Spec.find tg (resident st (Z.to_nat i)) = Some (k, l) →
     ∃ st', count E tg i 1 st = Ok tt st' ∧
            resident st' (Z.to_nat i) !! 0%nat = Some (set_dirty_bit 1 l)) ∧
  (∀ tg k l, Spec.find tg (resident st (Z.to_nat i)) = Some (k, l) →
     dirty_bit l = 1 →
     ∃ st', count E tg i 0 st = Ok tt st' ∧
            resident st' (Z.to_nat i) !! 0%nat = Some l) ∧
  (∀ tg j d st' l, count E tg j d st = Ok tt st' →
     l ∈ resident st (Z.to_nat i) → dirty_bit l = 1 →
     l ∈ resident st' (Z.to_nat i) ∨
     (j = i ∧ Spec.evicted E tg (resident st (Z.to_nat i)) = Some l)) ∧
  (∀ tg d l, Spec.evicted E tg (resident st (Z.to_nat i)) = Some l →
     dirty_bit l = 1 →
     ∃ st', count E tg i d st = Ok tt st' ∧
            (l ∉ resident st' (Z.to_nat i)) ∧
            dirty_eviction st' = wrap_int (dirty_eviction st + 1) ∧
            (0 ≤ b ≤ 30 → 0 ≤ dirty_eviction st →
             (dirty_eviction st + 1) * 2 ^ b ≤ INT_MAX →
             ∃ r r', dirty_evictions <$> report b st = Some r ∧
                     dirty_evictions <$> report b st' = Some r' ∧
                     r' = r + 2 ^ b)).
Proof.
  intros Hreach Hi. split; [|split; [|split]].
  - intros tg k l Hfind.
    destruct (count_refines tg i 1 st Hreach Hi) as (st' & Hrun & Hacc & _).
    exists st'. split; [done|]. rewrite Hacc.
    apply find_Some_split in Hfind as (s1 & s2 & -> & _ & Hl & Hno).
    by rewrite access_hit.
  - intros tg k l Hfind Hd.
    destruct (count_refines tg i 0 st Hreach Hi) as (st' & Hrun & Hacc & _).
    exists st'. split; [done|]. rewrite Hacc.
    apply find_Some_split in Hfind as (s1 & s2 & -> & _ & Hl & Hno).
    by rewrite access_hit.
  - intros tg j d st' l Hrun Hin Hd.
    destruct (count_Ok_index _ _ _ _ _ _ Hrun) as [q [Hj Hq]%index_Some].
    destruct (reachable_rep _ Hreach) as (_ & _ & Hlen).
    assert (Hj' : 0 ≤ j < nS) by (apply lookup_lt_Some in Hq; lia).
    destruct (count_refines tg j d st Hreach Hj')
      as (st'' & Hrun' & Hacc & Hother & _).
    rewrite Hrun in Hrun'. simplify_eq.
    destruct (decide (Z.to_nat i = Z.to_nat j)) as [Heq|Hne].
    2:{ left. by destruct (Hother _ Hne) as [-> _]. }
    assert (i = j) as <- by lia. clear Heq.
    rewrite Hacc. unfold Spec.evicted, Spec.access_outcome.
    destruct (Spec.find tg (resident st (Z.to_nat i))) as [[k l0]|] eqn:Hfind.
    + left. apply find_Some_split in Hfind as (s1 & s2 & Heq & _ & Hl & Hno).
      rewrite Heq in Hin |- *. rewrite access_hit by done.
      destruct (decide (l = l0)) as [<-|Hne].
      * rewrite mark_dirty by done. set_solver.
      * set_solver.
    + rewrite access_miss by done. case_bool_decide; [|left; set_solver].
      destruct (resident st (Z.to_nat i)) as [|x s _] using rev_ind.
      { by apply elem_of_nil in Hin. }
      rewrite removelast_last, last_snoc.
      apply elem_of_app in Hin as [Hin|Hin]; [left; set_solver|].
      right. split; [done|]. f_equal. set_solver.
  - intros tg d l Hev Hd.
    destruct (count_refines tg i d st Hreach Hi)
      as (st' & Hrun & Hacc & _ & Hcnt).
    exists st'. split; [done|].
    destruct Hcnt as (_ & _ & _ & Hde & _). rewrite Hev in Hde. simpl in Hde.
    unfold is_dirty in Hde. rewrite Hd in Hde. simpl in Hde.
    split; [|split; [done|]].
    + (* the evicted line is gone *)
      destruct (reachable_wf st (Z.to_nat i) Hreach) as (Hval & Hnd & _).
      rewrite Hacc. unfold Spec.evicted, Spec.access_outcome in Hev.
      destruct (Spec.find tg (resident st (Z.to_nat i))) eqn:Hfind; [done|].
      rewrite access_miss by done.
      case_bool_decide; [|done].
      destruct (resident st (Z.to_nat i)) as [|x s _] using rev_ind; [done|].
      rewrite last_snoc in Hev. simplify_eq. rewrite removelast_last.
      apply find_None in Hfind. apply Forall_app in Hfind as [_ [Hl _]%Forall_cons].
      apply Forall_app in Hval as [_ [Hvl _]%Forall_cons].
      rewrite fmap_app in Hnd. apply NoDup_app in Hnd as (_ & Hdisj & _).
      intros [->|Hin]%elem_of_cons.
      * apply Hl. split; simpl; done.
      * apply (Hdisj (tag l)); [by apply list_elem_of_fmap_2|]. simpl. set_solver.
    + intros Hb H0 Hmax.
      assert (Hw : wrap_int (dirty_eviction st + 1) = dirty_eviction st + 1).
      { apply wrap_int_id. assert (0 < 2 ^ b) by (apply Z.pow_pos_nonneg; lia).
        unfold INT_MAX in *. nia. }
      exists (dirty_eviction st * 2 ^ b), ((dirty_eviction st + 1) * 2 ^ b).
      split; [|split; [|lia]].
      * apply report_dirty_evictions; [done..|].
        assert (0 < 2 ^ b) by (apply Z.pow_pos_nonneg; lia). nia.
      * rewrite <-Hw, <-Hde. apply report_dirty_evictions; [done| |];
          rewrite Hde, Hw; lia.
Qed.

End Reachable.

(** C3 (LRU order): with [E = 2], the accesses A, B, A, C to an empty set,
    for three distinct tags, leave the set holding C and A: the miss on C
    evicts the line of B, since the hit on A made A the most recently used. *)
Theorem lru_evicts_least_recent nS st i A B C dA dB dA' dC :
  reachable 2 nS st → 0 ≤ i < nS →
  resident st (Z.to_nat i) = [] →
  A ≠ B → A ≠ C → B ≠ C →
  ∃ st1 st2 st3 st4,
    count 2 A i dA st = Ok tt st1 ∧
    count 2 B i dB st1 = Ok tt st2 ∧
    count 2 A i dA' st2 = Ok tt st3 ∧
    count 2 C i dC st3 = Ok tt st4 ∧
    tag <$> resident st2 (Z.to_nat i) = [B; A] ∧
    tag <$> resident st3 (Z.to_nat i) = [A; B] ∧
    hit st3 = wrap_int (hit st2 + 1) ∧
    tag <$> Spec.evicted 2 C (resident st3 (Z.to_nat i)) = Some B ∧
    miss st4 = wrap_int (miss st3 + 1) ∧
    eviction st4 = wrap_int (eviction st3 + 1) ∧
    tag <$> resident st4 (Z.to_nat i) = [C; A].
Proof.
  intros Hreach Hi Hempty HAB HAC HBC.
  assert (HE : 1 ≤ 2 ≤ INT_MAX) by (unfold INT_MAX; lia).
  destruct (count_refines 2 nS HE A i dA st Hreach Hi)
    as (st1 & Hrun1 & Hacc1 & _ & _).
  assert (Hreach1 : reachable 2 nS st1) by (by eapply reachable_count).
  rewrite Hempty in Hacc1. rewrite access_miss in Hacc1 by done.
  simpl in Hacc1.
  destruct (count_refines 2 nS HE B i dB st1 Hreach1 Hi)
    as (st2 & Hrun2 & Hacc2 & _ & _).
  assert (Hreach2 : reachable 2 nS st2) by (by eapply reachable_count).
  rewrite Hacc1 in Hacc2. rewrite access_miss in Hacc2
    by (apply find_other; repeat constructor; done).
  simpl in Hacc2.
  destruct (count_refines 2 nS HE A i dA' st2 Hreach2 Hi)
    as (st3 & Hrun3 & Hacc3 & _ & Hcnt3).
  assert (Hreach3 : reachable 2 nS st3) by (by eapply reachable_count).
  rewrite Hacc2 in Hacc3, Hcnt3.
  assert (HfindA : Spec.find A [CacheLine 1 dB B; CacheLine 1 dA A]
                   = Some (1%nat, CacheLine 1 dA A)).
  { apply (find_split A [CacheLine 1 dB B] (CacheLine 1 dA A) []).
    - repeat constructor. intros [_ ?]. simpl in *. congruence.
    - done. }
  assert (HaccA : Spec.access 2 A dA' [CacheLine 1 dB B; CacheLine 1 dA A]
                  = [Spec.mark dA' (CacheLine 1 dA A); CacheLine 1 dB B]).
  { apply (access_hit 2 A dA' [CacheLine 1 dB B] (CacheLine 1 dA A) []).
    - repeat constructor. intros [_ ?]. simpl in *. congruence.
    - done. }
  rewrite HaccA in Hacc3.
  unfold counters_after, Spec.access_outcome in Hcnt3. rewrite HfindA in Hcnt3.
  destruct Hcnt3 as (Hhit3 & _).
  destruct (count_refines 2 nS HE C i dC st3 Hreach3 Hi)
    as (st4 & Hrun4 & Hacc4 & _ & Hcnt4).
  rewrite Hacc3 in Hacc4, Hcnt4.
  assert (HfindC : Spec.find C [Spec.mark dA' (CacheLine 1 dA A); CacheLine 1 dB B]
                   = None).
  { apply find_other. repeat constructor; [by rewrite mark_tag|done]. }
  rewrite access_miss in Hacc4 by done. simpl in Hacc4.
  unfold counters_after, Spec.evicted, Spec.access_outcome in Hcnt4.
  rewrite HfindC in Hcnt4. simpl in Hcnt4.
  destruct Hcnt4 as (_ & Hmiss4 & Hev4 & _).
  exists st1, st2, st3, st4.
  rewrite Hacc2, Hacc3, Hacc4.
  unfold Spec.evicted, Spec.access_outcome. rewrite HfindC. simpl.
  rewrite mark_tag. simpl. done.
Qed.



(** ** The address decoder *)

Lemma decode_tag_in_range s b a :
  0 ≤ s + b ≤ 63 → decode_tag s b a = Some (a ≫ (s + b)).
Proof.
  intros H. unfold decode_tag, shr_ulong.
  rewrite wrap_int_id by (unfold INT_MAX; lia).
  by rewrite bool_decide_eq_true_2 by lia.
Qed.

(** Shifting left by [t] and right by [b + t] keeps the [s] bits above the
    block offset. *)
Lemma shift_pair_mask a s b :
  0 ≤ s → 0 ≤ b → s + b ≤ 64 →
  ((a ≪ (64 - (s + b))) `mod` 2 ^ 64) ≫ (b + (64 - (s + b)))
  = Z.land (a ≫ b) (2 ^ s - 1).
Proof.
  intros Hs Hb Hsb. apply Z.bits_inj'. intros n Hn.
  rewrite Z.shiftr_spec by lia.
  replace (2 ^ s - 1) with (Z.ones s) by (rewrite Z.ones_equiv; lia).
  rewrite Z.land_spec, Z.shiftr_spec by lia.
  destruct (decide (n < s)) as [Hlt|Hge].
  - rewrite Z.mod_pow2_bits_low by lia.
    rewrite Z.shiftl_spec by lia. rewrite Z.ones_spec_low by lia.
    rewrite andb_true_r. f_equal. lia.
  - rewrite Z.mod_pow2_bits_high by lia.
    rewrite Z.ones_spec_high by lia. by rewrite andb_false_r.
Qed.

Lemma decode_set_in_range s b a :
  1 ≤ s → 0 ≤ b → s + b ≤ 63 →
  decode_set s b a = Some (Z.land (a ≫ b) (2 ^ s - 1)).
Proof.
  intros Hs Hb Hsb. unfold decode_set, shl_ulong, shr_ulong, ADDRESS_BITS.
  rewrite (wrap_int_id (s + b)) by (unfold INT_MAX; lia).
  rewrite (wrap_int_id (64 - (s + b))) by (unfold INT_MAX; lia).
  rewrite (wrap_int_id (b + _)) by (unfold INT_MAX; lia).
  destruct (Z.eqb_spec (64 - (s + b)) 64) as [?|_]; [lia|].
  rewrite bool_decide_eq_true_2 by lia. simpl.
  rewrite bool_decide_eq_true_2 by lia. simpl.
  unfold wrap_ulong. f_equal. apply shift_pair_mask; lia.
Qed.

Lemma decode_zero_geometry a :
  decode_tag 0 0 a = Some a ∧ decode_set 0 0 a = Some 0.
Proof.
  split; [|reflexivity].
  change (decode_tag 0 0 a) with (Some (a ≫ 0)). by rewrite Z.shiftr_0_r.
Qed.

(** Without set-index bits and with a block offset, the set index is the
    result of a right shift by 64, whatever the address. *)
Lemma decode_set_no_index_bits_any b a :
  1 ≤ b ≤ 64 →
  decode_shift_counts 0 b = [b; 64 - b; 64] ∧ decode_set 0 b a = None.
Proof.
  intros Hb. unfold decode_shift_counts, decode_set, shl_ulong, shr_ulong.
  unfold ADDRESS_BITS. rewrite (Z.add_0_l b).
  rewrite (wrap_int_id b) by (unfold INT_MAX; lia).
  rewrite (wrap_int_id (64 - b)) by (unfold INT_MAX; lia).
  replace (b + (64 - b)) with 64 by lia.
  split; [done|].
  destruct (Z.eqb_spec (64 - b) 64) as [?|_]; [lia|].
  rewrite (bool_decide_eq_true_2 (0 ≤ 64 - b < 64)) by lia. done.
Qed.

(** C1: for set-index bits [s = 0] and block-offset bits [b = 4] the set
    index of address [0x1f] is the result of a right shift by 64, which has
    no value, where the mask formula gives 0; the tag is the expected
    [a >> (s + b)]. *)
Theorem decode_set_no_index_bits :
  decode_tag 0 4 0x1f = Some (0x1f ≫ (0 + 4)) ∧
  decode_set 0 4 0x1f = None ∧
  Z.land (0x1f ≫ 4) ((1 ≪ 0) - 1) = 0.
Proof. done. Qed.

(** C4: for [s = 0] and [b = 4] the decoder evaluates a shift by 64, the set
    index is not forced to 0, and the first Load of the trace cannot be
    carried out. *)
Theorem decode_shifts_by_64 :
  decode_shift_counts 0 4 = [4; 60; 64] ∧
  decode_set 0 4 0x1f = None ∧
  step 0 1 4 (TraceRecord "L" 0x1f 1) (init_state 1) = Fault (init_state 1).
Proof. done. Qed.

(** ** The trace loop *)

Lemma step_skip s E b r st :
  is_access r = false → step s E b r st = Ok tt st.
Proof.
  unfold is_access, step. intros [H1 H2]%orb_false_elim.
  by rewrite H1, H2.
Qed.

(** C9: a record whose operation is neither ['L'] nor ['S'] is skipped: the
    step returns normally and the memory, counters included, is unchanged. *)
Theorem other_operation_ignored s E b r st :
  operation r ≠ "L"%char → operation r ≠ "S"%char →
  step s E b r st = Ok tt st.
Proof.
  intros HL HS. apply step_skip. unfold is_access.
  by rewrite !bool_decide_eq_false_2 by done.
Qed.

(** ** [free_cache] *)

Arguments free_queue : simpl nomatch.

Lemma wrap_int_range x : is_int (wrap_int x).
Proof.
  unfold is_int, wrap_int, INT_MAX.
  pose proof (Z.mod_pos_bound (x + 2 ^ 31) (2 ^ 32)). lia.
Qed.

Lemma count_dirty_app s1 s2 :
  count_dirty (s1 ++ s2) = count_dirty s1 + count_dirty s2.
Proof. unfold count_dirty. rewrite filter_app, length_app. lia. Qed.

Lemma count_dirty_cons l s :
  count_dirty (l :: s) = (if dirty_bit l =? 1 then 1 else 0) + count_dirty s.
Proof.
  unfold count_dirty. rewrite filter_cons.
  destruct (decide (is_dirty l = true)) as [H|H]; unfold is_dirty in H.
  - rewrite H. simpl length. lia.
  - destruct (dirty_bit l =? 1); [done|]. lia.
Qed.

Lemma free_queue_spec (c : chain) : ∀ fuel st pv,
  lseg (heap st) pv c None → NoDup (c.*1) → (length c ≤ fuel)%nat →
  is_int (dirty_count st) →
  ∃ st', free_queue fuel (first_ptr c None) st = Ok tt st' ∧
         cache st' = cache st ∧
         (∀ k, k ∉ c.*1 → heap st' !! k = heap st !! k) ∧
         (∀ k, k ∈ c.*1 → heap st' !! k = None) ∧
         hit st' = hit st ∧ miss st' = miss st ∧ eviction st' = eviction st ∧
         dirty_eviction st' = dirty_eviction st ∧
         dirty_count st' = wrap_int (dirty_count st + count_dirty (c.*2)).
Proof.
  induction c as [|[p l] c IH]; intros fuel st pv Hseg Hnd Hfuel Hint.
  - exists st. split; [by destruct fuel|]. split; [done|]. split; [done|].
    split; [by intros k ?%elem_of_nil|].
    repeat (split; [done|]). simpl. unfold count_dirty. simpl.
    rewrite Z.add_0_r. by rewrite wrap_int_id.
  - simpl in Hseg, Hnd, Hfuel. destruct Hseg as [Hp Hseg].
    apply NoDup_cons in Hnd as [Hpc Hnd].
    destruct fuel as [|fuel]; [lia|]. simpl.
    mstep read_node_Ok. simpl.
    destruct st as [h cs hi mi ev dc de]. simpl in *.
    assert (∃ dc',
      (if dirty_bit l =? 1
       then st ← get_state;
            put_state (with_dirty_count (wrap_int (dirty_count st + 1)) st)
       else mret tt) (State h cs hi mi ev dc de)
      = Ok tt (State h cs hi mi ev dc' de) ∧
      dc' = (if dirty_bit l =? 1 then wrap_int (dc + 1) else dc))
      as (dc' & Hrun & Hdc).
    { destruct (dirty_bit l =? 1); eexists; split; done. }
    mstep Hrun. clear Hrun.
    mstep free_node_Ok. simpl.
    destruct (IH fuel (State (delete p h) cs hi mi ev dc' de) (Some p))
      as (st' & Hrun & Hcache & Hframe & Hgone & Hhi & Hmi & Hev & Hde & Hcount);
      simpl; [by apply lseg_delete_ne|done|lia| |].
    { subst dc'. destruct (dirty_bit l =? 1); [apply wrap_int_range|done]. }
    exists st'. split; [done|]. simpl in *. split; [done|].
    split; [|split].
    + intros k Hk. apply not_elem_of_cons in Hk as [Hkp Hk].
      rewrite Hframe by done. by rewrite lookup_delete_ne.
    + intros k [->|Hk]%elem_of_cons; [|by apply Hgone].
      rewrite Hframe by done. by rewrite lookup_delete_eq.
    + repeat (split; [done|]). rewrite Hcount, count_dirty_cons, Hdc.
      destruct (dirty_bit l =? 1).
      * rewrite wrap_int_idemp. apply (f_equal wrap_int). unfold fmap. lia.
      * done.
Qed.

(** The loop of lines 161-174 frees the nodes of the sets from [k] on, and
    no other node. *)
Lemma free_sets_full (cs : list chain) : ∀ n k st,
  no_sharing cs → length (cache st) = length cs → (k + n = length cs)%nat →
  (∀ j q c, (k ≤ j)%nat → cache st !! j = Some q → cs !! j = Some c →
            set_inv (heap st) q c) →
  is_int (dirty_count st) →
  ∃ st', free_sets n (Z.of_nat k) st = Ok tt st' ∧
         cache st' = cache st ∧
         hit st' = hit st ∧ miss st' = miss st ∧ eviction st' = eviction st ∧
         dirty_eviction st' = dirty_eviction st ∧
         dirty_count st' =
           wrap_int (dirty_count st +
                     count_dirty (concat ((λ c : chain, c.*2) <$> drop k cs))) ∧
         (∀ p, (∀ j c, (k ≤ j)%nat → cs !! j = Some c → p ∉ c.*1) →
               heap st' !! p = heap st !! p) ∧
         (∀ j c p, (k ≤ j)%nat → cs !! j = Some c → p ∈ c.*1 →
                   heap st' !! p = None).
Proof.
  induction n as [|n IH]; intros k st Hsep Hlen Hk Hinv Hint.
  - exists st. split; [done|]. repeat (split; [done|]).
    split; [|split; [done|]].
    + rewrite drop_ge by lia. simpl. unfold count_dirty. simpl.
      rewrite Z.add_0_r. by rewrite wrap_int_id.
    + intros j c p Hj Hc. apply lookup_lt_Some in Hc. lia.
  - destruct (lookup_lt_is_Some_2 cs k) as [c Hc]; [lia|].
    destruct (lookup_lt_is_Some_2 (cache st) k) as [q Hq]; [lia|].
    pose proof (Hinv k q c (le_n _) Hq Hc) as (Hseg & Hhd & _).
    destruct Hsep as [Hnd Hdisj].
    simpl. mstep read_set_Ok;
      [|apply index_Some; split; [lia|by rewrite Nat2Z.id]].
    mstep get_state_Ok. rewrite Hhd.
    destruct (free_queue_spec c (size (heap st)) st None)
      as (st1 & Hrun & Hcache & Hframe & Hgone & Hhi & Hmi & Hev & Hde & Hcount);
      [done|by eapply Hnd|by eapply lseg_length; [eapply Hnd|]|done|].
    mstep Hrun.
    replace (Z.of_nat k + 1) with (Z.of_nat (S k)) by lia.
    destruct (IH (S k) st1)
      as (st' & Hrun' & Hcache' & Hhi' & Hmi' & Hev' & Hde' & Hcount' & Hframe' & Hgone');
      [done|by rewrite Hcache|lia| |by rewrite Hcount; apply wrap_int_range|].
    { intros j qj cj Hj Hqj Hcj. rewrite Hcache in Hqj.
      destruct (Hinv j qj cj) as (Hsegj & Hrest); [lia|done|done|].
      split; [|done]. eapply lseg_frame; [|done].
      intros p Hp. apply Hframe. intros Hin.
      eapply (Hdisj j k); [done|done|lia|done|done]. }
    exists st'. split; [done|].
    rewrite Hcache', Hhi', Hmi', Hev', Hde', Hcount', Hcount.
    repeat (split; [done|]). split; [|split].
    + rewrite (drop_S _ _ _ Hc). rewrite fmap_cons. simpl concat.
      rewrite count_dirty_app, wrap_int_idemp.
      apply (f_equal wrap_int). lia.
    + intros p Hp. rewrite Hframe'.
      * apply Hframe. by eapply Hp.
      * intros j cj Hj. apply Hp. lia.
    + intros j cj p Hj Hcj Hp. destruct (decide (j = k)) as [->|Hne].
      * assert (cj = c) as -> by congruence.
        rewrite Hframe'; [by apply Hgone|].
        intros j' c' Hj' Hc'. eapply (Hdisj k j'); [done|done|lia|done].
      * eapply Hgone'; [|done|done]. lia.
Qed.

Lemma free_sets_spec (cs : list chain) : ∀ n k st,
  no_sharing cs → length (cache st) = length cs → (k + n = length cs)%nat →
  (∀ j q c, (k ≤ j)%nat → cache st !! j = Some q → cs !! j = Some c →
            set_inv (heap st) q c) →
  is_int (dirty_count st) →
  ∃ st', free_sets n (Z.of_nat k) st = Ok tt st' ∧
         cache st' = cache st ∧
         hit st' = hit st ∧ miss st' = miss st ∧ eviction st' = eviction st ∧
         dirty_eviction st' = dirty_eviction st ∧
         dirty_count st' =
           wrap_int (dirty_count st +
                     count_dirty (concat ((λ c : chain, c.*2) <$> drop k cs))).
Proof.
  intros n k st Hsep Hlen Hk Hinv Hint.
  destruct (free_sets_full cs n k st Hsep Hlen Hk Hinv Hint)
    as (st' & Hrun & Hcache & Hhi & Hmi & Hev & Hde & Hcount & _).
  by exists st'.
Qed.

Lemma resident_chains E st cs :
  rep E st cs →
  resident st <$> seq 0 (length (cache st)) = (λ c : chain, c.*2) <$> cs.
Proof.
  intros Hrep. rewrite <-(rep_length _ _ _ Hrep).
  apply list_eq. intros j. rewrite !list_lookup_fmap.
  destruct (cs !! j) as [c|] eqn:Hc; simpl.
  - rewrite lookup_seq_lt by (by eapply lookup_lt_Some). simpl.
    by rewrite (resident_rep _ _ _ _ Hrep), Hc.
  - rewrite lookup_seq_ge; [done|]. by apply lookup_ge_None.
Qed.

Lemma free_cache_spec E nS st cs :
  rep E st cs → length (cache st) = Z.to_nat nS → is_int (dirty_count st) →
  ∃ st', free_cache nS st = Ok tt st' ∧
         hit st' = hit st ∧ miss st' = miss st ∧ eviction st' = eviction st ∧
         dirty_eviction st' = dirty_eviction st ∧
         dirty_count st' = wrap_int (dirty_count st + dirty_lines st).
Proof.
  intros Hrep Hlen Hint. pose proof Hrep as (Hsets & Hsep & _).
  destruct (free_sets_spec cs (Z.to_nat nS) 0 st)
    as (st' & Hrun & Hcache & Hhi & Hmi & Hev & Hde & Hcount); try done.
  { by rewrite (rep_length _ _ _ Hrep). }
  { rewrite (rep_length _ _ _ Hrep). lia. }
  { intros j q c _ Hq Hc.
    by destruct (Forall2_lookup_lr _ _ _ _ _ _ Hsets Hq Hc). }
  unfold free_cache. change 0 with (Z.of_nat 0). mstep Hrun.
  mstep get_state_Ok. eexists. split; [done|]. simpl.
  repeat (split; [done|]). rewrite Hcount. unfold dirty_lines.
  by rewrite (resident_chains _ _ _ Hrep).
Qed.

(** ** [main] *)

Lemma decodable_decode s b a :
  decodable s b →
  ∃ tg i, decode_tag s b a = Some tg ∧ decode_set s b a = Some i ∧
          0 ≤ i < 2 ^ s.
Proof.
  intros [(Hs & Hb & Hsb)|[-> ->]].
  - exists (a ≫ (s + b)), (Z.land (a ≫ b) (2 ^ s - 1)).
    split; [apply decode_tag_in_range; lia|].
    split; [apply decode_set_in_range; lia|].
    replace (2 ^ s - 1) with (Z.ones s) by (rewrite Z.ones_equiv; lia).
    rewrite Z.land_ones by lia.
    apply Z.mod_pos_bound. apply Z.pow_pos_nonneg; lia.
  - destruct (decode_zero_geometry a) as [-> ->]. exists a, 0. done.
Qed.

Lemma step_access s E b r :
  is_access r = true →
  ∃ d, step s E b r =
       call_count E (decode_tag s b (address r)) (decode_set s b (address r)) d.
Proof.
  unfold is_access, step. intros H.
  case_bool_decide; [by exists 0|]. case_bool_decide; [by exists 1|done].
Qed.

Lemma simulate_skip s E b trace st :
  Forall (λ r, is_access r = false) trace →
  simulate s E b trace st = Ok tt st.
Proof.
  induction 1 as [|r trace Hr _ IH]; [done|]. simpl.
  erewrite bind_Ok by by apply step_skip. done.
Qed.

Lemma simulate_app s E b t1 t2 st st1 :
  simulate s E b t1 st = Ok tt st1 →
  simulate s E b (t1 ++ t2) st = simulate s E b t2 st1.
Proof.
  revert st. induction t1 as [|r t1 IH]; intros st; simpl.
  - by intros [= ->].
  - unfold mbind, M_bind. destruct (step s E b r st) as [[] st'| |]; [|done..].
    apply IH.
Qed.

Lemma first_access trace :
  Exists (λ r, is_access r = true) trace →
  ∃ pre r post, trace = pre ++ r :: post ∧
                Forall (λ r, is_access r = false) pre ∧ is_access r = true.
Proof.
  induction 1 as [r trace Hr|r trace _ (pre & r' & post & -> & Hpre & Hr')].
  - by exists [], r, trace.
  - destruct (is_access r) eqn:Hr.
    + by exists [], r, (pre ++ r' :: post).
    + exists (r :: pre), r', post. split; [done|]. split; [|done].
      by constructor.
Qed.

(** The trace loop on a decodable geometry: every step completes, and the
    loop never touches [dirty_count]. *)
Lemma simulate_reachable s E b trace st :
  1 ≤ E ≤ INT_MAX → decodable s b → reachable E (2 ^ s) st →
  ∃ st', simulate s E b trace st = Ok tt st' ∧ reachable E (2 ^ s) st' ∧
         dirty_count st' = dirty_count st.
Proof.
  intros HE Hdec. revert st. induction trace as [|r trace IH]; intros st Hreach.
  - by exists st.
  - simpl. destruct (is_access r) eqn:Hr.
    + destruct (step_access s E b r Hr) as [d ->].
      destruct (decodable_decode s b (address r) Hdec) as (tg & i & -> & -> & Hi).
      simpl.
      destruct (count_refines E (2 ^ s) HE tg i d st Hreach Hi)
        as (st1 & Hrun & _ & _ & Hcnt).
      destruct (IH st1) as (st' & Hrun' & Hreach' & Hdc).
      { by eapply reachable_count. }
      mstep Hrun. exists st'. split; [done|]. split; [done|].
      destruct Hcnt as (_ & _ & _ & _ & Hdc1). by rewrite Hdc.
    + erewrite bind_Ok by by apply step_skip. by apply IH.
Qed.

Lemma main_unfold s E b trace nS :
  shl_int 1 s = Some nS →
  main s E b trace =
  (simulate s E b trace;; free_cache nS;; write_stats (shl_int 1 b))
    (init_state nS).
Proof. intros H. unfold main. by rewrite H. Qed.

(** X16 (dirty bytes): on a decodable geometry with [b <= 30] the trace loop
    leaves [dirty_count] at 0, [free_cache] then counts the resident dirty
    lines once, and the reported [dirty_bytes] is that number times [2^b]
    whenever the product, which line 249 computes in [int], stays within
    [INT_MAX]. *)
Theorem dirty_bytes_at_teardown s E b trace :
  1 ≤ E ≤ INT_MAX → decodable s b → 0 ≤ b ≤ 30 →
  ∃ st_end stats,
    simulate s E b trace (init_state (2 ^ s)) = Ok tt st_end ∧
    dirty_count st_end = 0 ∧
    stats_of (main s E b trace) = Some stats ∧
    dirty_count (final_state (main s E b trace)) = wrap_int (dirty_lines st_end) ∧
    (dirty_lines st_end * 2 ^ b ≤ INT_MAX →
     dirty_bytes stats = dirty_lines st_end * 2 ^ b).
Proof.
  intros HE Hdec Hb.
  assert (Hs : 0 ≤ s ≤ 30) by (destruct Hdec as [?|[-> ->]]; lia).
  destruct (simulate_reachable s E b trace (init_state (2 ^ s)) HE Hdec)
    as (st_end & Hsim & Hreach & Hdc); [constructor|].
  simpl in Hdc.
  destruct (reachable_rep _ _ HE _ Hreach) as (cs & Hrep & Hlen).
  destruct (free_cache_spec E (2 ^ s) st_end cs Hrep Hlen)
    as (st_f & Hfree & _ & _ & _ & _ & Hcount).
  { rewrite Hdc. unfold is_int, INT_MAX. lia. }
  rewrite Hdc, Z.add_0_l in Hcount.
  rewrite (main_unfold s E b trace (2 ^ s)) by (by apply shl_int_1).
  mstep Hsim. mstep Hfree. unfold write_stats. rewrite shl_int_1 by done.
  eexists st_end, _. split; [done|]. split; [done|]. simpl.
  split; [done|]. split; [done|]. intros Hmax. rewrite Hcount.
  assert (0 ≤ dirty_lines st_end) by (unfold dirty_lines, count_dirty; lia).
  assert (1 ≤ 2 ^ b) by (pose proof (Z.pow_pos_nonneg 2 b); lia).
  rewrite (wrap_int_id (dirty_lines st_end)) by (unfold INT_MAX in *; nia).
  rewrite wrap_int_id by (unfold INT_MAX in *; nia).
  unfold wrap_ulong. apply Z.mod_small. unfold INT_MAX in *. nia.
Qed.

(** ** Geometries outside the intended range *)

Arguments search : simpl nomatch.

(** With [E <= 0] an access to an empty set counts a miss and an eviction
    and then reads through the [NULL] tail. *)
Lemma count_nonpositive_E E tg i d st q :
  E ≤ 0 → index (cache st) i = Some q →
  head q = None → tail q = None → curr_line_num q = 0 →
  ∃ st', count E tg i d st = Fault st' ∧
         hit st' = hit st ∧ miss st' = wrap_int (miss st + 1) ∧
         eviction st' = wrap_int (eviction st + 1) ∧
         dirty_count st' = dirty_count st ∧
         dirty_eviction st' = dirty_eviction st.
Proof.
  intros HE Hq Hhd Htl Hnum.
  destruct st as [h cs hi mi ev dc de]. simpl in *.
  unfold count. mstep read_set_Ok. mstep get_state_Ok. rewrite Hhd.
  erewrite bind_Ok by (by destruct (size _)). simpl.
  unfold handle_miss.
  mstep get_state_Ok. mstep put_state_Ok. simpl.
  mstep malloc_node_Ok. simpl. mstep read_set_Ok.
  rewrite Hnum, bool_decide_eq_true_2 by done.
  eexists. split.
  - apply bind_Fault. unfold evict.
    mstep get_state_Ok. mstep put_state_Ok. simpl. mstep read_set_Ok.
    rewrite Htl. erewrite bind_Ok by apply ret_Ok. simpl.
    erewrite bind_Ok.
    2:{ mstep read_set_Ok. rewrite Hnum. simpl. apply ret_Ok. }
    apply bind_Fault. reflexivity.
  - done.
Qed.

Lemma init_state_index nS i :
  0 ≤ i < nS → index (cache (init_state nS)) i = Some empty_set.
Proof.
  intros Hi. apply index_Some. split; [lia|]. simpl.
  apply lookup_replicate. split; [done|lia].
Qed.

Lemma dirty_lines_init nS : dirty_lines (init_state nS) = 0.
Proof.
  unfold dirty_lines.
  rewrite (resident_chains 0 _ _ (init_rep 0 nS (Z.le_refl 0))).
  rewrite fmap_replicate. simpl.
  by induction (Z.to_nat nS) as [|n IH].
Qed.

Lemma free_cache_init nS :
  ∃ st', free_cache nS (init_state nS) = Ok tt st' ∧
         hit st' = 0 ∧ miss st' = 0 ∧ eviction st' = 0 ∧
         dirty_eviction st' = 0 ∧ dirty_count st' = 0.
Proof.
  destruct (free_cache_spec 0 nS (init_state nS) _ (init_rep 0 nS (Z.le_refl 0)))
    as (st' & Hrun & ? & ? & ? & ? & Hdc).
  { simpl. by rewrite length_replicate. }
  { simpl. unfold is_int, INT_MAX. lia. }
  exists st'. rewrite dirty_lines_init in Hdc. done.
Qed.

(** C5 (invalid geometry): [main] validates nothing.  With [E <= 0] on an
    otherwise decodable geometry, a trace without Load or Store ends normally
    with the all-zero report, and any other trace is simulated up to its
    first Load or Store, which counts a miss and an eviction and then faults
    on the empty set, so that no report is produced. *)
Theorem no_geometry_check s E b trace :
  E ≤ 0 → decodable s b → 0 ≤ b ≤ 30 →
  (Forall (λ r, is_access r = false) trace →
     stats_of (main s E b trace) = Some (CsimStats 0 0 0 0 0)) ∧
  (Exists (λ r, is_access r = true) trace →
     ∃ st, main s E b trace = Fault st ∧
           hit st = 0 ∧ miss st = 1 ∧ eviction st = 1 ∧
           dirty_count st = 0 ∧ dirty_eviction st = 0).
Proof.
  intros HE Hdec Hb.
  assert (Hs : 0 ≤ s ≤ 30) by (destruct Hdec as [?|[-> ->]]; lia).
  rewrite (main_unfold s E b trace (2 ^ s)) by (by apply shl_int_1).
  split.
  - intros Hskip. mstep simulate_skip.
    destruct (free_cache_init (2 ^ s)) as (st' & Hfree & Hhi & Hmi & Hev & Hde & Hdc).
    mstep Hfree. unfold write_stats. rewrite shl_int_1 by done. simpl.
    by rewrite Hhi, Hmi, Hev, Hde, Hdc.
  - intros (pre & r & post & -> & Hpre & Hr)%first_access.
    destruct (step_access s E b r Hr) as [d Hstep].
    destruct (decodable_decode s b (address r) Hdec) as (tg & i & Htg & Hi & Hrange).
    destruct (count_nonpositive_E E tg i d (init_state (2 ^ s)) empty_set)
      as (st & Hrun & Hcnt); [done|by apply init_state_index|done..|].
    exists st. split; [|done].
    apply bind_Fault.
    rewrite (simulate_app _ _ _ _ _ _ _ (simulate_skip s E b pre _ Hpre)).
    simpl. apply bind_Fault. by rewrite Hstep, Htg, Hi.
Qed.

(** With [s + b > 64] a shift whose count is out of range is evaluated in
    the set-up, in the decoder or in the report; the run has no result, and
    no counter has changed when it stops. *)
Lemma oversized_geometry_faults s E b trace :
  is_int s → is_int b → 64 < s + b →
  ∃ st, main s E b trace = Fault st ∧
        hit st = 0 ∧ miss st = 0 ∧ eviction st = 0 ∧
        dirty_count st = 0 ∧ dirty_eviction st = 0.
Proof.
  unfold is_int, INT_MAX. intros Hs Hb Hsb.
  destruct (shl_int 1 s) as [nS|] eqn:HS.
  2:{ exists (init_state 0). unfold main. by rewrite HS. }
  assert (Hs' : 0 ≤ s < 32).
  { destruct (decide (0 ≤ s < 32)) as [?|Hn]; [done|].
    unfold shl_int in HS. by rewrite bool_decide_eq_false_2 in HS. }
  assert (HB : shl_int 1 b = None).
  { unfold shl_int. rewrite bool_decide_eq_false_2; [done|lia]. }
  assert (Htag : ∀ a, decode_tag s b a = None).
  { intros a. unfold decode_tag, shr_ulong.
    rewrite bool_decide_eq_false_2; [done|].
    destruct (decide (s + b ≤ INT_MAX)) as [Hle|Hgt].
    - rewrite wrap_int_id by (unfold INT_MAX in *; lia). lia.
    - unfold wrap_int, INT_MAX in *.
      rewrite <-(Z_mod_plus_full _ (-1)).
      rewrite Z.mod_small by lia. lia. }
  rewrite (main_unfold s E b trace nS HS).
  destruct (decide (Exists (λ r, is_access r = true) trace)) as [Hex|Hnex].
  - apply first_access in Hex as (pre & r & post & -> & Hpre & Hr).
    destruct (step_access s E b r Hr) as [d Hstep].
    exists (init_state nS). split; [|done].
    apply bind_Fault.
    rewrite (simulate_app _ _ _ _ _ _ _ (simulate_skip s E b pre _ Hpre)).
    simpl. apply bind_Fault. by rewrite Hstep, Htag.
  - apply not_Exists_Forall in Hnex; [|intros r; apply _].
    mstep simulate_skip.
    2:{ eapply Forall_impl; [done|]. simpl. intros r Hr.
        by destruct (is_access r). }
    destruct (free_cache_init nS) as (st' & Hfree & Hcnt).
    mstep Hfree. exists st'. rewrite HB. split; [done|]. naive_solver.
Qed.

(** * Memory: every node is freed *)

Lemma init_tight nS : tight (init_state nS) (replicate (Z.to_nat nS) []).
Proof. intros p [n Hn]. simpl in Hn. by rewrite lookup_empty in Hn. Qed.

Lemma reachable_tight E nS st :
  1 ≤ E ≤ INT_MAX → reachable E nS st →
  ∃ cs, rep E st cs ∧ tight st cs ∧ length (cache st) = Z.to_nat nS.
Proof.
  intros HE. induction 1 as [|st tg i d st' _ (cs & Hrep & Htight & Hlen) Hrun].
  - eexists. split; [apply init_rep; lia|]. split; [apply init_tight|].
    simpl. by rewrite length_replicate.
  - destruct (count_Ok_index _ _ _ _ _ _ Hrun) as [q [Hi Hq]%index_Some].
    destruct (Forall2_lookup_l _ _ _ _ _ (proj1 Hrep) Hq) as (c & Hc & _).
    destruct (count_full E tg i d st cs c HE Hrep Hi Hc)
      as (st'' & c' & q' & Hrun' & Hrep' & Hcache & _ & _ & Halloc).
    rewrite Hrun in Hrun'. simplify_eq.
    exists (<[Z.to_nat i := c']> cs). split; [done|].
    split; [|by rewrite Hcache, length_insert].
    intros p Hp. destruct (Halloc p Hp) as [Hin|[Hnin Hold]].
    + exists (Z.to_nat i), c'. split; [|done].
      apply list_lookup_insert_eq. by eapply lookup_lt_Some.
    + destruct (Htight p Hold) as (j & cj & Hcj & Hpj).
      exists j, cj. split; [|done]. rewrite list_lookup_insert_ne; [done|].
      intros <-. congruence.
Qed.

Lemma reachable_dirty_count E nS st :
  1 ≤ E ≤ INT_MAX → reachable E nS st → dirty_count st = 0.
Proof.
  intros HE. induction 1 as [|st tg i d st' Hreach IH Hrun]; [done|].
  destruct (reachable_rep E nS HE st Hreach) as (cs & Hrep & Hlen).
  destruct (count_Ok_index _ _ _ _ _ _ Hrun) as [q [Hi Hq]%index_Some].
  apply lookup_lt_Some in Hq.
  destruct (count_refines E nS HE tg i d st Hreach) as (st'' & Hrun' & _ & _ & Hcnt);
    [lia|].
  rewrite Hrun in Hrun'. simplify_eq.
  destruct Hcnt as (_ & _ & _ & _ & ->). done.
Qed.

(** [free_cache] on a represented cache whose heap holds the queues only. *)
Lemma free_cache_full E nS st cs :
  rep E st cs → tight st cs → length (cache st) = Z.to_nat nS →
  is_int (dirty_count st) →
  ∃ st', free_cache nS st = Ok tt st' ∧ heap st' = ∅ ∧ cache st' = [] ∧
         hit st' = hit st ∧ miss st' = miss st ∧ eviction st' = eviction st ∧
         dirty_eviction st' = dirty_eviction st ∧
         dirty_count st' = wrap_int (dirty_count st + dirty_lines st).
Proof.
  intros Hrep Htight Hlen Hint. pose proof Hrep as (Hsets & Hsep & _).
  destruct (free_sets_full cs (Z.to_nat nS) 0 st)
    as (st' & Hrun & Hcache & Hhi & Hmi & Hev & Hde & Hcount & Hframe & Hgone);
    try done.
  { by rewrite (rep_length _ _ _ Hrep). }
  { rewrite (rep_length _ _ _ Hrep). lia. }
  { intros j q c _ Hq Hc.
    by destruct (Forall2_lookup_lr _ _ _ _ _ _ Hsets Hq Hc). }
  unfold free_cache. change 0 with (Z.of_nat 0). mstep Hrun.
  mstep get_state_Ok. eexists. split; [done|]. simpl.
  split; [|split; [done|]].
  - apply map_empty. intros p.
    destruct (heap st !! p) as [n|] eqn:Hp.
    + destruct (Htight p) as (j & c & Hc & Hin); [by rewrite Hp|].
      eapply Hgone; [|done|done]. lia.
    + rewrite <-Hp. apply Hframe. intros j c _ Hc Hin.
      destruct (rep_allocated _ _ _ _ _ _ Hrep Hc Hin). congruence.
  - repeat (split; [done|]). rewrite Hcount. unfold dirty_lines.
    by rewrite (resident_chains _ _ _ Hrep).
Qed.

(** * Accounting: what the counters add up to *)

Lemma fmap_seq_ext {A} (f g : nat → A) k n :
  (∀ j, (k ≤ j < k + n)%nat → g j = f j) → g <$> seq k n = f <$> seq k n.
Proof.
  intros H. apply list_fmap_ext. intros j x Hx.
  apply lookup_seq in Hx as [-> ?]. apply H. lia.
Qed.

(** The total length of a family of lists of which one member changes. *)
Lemma length_concat_update {A} (f g : nat → list A) i n :
  (i < n)%nat → (∀ j, j ≠ i → g j = f j) →
  (length (concat (g <$> seq 0 n)) + length (f i) =
   length (concat (f <$> seq 0 n)) + length (g i))%nat.
Proof.
  intros Hi Hother.
  replace n with (i + (1 + (n - i - 1)))%nat by lia.
  rewrite !seq_app, !fmap_app, !concat_app, !length_app. simpl.
  rewrite !length_app.
  rewrite (fmap_seq_ext f g 0 i) by (intros; apply Hother; lia).
  rewrite (fmap_seq_ext f g (i + 1)) by (intros; apply Hother; lia).
  simpl. lia.
Qed.

Lemma length_concat_bound {A} (f : nat → list A) m k n :
  (∀ j, length (f j) ≤ m)%nat →
  (length (concat (f <$> seq k n)) ≤ n * m)%nat.
Proof.
  intros H. revert k. induction n as [|n IH]; intros k; [done|].
  change (seq k (S n)) with (k :: seq (S k) n).
  rewrite fmap_cons. change (concat (?x :: ?l)) with (x ++ concat l).
  rewrite length_app. specialize (IH (S k)). specialize (H k). lia.
Qed.

Lemma access_length E tg d s :
  1 ≤ E →
  length (Spec.access E tg d s) =
  match Spec.access_outcome E tg s with
  | Spec.MissNoEvict => S (length s)
  | _ => length s
  end.
Proof.
  intros HE. unfold Spec.access_outcome.
  destruct (Spec.find tg s) as [[k l]|] eqn:Hfind.
  - by eapply access_length_hit.
  - rewrite access_miss by done. case_bool_decide; [|done].
    destruct s as [|x s _] using rev_ind; [simpl in *; lia|].
    rewrite removelast_last, length_app. simpl. lia.
Qed.

Lemma num_accesses_cons r trace :
  num_accesses (r :: trace) =
  (if is_access r then 1 else 0) + num_accesses trace.
Proof.
  unfold num_accesses. rewrite filter_cons.
  destruct (decide (is_access r = true)) as [H|H].
  - rewrite H. simpl length. lia.
  - destruct (is_access r); [done|]. lia.
Qed.

Lemma num_accesses_nonneg trace : 0 ≤ num_accesses trace.
Proof. unfold num_accesses. lia. Qed.

Section Accounting.

Variables E nS : Z.
Hypothesis HE : 1 ≤ E ≤ INT_MAX.

Lemma total_lines_bound st :
  reachable E nS st → 0 ≤ total_lines st ≤ Z.of_nat (Z.to_nat nS) * E.
Proof.
  intros Hreach. unfold total_lines.
  destruct (reachable_rep E nS HE st Hreach) as (_ & _ & ->).
  pose proof (length_concat_bound (resident st) (Z.to_nat E) 0 (Z.to_nat nS)) as H.
  split; [lia|]. etrans; [apply inj_le, H|].
  - intros j. destruct (reachable_wf E nS HE st j Hreach) as (_ & _ & Hlen).
    lia.
  - rewrite Nat2Z.inj_mul. rewrite (Z2Nat.id E) by lia. done.
Qed.

(** One access keeps the books: as long as [hit + miss] stays below
    [INT_MAX], no counter wraps, the counters stay ordered, and
    [miss - eviction] is the number of resident lines. *)
Lemma count_accounting st tg i d st' :
  reachable E nS st → count E tg i d st = Ok tt st' →
  0 ≤ hit st → 0 ≤ dirty_eviction st ≤ eviction st → eviction st ≤ miss st →
  miss st - eviction st = total_lines st →
  hit st + miss st < INT_MAX →
  0 ≤ hit st' ∧ 0 ≤ dirty_eviction st' ≤ eviction st' ∧
  eviction st' ≤ miss st' ∧ miss st' - eviction st' = total_lines st' ∧
  hit st' + miss st' = hit st + miss st + 1.
Proof.
  intros Hreach Hrun Hh Hde Hev Htot Hmax.
  destruct (reachable_rep E nS HE st Hreach) as (cs & Hrep & Hlen).
  destruct (count_Ok_index _ _ _ _ _ _ Hrun) as [q [Hi Hq]%index_Some].
  apply lookup_lt_Some in Hq.
  destruct (count_refines E nS HE tg i d st Hreach) as (st'' & Hrun' & Hacc & Hother & Hcnt);
    [lia|].
  rewrite Hrun in Hrun'. simplify_eq.
  assert (Hreach' : reachable E nS st'') by (by eapply reachable_count).
  destruct (reachable_rep E nS HE st'' Hreach') as (_ & _ & Hlen').
  assert (Htot' : total_lines st'' =
    total_lines st - Z.of_nat (length (resident st (Z.to_nat i)))
    + Z.of_nat (length (resident st'' (Z.to_nat i)))).
  { unfold total_lines. rewrite Hlen, Hlen'.
    pose proof (length_concat_update (resident st) (resident st'')
                  (Z.to_nat i) (Z.to_nat nS)) as Hupd.
    assert ((length (concat (resident st'' <$> seq 0 (Z.to_nat nS))) +
             length (resident st (Z.to_nat i)) =
             length (concat (resident st <$> seq 0 (Z.to_nat nS))) +
             length (resident st'' (Z.to_nat i)))%nat); [|lia].
    apply Hupd; [lia|]. intros j Hj. by destruct (Hother j Hj). }
  rewrite Hacc, access_length in Htot' by lia.
  unfold counters_after, Spec.evicted in Hcnt.
  destruct Hcnt as (Hh' & Hm' & He' & Hd' & _).
  rewrite Htot', Hh', Hm', He', Hd'. clear Htot' Hh' Hm' He' Hd'.
  unfold INT_MAX in *.
  destruct (Spec.access_outcome E tg (resident st (Z.to_nat i))); simpl.
  - rewrite wrap_int_id by (unfold INT_MAX; lia). lia.
  - rewrite wrap_int_id by (unfold INT_MAX; lia). lia.
  - rewrite !(wrap_int_id (_ + 1)) by (unfold INT_MAX; lia).
    destruct (last (resident st (Z.to_nat i))) as [l|]; simpl; [|lia].
    destruct (is_dirty l); simpl; [|lia].
    rewrite wrap_int_id by (unfold INT_MAX; lia). lia.
Qed.

End Accounting.

(** The trace loop on a decodable geometry, with the books kept. *)
Lemma simulate_accounting s E b trace : ∀ st,
  1 ≤ E ≤ INT_MAX → decodable s b → reachable E (2 ^ s) st →
  0 ≤ hit st → 0 ≤ dirty_eviction st ≤ eviction st → eviction st ≤ miss st →
  miss st - eviction st = total_lines st →
  hit st + miss st + num_accesses trace ≤ INT_MAX →
  ∃ st', simulate s E b trace st = Ok tt st' ∧ reachable E (2 ^ s) st' ∧
    0 ≤ hit st' ∧ 0 ≤ dirty_eviction st' ≤ eviction st' ∧
    eviction st' ≤ miss st' ∧ miss st' - eviction st' = total_lines st' ∧
    hit st' + miss st' = hit st + miss st + num_accesses trace.
Proof.
  induction trace as [|r trace IH]; intros st HE Hdec Hreach Hh Hde Hev Htot Hmax.
  - exists st. unfold num_accesses. simpl. repeat (split; [done|]). lia.
  - rewrite num_accesses_cons in *. pose proof (num_accesses_nonneg trace).
    simpl. destruct (is_access r) eqn:Hr.
    + destruct (step_access s E b r Hr) as [d ->].
      destruct (decodable_decode s b (address r) Hdec) as (tg & i & -> & -> & Hi).
      simpl.
      destruct (count_refines E (2 ^ s) HE tg i d st Hreach Hi)
        as (st1 & Hrun & _).
      assert (Hlt : hit st + miss st < INT_MAX) by lia.
      destruct (count_accounting E (2 ^ s) HE st tg i d st1
                  Hreach Hrun Hh Hde Hev Htot Hlt)
        as (Hh1 & Hde1 & Hev1 & Htot1 & Hsum1).
      assert (Hreach1 : reachable E (2 ^ s) st1) by (by eapply reachable_count).
      assert (Hmax1 : hit st1 + miss st1 + num_accesses trace ≤ INT_MAX) by lia.
      destruct (IH st1 HE Hdec Hreach1 Hh1 Hde1 Hev1 Htot1 Hmax1)
        as (st' & Hrun' & Hreach' & ? & ? & ? & ? & Hsum').
      mstep Hrun. exists st'. repeat (split; [done|]). lia.
    + erewrite bind_Ok by by apply step_skip.
      assert (Hmax1 : hit st + miss st + num_accesses trace ≤ INT_MAX) by lia.
      destruct (IH st HE Hdec Hreach Hh Hde Hev Htot Hmax1)
        as (st' & Hrun' & Hreach' & ? & ? & ? & ? & Hsum').
      exists st'. repeat (split; [done|]). lia.
Qed.

(** * [free_cache] and [main] as a whole *)

Lemma total_lines_init nS : total_lines (init_state nS) = 0.
Proof.
  unfold total_lines.
  rewrite (resident_chains 0 _ _ (init_rep 0 nS (Z.le_refl 0))).
  rewrite fmap_replicate. simpl.
  by induction (Z.to_nat nS) as [|n IH].
Qed.

Lemma wrap_ulong_id x : 0 ≤ x ≤ INT_MAX → wrap_ulong x = x.
Proof.
  intros H. unfold wrap_ulong. apply Z.mod_small. unfold INT_MAX in *. lia.
Qed.

(** X9 (the books balance): on a decodable geometry with at most [INT_MAX]
    Loads and Stores in the trace, [main] returns a report in which
    [hits + misses] is the number of Loads and Stores, [evictions] is at most
    [misses], and [misses - evictions] is the number of lines resident when
    the trace ends, which is at most [E * 2^s]. *)
Theorem main_accounting s E b trace :
  1 ≤ E ≤ INT_MAX → decodable s b → 0 ≤ b ≤ 30 →
  num_accesses trace ≤ INT_MAX →
  ∃ st_end stats,
    simulate s E b trace (init_state (2 ^ s)) = Ok tt st_end ∧
    stats_of (main s E b trace) = Some stats ∧
    hits stats + misses stats = num_accesses trace ∧
    evictions stats ≤ misses stats ∧
    misses stats - evictions stats = total_lines st_end ∧
    total_lines st_end ≤ 2 ^ s * E.
Proof.
  intros HE Hdec Hb Hn.
  assert (Hs : 0 ≤ s ≤ 30) by (destruct Hdec as [?|[-> ->]]; lia).
  destruct (simulate_accounting s E b trace (init_state (2 ^ s)) HE Hdec)
    as (st_end & Hsim & Hreach & Hh & Hde & Hev & Htot & Hsum); simpl;
    [constructor|done|done|done|by rewrite total_lines_init|lia|].
  simpl in Hsum.
  destruct (reachable_rep _ _ HE _ Hreach) as (cs & Hrep & Hlen).
  destruct (free_cache_spec E (2 ^ s) st_end cs Hrep Hlen)
    as (st_f & Hfree & Hhf & Hmf & Hef & _).
  { rewrite (reachable_dirty_count E (2 ^ s) st_end HE Hreach).
    unfold is_int, INT_MAX. lia. }
  rewrite (main_unfold s E b trace (2 ^ s)) by (by apply shl_int_1).
  mstep Hsim. mstep Hfree. unfold write_stats. rewrite shl_int_1 by done.
  eexists st_end, _. split; [done|]. split; [done|]. simpl.
  pose proof (num_accesses_nonneg trace).
  pose proof (total_lines_bound E (2 ^ s) HE st_end Hreach) as Hbound.
  rewrite Hhf, Hmf, Hef, !wrap_ulong_id by lia.
  split; [lia|]. split; [done|]. split; [done|].
  rewrite Z2Nat.id in Hbound by (apply Z.pow_nonneg; lia). lia.
Qed.

Section Release.

Variables E nS : Z.
Hypothesis HE : 1 ≤ E ≤ INT_MAX.

(** X10 (no leak, no double free): from any state the cache goes through,
    [free_cache] returns with every queue node freed and the array of sets
    released; it adds the number of resident dirty lines to [dirty_count] and
    changes no other counter. *)
Theorem free_cache_releases_all st :
  reachable E nS st →
  ∃ st', free_cache nS st = Ok tt st' ∧ heap st' = ∅ ∧ cache st' = [] ∧
         hit st' = hit st ∧ miss st' = miss st ∧ eviction st' = eviction st ∧
         dirty_eviction st' = dirty_eviction st ∧
         dirty_count st' = wrap_int (dirty_lines st).
Proof.
  intros Hreach.
  destruct (reachable_tight E nS st HE Hreach) as (cs & Hrep & Htight & Hlen).
  pose proof (reachable_dirty_count E nS st HE Hreach) as Hdc.
  destruct (free_cache_full E nS st cs Hrep Htight Hlen) as (st' & Hrun & Hres).
  { rewrite Hdc. unfold is_int, INT_MAX. lia. }
  exists st'. split; [done|]. by rewrite Hdc, Z.add_0_l in Hres.
Qed.

End Release.


(** * Further properties of [count] *)

Lemma no_tag_no_line tg s :
  Forall (λ x, tag x ≠ tg) s → Forall (λ x, ¬ Spec.is_line tg x) s.
Proof. intros H. eapply Forall_impl; [done|]. by intros x Hx [_ ?]. Qed.

Lemma bump_comm b1 b2 x : bump b1 (bump b2 x) = bump b2 (bump b1 x).
Proof. by destruct b1, b2. Qed.

Section Accesses.

Variables E nS : Z.
Hypothesis HE : 1 ≤ E ≤ INT_MAX.

(** After an access, the line with the accessed tag is the first of its
    set. *)
Lemma count_puts_tag_first st tg i d st1 :
  reachable E nS st → 0 ≤ i < nS → count E tg i d st = Ok tt st1 →
  ∃ l rest, resident st1 (Z.to_nat i) = l :: rest ∧ tag l = tg.
Proof.
  intros Hreach Hi Hrun.
  destruct (count_refines E nS HE tg i d st Hreach Hi)
    as (st1' & Hrun1 & Hacc1 & _ & _).
  assert (st1' = st1) as -> by congruence.
  rewrite Hacc1. unfold Spec.access.
  destruct (Spec.find tg (resident st (Z.to_nat i))) as [[k l]|] eqn:Hfind.
  - apply find_Some_split in Hfind as (s1 & s2 & Heq & <- & [_ Hl] & Hno).
    rewrite Heq. unfold Spec.promote.
    rewrite list_lookup_insert_eq by (rewrite length_app; simpl; lia).
    eexists _, _. split; [done|]. by rewrite mark_tag.
  - by eexists _, _.
Qed.

(** An access to the tag of the first line of a set. *)
Lemma count_hit_first st tg i d l rest :
  reachable E nS st → 0 ≤ i < nS →
  resident st (Z.to_nat i) = l :: rest → tag l = tg →
  ∃ st', count E tg i d st = Ok tt st' ∧
    resident st' (Z.to_nat i) = Spec.mark d l :: rest ∧
    hit st' = wrap_int (hit st + 1) ∧ miss st' = miss st ∧
    eviction st' = eviction st ∧ dirty_eviction st' = dirty_eviction st.
Proof.
  intros Hreach Hi Hres Hl.
  destruct (count_refines E nS HE tg i d st Hreach Hi)
    as (st' & Hrun & Hacc & _ & Hcnt).
  destruct (reachable_wf E nS HE st (Z.to_nat i) Hreach) as (Hval & _).
  rewrite Hres in Hval, Hacc, Hcnt.
  apply Forall_cons in Hval as [Hvl _].
  assert (Hline : Spec.is_line tg l) by (split; [rewrite Hvl|]; done).
  pose proof (access_hit E tg d [] l rest (Forall_nil_2 _) Hline) as Ha.
  pose proof (find_split tg [] l rest (Forall_nil_2 _) Hline) as Hf.
  change ([] ++ l :: rest) with (l :: rest) in Ha, Hf.
  change ([] ++ rest) with rest in Ha. simpl length in Hf.
  exists st'. split; [done|]. split; [by rewrite Hacc, Ha|].
  unfold counters_after, Spec.evicted, Spec.access_outcome in Hcnt.
  rewrite Hf in Hcnt. simpl in Hcnt. naive_solver.
Qed.

(** X1 (hit): when the first line of the set that carries the tag is [l], the
    access returns with [l] moved to the front, marked dirty on a store, the
    other lines in their order; only [hit] is incremented. *)
Theorem hit_moves_to_front st tg i d s1 l s2 :
  reachable E nS st → 0 ≤ i < nS →
  resident st (Z.to_nat i) = s1 ++ l :: s2 →
  Forall (λ x, tag x ≠ tg) s1 → tag l = tg →
  ∃ st', count E tg i d st = Ok tt st' ∧
    resident st' (Z.to_nat i)
      = (if d =? 1 then set_dirty_bit 1 l else l) :: s1 ++ s2 ∧
    hit st' = wrap_int (hit st + 1) ∧ miss st' = miss st ∧
    eviction st' = eviction st ∧ dirty_eviction st' = dirty_eviction st.
Proof.
  intros Hreach Hi Hres Hno Hl.
  destruct (count_refines E nS HE tg i d st Hreach Hi)
    as (st' & Hrun & Hacc & _ & Hcnt).
  destruct (reachable_wf E nS HE st (Z.to_nat i) Hreach) as (Hval & _).
  rewrite Hres in Hval, Hacc, Hcnt.
  apply Forall_app in Hval as [_ [Hvl _]%Forall_cons].
  assert (Hline : Spec.is_line tg l) by (split; [rewrite Hvl|]; done).
  apply no_tag_no_line in Hno.
  exists st'. split; [done|]. split; [by rewrite Hacc, access_hit|].
  unfold counters_after, Spec.evicted, Spec.access_outcome in Hcnt.
  rewrite find_split in Hcnt by done. simpl in Hcnt. naive_solver.
Qed.

(** X2 (miss): when no line of the set carries the tag, the access returns
    with a new valid line in front, dirty on a store; the last line has been
    removed exactly when the set held [E] lines.  [miss] is incremented,
    [eviction] is incremented exactly when a line was removed, and
    [dirty_eviction] exactly when that line was dirty. *)
Theorem miss_inserts_at_front st tg i d :
  reachable E nS st → 0 ≤ i < nS →
  Forall (λ x, tag x ≠ tg) (resident st (Z.to_nat i)) →
  let s := resident st (Z.to_nat i) in
  let full := bool_decide (E ≤ Z.of_nat (length s)) in
  ∃ st', count E tg i d st = Ok tt st' ∧
    resident st' (Z.to_nat i)
      = CacheLine 1 d tg :: (if full then removelast s else s) ∧
    hit st' = hit st ∧ miss st' = wrap_int (miss st + 1) ∧
    eviction st' = (if full then wrap_int (eviction st + 1) else eviction st) ∧
    dirty_eviction st' =
      match (if full then last s else None) with
      | Some l => if dirty_bit l =? 1 then wrap_int (dirty_eviction st + 1)
                  else dirty_eviction st
      | None => dirty_eviction st
      end.
Proof.
  intros Hreach Hi Hno s full.
  destruct (count_refines E nS HE tg i d st Hreach Hi)
    as (st' & Hrun & Hacc & _ & Hcnt).
  assert (Hfind : Spec.find tg s = None).
  { apply list_find_None. by apply no_tag_no_line. }
  exists st'. split; [done|]. split; [by rewrite Hacc, access_miss|].
  unfold counters_after, Spec.evicted, Spec.access_outcome in Hcnt.
  fold s in Hcnt. rewrite Hfind in Hcnt. fold full in Hcnt.
  destruct Hcnt as (Hh & Hm & He & Hd & _).
  destruct full; simpl in *.
  - repeat (split; [done|]). rewrite Hd. unfold is_dirty.
    destruct (last s) as [l|]; simpl; [|done]. by destruct (dirty_bit l =? 1).
  - done.
Qed.


(** X4 (sets are independent): two accesses to different sets can be made in
    either order: every set ends with the same lines and every counter with
    the same value. *)
Theorem distinct_sets_commute st tg1 i1 d1 tg2 i2 d2 :
  reachable E nS st → 0 ≤ i1 < nS → 0 ≤ i2 < nS → i1 ≠ i2 →
  ∃ sa sab sb sba,
    count E tg1 i1 d1 st = Ok tt sa ∧ count E tg2 i2 d2 sa = Ok tt sab ∧
    count E tg2 i2 d2 st = Ok tt sb ∧ count E tg1 i1 d1 sb = Ok tt sba ∧
    (∀ k, resident sab k = resident sba k) ∧
    hit sab = hit sba ∧ miss sab = miss sba ∧
    eviction sab = eviction sba ∧ dirty_eviction sab = dirty_eviction sba ∧
    dirty_count sab = dirty_count sba.
Proof.
  intros Hreach H1 H2 Hne.
  assert (Hn : Z.to_nat i1 ≠ Z.to_nat i2) by lia.
  destruct (count_refines E nS HE tg1 i1 d1 st Hreach H1)
    as (sa & Hra & Haa & Hoa & Hca).
  destruct (count_refines E nS HE tg2 i2 d2 st Hreach H2)
    as (sb & Hrb & Hab & Hob & Hcb).
  destruct (count_refines E nS HE tg2 i2 d2 sa) as (sab & Hrab & Haab & Hoab & Hcab);
    [by eapply reachable_count|done|].
  destruct (count_refines E nS HE tg1 i1 d1 sb) as (sba & Hrba & Haba & Hoba & Hcba);
    [by eapply reachable_count|done|].
  destruct (Hoa (Z.to_nat i2)) as [Hsa2 _]; [done|].
  destruct (Hob (Z.to_nat i1)) as [Hsb1 _]; [done|].
  rewrite Hsa2 in Haab, Hcab. rewrite Hsb1 in Haba, Hcba.
  exists sa, sab, sb, sba. repeat (split; [done|]). split.
  - intros k. destruct (decide (k = Z.to_nat i1)) as [->|Hk1].
    { destruct (Hoab (Z.to_nat i1)) as [-> _]; [done|]. by rewrite Haa, Haba. }
    destruct (decide (k = Z.to_nat i2)) as [->|Hk2].
    { destruct (Hoba (Z.to_nat i2)) as [-> _]; [done|]. by rewrite Haab, Hab. }
    destruct (Hoab k) as [-> _]; [done|]. destruct (Hoba k) as [-> _]; [done|].
    destruct (Hoa k) as [-> _]; [done|]. by destruct (Hob k) as [-> _].
  - destruct Hca as (Ha1 & Ha2 & Ha3 & Ha4 & Ha5).
    destruct Hcb as (Hb1 & Hb2 & Hb3 & Hb4 & Hb5).
    destruct Hcab as (-> & -> & -> & -> & ->).
    destruct Hcba as (-> & -> & -> & -> & ->).
    rewrite Ha1, Ha2, Ha3, Ha4, Ha5, Hb1, Hb2, Hb3, Hb4, Hb5.
    repeat split; apply bump_comm.
Qed.

(** X5 (valid lines): every line of a queue has [valid_bit] 1, so the test of
    lines 75-76 only compares tags. *)
Theorem resident_lines_valid st i l tg :
  reachable E nS st → l ∈ resident st i →
  valid_bit l = 1 ∧ line_matches (Some l) tg = (tag l =? tg).
Proof.
  intros Hreach Hl.
  destruct (reachable_wf E nS HE st i Hreach) as (Hval & _).
  assert (Hv : valid_bit l = 1) by (by eapply (proj1 (Forall_forall _ _) Hval)).
  split; [done|]. unfold line_matches. by rewrite Hv.
Qed.

End Accesses.

(** * Further properties of the decoder and of the trace loop *)

(** Addresses of one block get the same tag and the same set index. *)
Lemma decode_block s b a a' :
  decodable s b → a ≫ b = a' ≫ b →
  decode_tag s b a = decode_tag s b a' ∧ decode_set s b a = decode_set s b a'.
Proof.
  intros [(Hs & Hb & Hsb)|[-> ->]] Heq.
  - rewrite !decode_tag_in_range, !decode_set_in_range by lia.
    rewrite (Z.add_comm s b), <-!(Z.shiftr_shiftr _ b s) by lia.
    by rewrite Heq.
  - rewrite !Z.shiftr_0_r in Heq. by subst.
Qed.

(** X6 (blocks): on a decodable geometry two addresses get the same tag and
    the same set index exactly when they lie in the same block, that is when
    they agree above the [b] offset bits. *)
Theorem same_block_same_line s b a a' :
  decodable s b →
  (decode_tag s b a = decode_tag s b a' ∧ decode_set s b a = decode_set s b a')
  ↔ a ≫ b = a' ≫ b.
Proof.
  intros Hdec. split; [|by apply decode_block].
  destruct Hdec as [(Hs & Hb & Hsb)|[-> ->]].
  - rewrite !decode_tag_in_range, !decode_set_in_range by lia.
    replace (2 ^ s - 1) with (Z.ones s) by (rewrite Z.ones_equiv; lia).
    rewrite !Z.land_ones by lia.
    rewrite (Z.add_comm s b), <-!(Z.shiftr_shiftr _ b s) by lia.
    rewrite !(Z.shiftr_div_pow2 _ s) by lia.
    intros [[= Ht] [= Hi]].
    rewrite (Z.div_mod (a ≫ b) (2 ^ s)), (Z.div_mod (a' ≫ b) (2 ^ s)) by lia.
    by rewrite Ht, Hi.
  - destruct (decode_zero_geometry a) as [-> ->].
    destruct (decode_zero_geometry a') as [-> ->].
    rewrite !Z.shiftr_0_r. naive_solver.
Qed.

(** X7 (locality): after a Load or Store, a Load or Store to any address of
    the same block hits: it increments [hit] and no other counter. *)
Theorem same_block_hits s E b r1 r2 st :
  1 ≤ E ≤ INT_MAX → decodable s b → reachable E (2 ^ s) st →
  is_access r1 = true → is_access r2 = true →
  address r1 ≫ b = address r2 ≫ b →
  ∃ st1 st2,
    step s E b r1 st = Ok tt st1 ∧ step s E b r2 st1 = Ok tt st2 ∧
    hit st2 = wrap_int (hit st1 + 1) ∧ miss st2 = miss st1 ∧
    eviction st2 = eviction st1 ∧ dirty_eviction st2 = dirty_eviction st1 ∧
    dirty_count st2 = dirty_count st1.
Proof.
  intros HE Hdec Hreach Hr1 Hr2 Hblock.
  destruct (step_access s E b r1 Hr1) as [d1 ->].
  destruct (step_access s E b r2 Hr2) as [d2 ->].
  destruct (decode_block s b _ _ Hdec Hblock) as [<- <-].
  destruct (decodable_decode s b (address r1) Hdec) as (tg & i & -> & -> & Hi).
  simpl.
  destruct (count_refines E (2 ^ s) HE tg i d1 st Hreach Hi) as (st1 & Hrun1 & _).
  assert (Hreach1 : reachable E (2 ^ s) st1) by (by eapply reachable_count).
  destruct (count_puts_tag_first E (2 ^ s) HE st tg i d1 st1 Hreach Hi Hrun1)
    as (l & rest & Hres & Hl).
  destruct (count_hit_first E (2 ^ s) HE st1 tg i d2 l rest Hreach1 Hi Hres Hl)
    as (st2 & Hrun2 & _ & Hcnt).
  exists st1, st2. split; [done|]. split; [done|].
  destruct Hcnt as (-> & -> & -> & ->). repeat (split; [done|]).
  by rewrite (reachable_dirty_count E (2 ^ s) st2 HE),
             (reachable_dirty_count E (2 ^ s) st1 HE)
    by (done || by eapply reachable_count).
Qed.

(** X8 (block granularity): on a decodable geometry the result of [main]
    depends on a record only through its operation and the block of its
    address: the offset within the block and the size of the access play no
    part. *)
Theorem block_granularity s E b t t' :
  decodable s b →
  Forall2 (λ r r', operation r = operation r' ∧
                   address r ≫ b = address r' ≫ b) t t' →
  main s E b t = main s E b t'.
Proof.
  intros Hdec Hrel.
  assert (Hsim : simulate s E b t = simulate s E b t').
  { induction Hrel as [|r r' t t' [Hop Hblock] _ IH]; [done|].
    simpl. rewrite IH. f_equal. unfold step.
    destruct (decode_block s b _ _ Hdec Hblock) as [-> ->]. by rewrite Hop. }
  unfold main. by rewrite Hsim.
Qed.

(** X14 (ignored records): the records that are neither a Load nor a Store
    can be deleted from the trace without changing the result of [main]. *)
Theorem ignored_records_removable s E b trace :
  main s E b trace = main s E b (filter (λ r, is_access r = true) trace).
Proof.
  assert (Hsim : ∀ st, simulate s E b trace st
                 = simulate s E b (filter (λ r, is_access r = true) trace) st).
  { induction trace as [|r trace IH]; intros st; [done|].
    rewrite filter_cons. destruct (decide (is_access r = true)) as [Hr|Hr].
    - simpl. unfold mbind, M_bind.
      destruct (step s E b r st) as [[] st1| |]; [apply IH|done..].
    - simpl. erewrite bind_Ok; [apply IH|].
      apply step_skip. by destruct (is_access r). }
  unfold main. destruct (shl_int 1 s) as [nS|]; [|done].
  unfold mbind, M_bind. by rewrite Hsim.
Qed.

(** * Associativity: a smaller set is a prefix of a larger one *)

Lemma fmap_removelast {A B} (f : A → B) (l : list A) :
  f <$> removelast l = removelast (f <$> l).
Proof.
  destruct l as [|x l _] using rev_ind; [done|].
  rewrite fmap_app. change (f <$> [x]) with [f x].
  by rewrite !removelast_last.
Qed.

Lemma app_cons_unique {A} (x : A) (l1 l2 k1 k2 : list A) :
  x ∉ l1 → x ∉ k1 → l1 ++ x :: l2 = k1 ++ x :: k2 → l1 = k1 ∧ l2 = k2.
Proof.
  revert k1. induction l1 as [|y l1 IH]; intros [|z k1] Hl Hk Heq;
    simpl in *; simplify_eq.
  - done.
  - set_solver.
  - set_solver.
  - destruct (IH k1) as [-> ->]; [set_solver|set_solver|done|done].
Qed.

(** The tags of a set after an access, from the tags before. *)
Lemma access_tags E tg d s :
  Forall (λ l, valid_bit l = 1) s →
  (∃ T1 T2, tag <$> s = T1 ++ tg :: T2 ∧ (tg ∉ T1) ∧
            Spec.access_outcome E tg s = Spec.Hit ∧
            tag <$> Spec.access E tg d s = tg :: T1 ++ T2) ∨
  ((tg ∉ tag <$> s) ∧ Spec.access_outcome E tg s ≠ Spec.Hit ∧
   tag <$> Spec.access E tg d s =
     tg :: (if bool_decide (E ≤ Z.of_nat (length s))
            then removelast (tag <$> s) else tag <$> s)).
Proof.
  intros Hval.
  assert (Hnot : ∀ s', Forall (λ l, valid_bit l = 1) s' →
                       Forall (λ x, ¬ Spec.is_line tg x) s' → tg ∉ tag <$> s').
  { intros s' Hv Hno (x & Htg & Hx)%list_elem_of_fmap.
    apply (proj1 (Forall_forall _ _) Hno x Hx). split; [|done].
    by rewrite (proj1 (Forall_forall _ _) Hv x Hx). }
  destruct (Spec.find tg s) as [[k l]|] eqn:Hfind.
  - left. pose proof Hfind as (s1 & s2 & -> & _ & Hl & Hno)%find_Some_split.
    apply Forall_app in Hval as [Hv1 _].
    exists (tag <$> s1), (tag <$> s2).
    split; [rewrite fmap_app, fmap_cons; by destruct Hl as [_ ->]|].
    split; [by apply Hnot|].
    split; [unfold Spec.access_outcome; by rewrite Hfind|].
    rewrite access_hit by done. rewrite fmap_cons, mark_tag, fmap_app.
    by destruct Hl as [_ ->].
  - right. split; [apply Hnot; [done|by apply find_None]|].
    split.
    { unfold Spec.access_outcome. rewrite Hfind. by case_bool_decide. }
    rewrite access_miss by done. rewrite fmap_cons. simpl. f_equal.
    case_bool_decide; [|done]. apply fmap_removelast.
Qed.

(** One access on two sets of which the smaller holds the first [E] tags of
    the larger. *)
Lemma access_inclusion E E' tg d s s' :
  1 ≤ E ≤ E' → wf_lines E s → wf_lines E' s' →
  tag <$> s = take (Z.to_nat E) (tag <$> s') →
  tag <$> Spec.access E tg d s
    = take (Z.to_nat E) (tag <$> Spec.access E' tg d s') ∧
  (Spec.access_outcome E tg s = Spec.Hit →
   Spec.access_outcome E' tg s' = Spec.Hit).
Proof.
  intros HE (Hval & _ & _) (Hval' & _ & _) Hincl.
  assert (He : E = Z.of_nat (Z.to_nat E)) by lia.
  assert (He1 : (1 ≤ Z.to_nat E)%nat) by lia.
  set (e := Z.to_nat E) in *.
  assert (Hlen : length s = (e `min` length s')%nat).
  { rewrite <-(length_fmap tag s), Hincl, length_take. by rewrite length_fmap. }
  assert (Htake : ∀ (x : Z) l, take e (x :: l) = x :: take (e - 1) l).
  { intros x l. destruct e; [lia|]. simpl. by rewrite Nat.sub_0_r. }
  destruct (access_tags E' tg d s' Hval')
    as [(T1' & T2' & HT' & Hn1' & Ho' & ->)|(Hn' & Ho' & ->)];
  destruct (access_tags E tg d s Hval)
    as [(T1 & T2 & HT & Hn1 & Ho & ->)|(Hn & Ho & ->)];
  rewrite Htake.
  - split; [|done]. f_equal. rewrite HT, HT' in Hincl.
    destruct (decide (length T1' < e)%nat) as [Hlt|Hge].
    + rewrite take_app_ge in Hincl by lia.
      replace (e - length T1')%nat with (S (e - 1 - length T1')) in Hincl by lia.
      simpl in Hincl.
      apply app_cons_unique in Hincl as [-> ->]; [|done|done].
      by rewrite take_app_ge by lia.
    + rewrite take_app_le in Hincl by lia. exfalso. apply Hn1'.
      apply (subseteq_take e). rewrite <-Hincl. set_solver.
  - split; [|done]. f_equal. rewrite HT' in Hincl.
    rewrite <-(length_fmap tag s'), HT' in Hlen.
    rewrite length_app in Hlen. simpl in Hlen.
    destruct (decide (length T1' < e)%nat) as [Hlt|Hge].
    { exfalso. apply Hn. rewrite Hincl, take_app_ge by lia.
      replace (e - length T1')%nat with (S (e - 1 - length T1')) by lia.
      set_solver. }
    rewrite take_app_le in Hincl by lia.
    rewrite bool_decide_eq_true_2 by lia.
    rewrite take_app_le by lia.
    rewrite Hincl, removelast_firstn_len, length_take, take_take.
    f_equal. lia.
  - exfalso. apply Hn'. apply (subseteq_take e). rewrite <-Hincl, HT. set_solver.
  - split; [|done]. f_equal.
    rewrite <-(length_fmap tag s') in Hlen |- *.
    destruct (decide (length (tag <$> s') < e)%nat) as [Hlt|Hge].
    + rewrite take_ge in Hincl by lia.
      rewrite !bool_decide_eq_false_2 by lia.
      rewrite take_ge by lia. done.
    + rewrite (bool_decide_eq_true_2 (E ≤ _)) by lia.
      rewrite Hincl, removelast_firstn_len, length_take, take_take.
      case_bool_decide.
      * rewrite removelast_firstn_len, take_take. f_equal. lia.
      * f_equal. lia.
Qed.

Lemma resident_init nS j : resident (init_state nS) j = [].
Proof.
  unfold resident. simpl.
  destruct (replicate (Z.to_nat nS) empty_set !! j) as [q|] eqn:Hq; [|done].
  by apply lookup_replicate in Hq as [-> _].
Qed.

Lemma step_access_dirty s E b r :
  is_access r = true →
  step s E b r =
  call_count E (decode_tag s b (address r)) (decode_set s b (address r))
    (if bool_decide (operation r = "L"%char) then 0 else 1).
Proof.
  unfold is_access, step. intros H.
  case_bool_decide; [done|]. by case_bool_decide.
Qed.

Section Inclusion.

Variables E E' nS : Z.
Hypothesis HE : 1 ≤ E ≤ E'.
Hypothesis HE' : E' ≤ INT_MAX.

(** One call of [count] on two caches that differ in the number of lines per
    set only. *)
Lemma count_inclusion st st' tg i d :
  reachable E nS st → reachable E' nS st' → 0 ≤ i < nS →
  (∀ j, tag <$> resident st j = take (Z.to_nat E) (tag <$> resident st' j)) →
  ∃ st1 st1',
    count E tg i d st = Ok tt st1 ∧ count E' tg i d st' = Ok tt st1' ∧
    (∀ j, tag <$> resident st1 j
          = take (Z.to_nat E) (tag <$> resident st1' j)) ∧
    counters_after E tg (resident st (Z.to_nat i)) st st1 ∧
    counters_after E' tg (resident st' (Z.to_nat i)) st' st1' ∧
    (Spec.access_outcome E tg (resident st (Z.to_nat i)) = Spec.Hit →
     Spec.access_outcome E' tg (resident st' (Z.to_nat i)) = Spec.Hit).
Proof.
  intros Hreach Hreach' Hi Hincl.
  assert (HEa : 1 ≤ E ≤ INT_MAX) by lia.
  assert (HEb : 1 ≤ E' ≤ INT_MAX) by lia.
  destruct (count_refines E nS HEa tg i d st Hreach Hi)
    as (st1 & Hrun & Hacc & Hother & Hcnt).
  destruct (count_refines E' nS HEb tg i d st' Hreach' Hi)
    as (st1' & Hrun' & Hacc' & Hother' & Hcnt').
  destruct (access_inclusion E E' tg d (resident st (Z.to_nat i))
              (resident st' (Z.to_nat i)) HE) as [Htags Hout].
  { by apply (reachable_wf E nS HEa). }
  { by apply (reachable_wf E' nS HEb). }
  { apply Hincl. }
  exists st1, st1'. repeat (split; [done|]). split; [|done].
  intros j. destruct (decide (j = Z.to_nat i)) as [->|Hj].
  - by rewrite Hacc, Hacc'.
  - destruct (Hother j Hj) as [-> _]. destruct (Hother' j Hj) as [-> _].
    apply Hincl.
Qed.

(** The trace loop on the two caches. *)
Lemma simulate_inclusion s b trace : ∀ st st',
  nS = 2 ^ s → decodable s b →
  reachable E nS st → reachable E' nS st' →
  (∀ j, tag <$> resident st j = take (Z.to_nat E) (tag <$> resident st' j)) →
  ∃ st1 st1',
    simulate s E b trace st = Ok tt st1 ∧
    simulate s E' b trace st' = Ok tt st1' ∧
    reachable E nS st1 ∧ reachable E' nS st1' ∧
    (∀ j, tag <$> resident st1 j
          = take (Z.to_nat E) (tag <$> resident st1' j)) ∧
    (0 ≤ hit st ≤ hit st' → 0 ≤ miss st' →
     hit st + miss st = hit st' + miss st' →
     hit st' + miss st' + num_accesses trace ≤ INT_MAX →
     0 ≤ hit st1 ≤ hit st1' ∧ 0 ≤ miss st1' ∧
     hit st1 + miss st1 = hit st1' + miss st1' ∧
     hit st1' + miss st1' = hit st' + miss st' + num_accesses trace).
Proof.
  induction trace as [|r trace IH]; intros st st' HnS Hdec Hreach Hreach' Hincl.
  - exists st, st'. repeat (split; [done|]). unfold num_accesses. simpl. lia.
  - rewrite num_accesses_cons. pose proof (num_accesses_nonneg trace).
    simpl. destruct (is_access r) eqn:Hr.
    + rewrite !step_access_dirty by done.
      set (d := if bool_decide (operation r = "L"%char) then 0 else 1).
      destruct (decodable_decode s b (address r) Hdec) as (tg & i & -> & -> & Hi).
      simpl. rewrite <-HnS in Hi.
      destruct (count_inclusion st st' tg i d Hreach Hreach' Hi Hincl)
        as (st1 & st1' & Hrun & Hrun' & Hincl1 & Hcnt & Hcnt' & Hout).
      destruct (IH st1 st1' HnS Hdec) as
        (st2 & st2' & Hsim & Hsim' & Hr2 & Hr2' & Hincl2 & Hcnt2);
        [by eapply reachable_count|by eapply reachable_count|done|].
      mstep Hrun. mstep Hrun'. exists st2, st2'. repeat (split; [done|]).
      intros Hh Hm Hsum Hmax.
      destruct Hcnt as (Hh1 & Hm1 & _). destruct Hcnt' as (Hh1' & Hm1' & _).
      assert (0 ≤ hit st1 ≤ hit st1' ∧ 0 ≤ miss st1' ∧
              hit st1 + miss st1 = hit st1' + miss st1' ∧
              hit st1' + miss st1' = hit st' + miss st' + 1) as (? & ? & ? & ?).
      { rewrite Hh1, Hm1, Hh1', Hm1'. unfold bump.
        destruct (Spec.access_outcome E tg (resident st (Z.to_nat i))) eqn:Ho;
          [rewrite Hout by done|..];
          destruct (Spec.access_outcome E' tg (resident st' (Z.to_nat i)));
          simpl; rewrite ?wrap_int_id by (unfold INT_MAX in *; lia); lia. }
      destruct Hcnt2 as (? & ? & ? & ?); [done|done|done|lia|].
      repeat split; lia.
    + erewrite !bind_Ok by by apply step_skip.
      destruct (IH st st' HnS Hdec Hreach Hreach' Hincl)
        as (st1 & st1' & ? & ? & ? & ? & ? & Hcnt).
      exists st1, st1'. repeat (split; [done|]).
      intros ????. by apply Hcnt.
Qed.

End Inclusion.

(** X12 (inclusion): run the same trace on two caches that differ only in the
    number of lines per set, [E <= E'].  Both runs complete, and at the end
    every set of the smaller cache holds, in the same order, the tags of the
    [E] most recently used lines of the same set of the larger cache. *)
Theorem lru_inclusion s E E' b trace :
  1 ≤ E ≤ E' → E' ≤ INT_MAX → decodable s b →
  ∃ st st',
    simulate s E b trace (init_state (2 ^ s)) = Ok tt st ∧
    simulate s E' b trace (init_state (2 ^ s)) = Ok tt st' ∧
    ∀ i, tag <$> resident st i = take (Z.to_nat E) (tag <$> resident st' i).
Proof.
  intros HE HE' Hdec.
  destruct (simulate_inclusion E E' (2 ^ s) HE HE' s b trace
              (init_state (2 ^ s)) (init_state (2 ^ s)))
    as (st & st' & Hsim & Hsim' & _ & _ & Hincl & _);
    [done|done|constructor|constructor| |by exists st, st'].
  intros j. rewrite resident_init. by destruct (Z.to_nat E).
Qed.

(** X13 (more lines per set never hurt): with at most [INT_MAX] Loads and
    Stores in the trace, the report of [main] for [E' >= E] lines per set has
    at least as many hits and at most as many misses as the report for [E]
    lines per set. *)
Theorem more_lines_fewer_misses s E E' b trace :
  1 ≤ E ≤ E' → E' ≤ INT_MAX → decodable s b → 0 ≤ b ≤ 30 →
  num_accesses trace ≤ INT_MAX →
  ∃ stats stats',
    stats_of (main s E b trace) = Some stats ∧
    stats_of (main s E' b trace) = Some stats' ∧
    hits stats ≤ hits stats' ∧ misses stats' ≤ misses stats.
Proof.
  intros HE HE' Hdec Hb Hn.
  assert (Hs : 0 ≤ s ≤ 30) by (destruct Hdec as [?|[-> ->]]; lia).
  assert (HEa : 1 ≤ E ≤ INT_MAX) by lia.
  assert (HEb : 1 ≤ E' ≤ INT_MAX) by lia.
  destruct (simulate_inclusion E E' (2 ^ s) HE HE' s b trace
              (init_state (2 ^ s)) (init_state (2 ^ s)))
    as (st & st' & Hsim & Hsim' & Hreach & Hreach' & _ & Hcnt);
    [done|done|constructor|constructor| |].
  { intros j. rewrite resident_init. by destruct (Z.to_nat E). }
  simpl in Hcnt. destruct Hcnt as (Hh & Hm & Hsum & Hsum'); [lia..|].
  destruct (reachable_rep _ _ HEa _ Hreach) as (cs & Hrep & Hlen).
  destruct (reachable_rep _ _ HEb _ Hreach') as (cs' & Hrep' & Hlen').
  destruct (free_cache_spec E (2 ^ s) st cs Hrep Hlen)
    as (st_f & Hfree & Hhf & Hmf & _).
  { rewrite (reachable_dirty_count E (2 ^ s) st HEa Hreach).
    unfold is_int, INT_MAX. lia. }
  destruct (free_cache_spec E' (2 ^ s) st' cs' Hrep' Hlen')
    as (st_f' & Hfree' & Hhf' & Hmf' & _).
  { rewrite (reachable_dirty_count E' (2 ^ s) st' HEb Hreach').
    unfold is_int, INT_MAX. lia. }
  rewrite !(main_unfold s _ b trace (2 ^ s)) by (by apply shl_int_1).
  mstep Hsim. mstep Hfree. mstep Hsim'. mstep Hfree'.
  unfold write_stats. rewrite shl_int_1 by done.
  eexists _, _. split; [done|]. split; [done|]. simpl.
  rewrite Hhf, Hmf, Hhf', Hmf', !wrap_ulong_id by lia. lia.
Qed.

(** * Examples and defects *)

(** The scenario of the specification: [s = 1], [E = 1], [b = 1] and the
    trace L 10, L 10, S 18, L 28. *)
Example concrete_scenario :
  stats_of (main 1 1 1 [load_at 0x10; load_at 0x10; store_at 0x18; load_at 0x28])
  = Some (CsimStats 1 3 2 0 2).
Proof. vm_compute. reflexivity. Qed.

Lemma reachable_run E nS accs : ∀ st st',
  reachable E nS st → run E accs st = Ok tt st' → reachable E nS st'.
Proof.
  induction accs as [|[[tg i] d] accs IH]; intros st st' Hreach; simpl.
  - by intros [= <-].
  - unfold mbind, M_bind.
    destruct (count E tg i d st) as [[] st1| |] eqn:Hrun; [|done..].
    apply IH. by eapply reachable_count.
Qed.

Lemma simulate_run_reachable s E b nS trace : ∀ st st',
  reachable E nS st → simulate s E b trace st = Ok tt st' →
  reachable E nS st'.
Proof.
  induction trace as [|r trace IH]; intros st st' Hreach; simpl.
  - by intros [= <-].
  - unfold mbind, M_bind.
    destruct (step s E b r st) as [[] st1| |] eqn:Hstep; [|done..].
    apply IH. unfold step, call_count in Hstep.
    destruct (decode_tag s b (address r)) as [tg|],
             (decode_set s b (address r)) as [i|];
      repeat case_bool_decide; unfold mret, M_ret, fault in Hstep;
      try done; try (by eapply reachable_count); by simplify_eq.
Qed.

Lemma demo_state_reachable : reachable 2 2 demo_state.
Proof.
  apply (reachable_run 2 2 [(4, 0, 0); (8, 0, 1); (4, 0, 1)] (init_state 2)).
  - constructor.
  - vm_compute. reflexivity.
Qed.

Lemma mixed_state_reachable : reachable 2 2 mixed_state.
Proof.
  apply (reachable_run 2 2 [(4, 0, 1); (8, 0, 0)] (init_state 2)).
  - constructor.
  - vm_compute. reflexivity.
Qed.

Lemma big_block_state_reachable : reachable 1 2 big_block_state.
Proof.
  apply (simulate_run_reachable 1 1 30 2 [store_at 0; load_at 0x80000000]
           (init_state 2)).
  - constructor.
  - vm_compute. reflexivity.
Qed.

Lemma capacity_invariant_witness :
  (1 ≤ 2 ≤ INT_MAX ∧ reachable 2 2 demo_state) ∧
  (∀ i q, cache demo_state !! i = Some q →
     curr_line_num q = Z.of_nat (length (resident demo_state i)) ∧
     Z.of_nat (length (resident demo_state i)) ≤ 2) ∧
  (∀ tg i d, 0 ≤ i < 2 → ∃ st', count 2 tg i d demo_state = Ok tt st').
Proof.
  assert (H : 1 ≤ 2 ≤ INT_MAX) by (unfold INT_MAX; lia).
  split; [split; [exact H|apply demo_state_reachable]|].
  apply (capacity_invariant 2 2 H demo_state demo_state_reachable).
Defined.

Lemma uniqueness_invariant_witness :
  (1 ≤ 2 ≤ INT_MAX ∧ reachable 2 2 demo_state ∧
   resident demo_state 0 !! 1%nat = Some (CacheLine 1 1 8) ∧
   valid_bit (CacheLine 1 1 8) ≠ 0 ∧
   tag (CacheLine 1 1 8) = tag (CacheLine 1 1 8)) ∧
  1%nat = 1%nat.
Proof.
  assert (H : 1 ≤ 2 ≤ INT_MAX) by (unfold INT_MAX; lia).
  assert (Hl : resident demo_state 0 !! 1%nat = Some (CacheLine 1 1 8))
    by (vm_compute; reflexivity).
  assert (Hv : valid_bit (CacheLine 1 1 8) ≠ 0) by (simpl; lia).
  split; [by repeat split; try apply demo_state_reachable|].
  apply (uniqueness_invariant 2 2 H demo_state 0 1 1 _ _ demo_state_reachable
           Hl Hl Hv Hv eq_refl).
Defined.

Lemma count_frame_witness :
  (1 ≤ 2 ≤ INT_MAX ∧ reachable 2 2 demo_state ∧ 0 ≤ 0 < 2) ∧
  ∃ st', count 2 8 0 0 demo_state = Ok tt st' ∧
    (∀ j, j ≠ Z.to_nat 0 →
       cache st' !! j = cache demo_state !! j ∧
       resident st' j = resident demo_state j) ∧
    ((∃ l, l ∈ resident demo_state (Z.to_nat 0) ∧ Spec.is_line 8 l) →
       hit st' = wrap_int (hit demo_state + 1) ∧ miss st' = miss demo_state ∧
       ∀ j, length (resident st' j) = length (resident demo_state j) ∧
            curr_line_num <$> cache st' !! j
            = curr_line_num <$> cache demo_state !! j).
Proof.
  assert (H : 1 ≤ 2 ≤ INT_MAX) by (unfold INT_MAX; lia).
  assert (Hi : 0 ≤ 0 < 2) by lia.
  split; [by repeat split; try apply demo_state_reachable|].
  apply (count_frame 2 2 H demo_state 8 0 0 demo_state_reachable Hi).
Defined.

Lemma lru_evicts_least_recent_witness :
  (reachable 2 1 (init_state 1) ∧ 0 ≤ 0 < 1 ∧
   resident (init_state 1) (Z.to_nat 0) = [] ∧ 1 ≠ 2 ∧ 1 ≠ 3 ∧ 2 ≠ 3) ∧
  ∃ st1 st2 st3 st4,
    count 2 1 0 0 (init_state 1) = Ok tt st1 ∧
    count 2 2 0 1 st1 = Ok tt st2 ∧
    count 2 1 0 0 st2 = Ok tt st3 ∧
    count 2 3 0 0 st3 = Ok tt st4 ∧
    tag <$> resident st2 (Z.to_nat 0) = [2; 1] ∧
    tag <$> resident st3 (Z.to_nat 0) = [1; 2] ∧
    hit st3 = wrap_int (hit st2 + 1) ∧
    tag <$> Spec.evicted 2 3 (resident st3 (Z.to_nat 0)) = Some 2 ∧
    miss st4 = wrap_int (miss st3 + 1) ∧
    eviction st4 = wrap_int (eviction st3 + 1) ∧
    tag <$> resident st4 (Z.to_nat 0) = [3; 1].
Proof.
  assert (Hi : 0 ≤ 0 < 1) by lia.
  assert (H12 : 1 ≠ 2) by lia.
  assert (H13 : 1 ≠ 3) by lia.
  assert (H23 : 2 ≠ 3) by lia.
  split; [repeat split; try done; constructor|].
  apply (lru_evicts_least_recent 1 (init_state 1) 0 1 2 3 0 1 0 0
           (reachable_init 2 1) Hi eq_refl H12 H13 H23).
Defined.

Lemma other_operation_ignored_witness :
  ("I"%char ≠ "L"%char ∧ "I"%char ≠ "S"%char) ∧
  step 1 1 1 (TraceRecord "I" 0x10 1) (init_state 2) = Ok tt (init_state 2).
Proof.
  assert (H1 : "I"%char ≠ "L"%char) by discriminate.
  assert (H2 : "I"%char ≠ "S"%char) by discriminate.
  split; [done|].
  apply (other_operation_ignored 1 1 1 (TraceRecord "I" 0x10 1) _ H1 H2).
Defined.

Lemma dirty_propagation_witness :
  (1 ≤ 2 ≤ INT_MAX ∧ reachable 2 2 mixed_state ∧ 0 ≤ 0 < 2) ∧
  resident mixed_state (Z.to_nat 0) = [CacheLine 1 0 8; CacheLine 1 1 4] ∧
  (∃ st', count 2 8 0 1 mixed_state = Ok tt st' ∧
          resident st' (Z.to_nat 0) !! 0%nat
          = Some (set_dirty_bit 1 (CacheLine 1 0 8))) ∧
  (∃ st', count 2 4 0 0 mixed_state = Ok tt st' ∧
          resident st' (Z.to_nat 0) !! 0%nat = Some (CacheLine 1 1 4)) ∧
  (CacheLine 1 1 4
     ∈ resident (final_state (count 2 8 0 0 mixed_state)) (Z.to_nat 0) ∨
   (0 = 0 ∧ Spec.evicted 2 8 (resident mixed_state (Z.to_nat 0))
            = Some (CacheLine 1 1 4))) ∧
  (∃ st', count 2 12 0 0 mixed_state = Ok tt st' ∧
          (CacheLine 1 1 4 ∉ resident st' (Z.to_nat 0)) ∧
          dirty_eviction st' = wrap_int (dirty_eviction mixed_state + 1) ∧
          (0 ≤ 4 ≤ 30 → 0 ≤ dirty_eviction mixed_state →
           (dirty_eviction mixed_state + 1) * 2 ^ 4 ≤ INT_MAX →
           ∃ r r', dirty_evictions <$> report 4 mixed_state = Some r ∧
                   dirty_evictions <$> report 4 st' = Some r' ∧
                   r' = r + 2 ^ 4)).
Proof.
  assert (H : 1 ≤ 2 ≤ INT_MAX) by (unfold INT_MAX; lia).
  assert (Hi : 0 ≤ 0 < 2) by lia.
  assert (Hres : resident mixed_state (Z.to_nat 0)
                 = [CacheLine 1 0 8; CacheLine 1 1 4])
    by (vm_compute; reflexivity).
  split; [exact (conj H (conj mixed_state_reachable Hi))|].
  split; [exact Hres|].
  destruct (dirty_propagation 2 2 H 4 mixed_state 0 mixed_state_reachable Hi)
    as (Hstore & Hload & Hkeep & Hevict).
  split; [|split; [|split]].
  - apply (Hstore 8 0%nat (CacheLine 1 0 8)). vm_compute. reflexivity.
  - apply (Hload 4 1%nat (CacheLine 1 1 4)); [vm_compute|]; reflexivity.
  - apply (Hkeep 8 0 0 (final_state (count 2 8 0 0 mixed_state))
             (CacheLine 1 1 4)).
    + vm_compute. reflexivity.
    + rewrite Hres. apply list_elem_of_further, list_elem_of_here.
    + reflexivity.
  - destruct (Hevict 12 0 (CacheLine 1 1 4)) as (st' & Hrun & Hgone & Hde & Hbytes);
      [vm_compute; reflexivity|reflexivity|].
    exists st'. split; [exact Hrun|]. split; [exact Hgone|].
    split; [exact Hde|]. intros _ _ _. apply Hbytes.
    + lia.
    + vm_compute. discriminate.
    + vm_compute. discriminate.
Defined.

Lemma dirty_bytes_at_teardown_witness :
  (1 ≤ 2 ≤ INT_MAX ∧ decodable 1 1 ∧ 0 ≤ 1 ≤ 30) ∧
  ∃ st_end stats,
    simulate 1 2 1 [store_at 0x10; load_at 0x20] (init_state (2 ^ 1))
      = Ok tt st_end ∧
    dirty_count st_end = 0 ∧
    stats_of (main 1 2 1 [store_at 0x10; load_at 0x20]) = Some stats ∧
    dirty_count (final_state (main 1 2 1 [store_at 0x10; load_at 0x20]))
      = wrap_int (dirty_lines st_end) ∧
    (dirty_lines st_end * 2 ^ 1 ≤ INT_MAX →
     dirty_bytes stats = dirty_lines st_end * 2 ^ 1).
Proof.
  assert (H : 1 ≤ 2 ≤ INT_MAX) by (unfold INT_MAX; lia).
  assert (Hd : decodable 1 1) by (left; lia).
  assert (Hb : 0 ≤ 1 ≤ 30) by lia.
  split; [done|].
  apply (dirty_bytes_at_teardown 1 2 1 [store_at 0x10; load_at 0x20] H Hd Hb).
Defined.

Lemma no_geometry_check_witness :
  (0 ≤ 0 ∧ decodable 1 1 ∧ 0 ≤ 1 ≤ 30) ∧
  (Forall (λ r, is_access r = false) [load_at 0x10] →
     stats_of (main 1 0 1 [load_at 0x10]) = Some (CsimStats 0 0 0 0 0)) ∧
  (Exists (λ r, is_access r = true) [load_at 0x10] →
     ∃ st, main 1 0 1 [load_at 0x10] = Fault st ∧
           hit st = 0 ∧ miss st = 1 ∧ eviction st = 1 ∧
           dirty_count st = 0 ∧ dirty_eviction st = 0).
Proof.
  assert (H : 0 ≤ 0) by lia.
  assert (Hd : decodable 1 1) by (left; lia).
  assert (Hb : 0 ≤ 1 ≤ 30) by lia.
  split; [done|].
  apply (no_geometry_check 1 0 1 [load_at 0x10] H Hd Hb).
Defined.

(** ** Counterexamples *)

(** C5, counterexample: with [E = 0] the empty trace ends normally with a
    report, and a trace with one Load runs a simulation step that counts a
    miss and an eviction before it stops. *)
Lemma invalid_geometry_not_rejected :
  stats_of (main 1 0 1 []) = Some (CsimStats 0 0 0 0 0) ∧
  ∃ st, main 1 0 1 [load_at 0x10] = Fault st ∧ miss st = 1 ∧ eviction st = 1.
Proof.
  split; [vm_compute; reflexivity|].
  eexists. split; [vm_compute; reflexivity|]. done.
Qed.

(** ** Defects *)

(** C6: with [s = 1], [E = 1] and blocks of [2^30] bytes, after [S 0] and
    [L 80000000] set 0 holds the line of tag 1, not dirty, and one dirty
    eviction has been counted.  [S 80000000] hits that line and sets its
    dirty bit, [L 80000000] hits it and leaves the bit set, and [L 0] evicts
    it: [dirty_eviction] goes from 1 to 2.  Both 2 and [2^30] fit in an
    [int], but line 248 multiplies them in [int], so the reported
    dirty-eviction bytes go from [2^30] to [2^64 - 2^31] where one more block
    gives [2^30 + 2^30]; the same on whole runs of [main]. *)
Theorem dirty_eviction_bytes_wrap :
  reachable 1 2 big_block_state ∧
  resident big_block_state 0 = [CacheLine 1 0 1] ∧
  dirty_eviction big_block_state = 1 ∧
  ∃ st1 st2 st3,
    step 1 1 30 (store_at 0x80000000) big_block_state = Ok tt st1 ∧
    hit st1 = hit big_block_state + 1 ∧
    resident st1 0 = [CacheLine 1 1 1] ∧
    step 1 1 30 (load_at 0x80000000) st1 = Ok tt st2 ∧
    hit st2 = hit st1 + 1 ∧
    resident st2 0 = [CacheLine 1 1 1] ∧
    step 1 1 30 (load_at 0) st2 = Ok tt st3 ∧
    resident st3 0 = [CacheLine 1 0 0] ∧
    eviction st3 = eviction st2 + 1 ∧
    dirty_eviction st2 = 1 ∧ dirty_eviction st3 = 2 ∧
    shl_int 1 30 = Some (2 ^ 30) ∧ 2 * 2 ^ 30 > INT_MAX ∧
    dirty_evictions <$> report 30 st2 = Some (2 ^ 30) ∧
    dirty_evictions <$> report 30 st3 = Some (2 ^ 64 - 2 ^ 31) ∧
    2 ^ 64 - 2 ^ 31 ≠ 2 ^ 30 + 2 ^ 30 ∧
    dirty_evictions <$>
      stats_of (main 1 1 30 [store_at 0; load_at 0x80000000;
                            store_at 0x80000000; load_at 0x80000000])
      = Some (2 ^ 30) ∧
    dirty_evictions <$>
      stats_of (main 1 1 30 [store_at 0; load_at 0x80000000;
                            store_at 0x80000000; load_at 0x80000000;
                            load_at 0])
      = Some (2 ^ 64 - 2 ^ 31).
Proof.
  split; [apply big_block_state_reachable|].
  split; [vm_compute; reflexivity|]. split; [vm_compute; reflexivity|].
  eexists _, _, _.
  split; [vm_compute; reflexivity|]. split; [vm_compute; reflexivity|].
  split; [vm_compute; reflexivity|]. split; [vm_compute; reflexivity|].
  split; [vm_compute; reflexivity|]. split; [vm_compute; reflexivity|].
  split; [vm_compute; reflexivity|]. split; [vm_compute; reflexivity|].
  split; [vm_compute; reflexivity|]. split; [vm_compute; reflexivity|].
  split; [vm_compute; reflexivity|]. split; [vm_compute; reflexivity|].
  split; [vm_compute; reflexivity|]. split; [vm_compute; reflexivity|].
  split; [vm_compute; reflexivity|]. split; [done|].
  split; vm_compute; reflexivity.
Qed.

(** C7: with [s = 1], [E = 1], blocks of [2^30] bytes and the trace [S 0],
    [S 40000000], the trace loop ends with [dirty_count] 0 and two dirty
    lines resident, and [free_cache] counts them: [dirty_count] is 2.  Both 2
    and [2^30] fit in an [int], but line 249 multiplies them in [int], so the
    reported [dirty_bytes] is [2^64 - 2^31], not [2 * 2^30]. *)
Theorem dirty_bytes_wrap :
  ∃ st_end stats,
    simulate 1 1 30 [store_at 0; store_at 0x40000000] (init_state 2)
      = Ok tt st_end ∧
    dirty_count st_end = 0 ∧
    dirty_lines st_end = 2 ∧
    dirty_count (final_state (main 1 1 30 [store_at 0; store_at 0x40000000]))
      = 2 ∧
    shl_int 1 30 = Some (2 ^ 30) ∧ 2 * 2 ^ 30 > INT_MAX ∧
    stats_of (main 1 1 30 [store_at 0; store_at 0x40000000]) = Some stats ∧
    dirty_bytes stats = 2 ^ 64 - 2 ^ 31 ∧
    dirty_bytes stats ≠ 2 * 2 ^ 30.
Proof.
  eexists _, _. split; [vm_compute; reflexivity|].
  split; [vm_compute; reflexivity|]. split; [vm_compute; reflexivity|].
  split; [vm_compute; reflexivity|]. split; [vm_compute; reflexivity|].
  split; [vm_compute; reflexivity|]. split; [vm_compute; reflexivity|].
  split; [vm_compute; reflexivity|]. done.
Qed.

(** ** Further examples *)

Lemma resident_demo_state :
  resident demo_state (Z.to_nat 0) = [CacheLine 1 1 4; CacheLine 1 1 8].
Proof. vm_compute. reflexivity. Qed.

Lemma hit_moves_to_front_witness :
  (1 ≤ 2 ≤ INT_MAX ∧ reachable 2 2 demo_state ∧ 0 ≤ 0 < 2 ∧
   resident demo_state (Z.to_nat 0) = [CacheLine 1 1 4] ++ CacheLine 1 1 8 :: [] ∧
   Forall (λ x, tag x ≠ 8) [CacheLine 1 1 4] ∧ tag (CacheLine 1 1 8) = 8) ∧
  ∃ st', count 2 8 0 0 demo_state = Ok tt st' ∧
    resident st' (Z.to_nat 0)
      = (if 0 =? 1 then set_dirty_bit 1 (CacheLine 1 1 8) else CacheLine 1 1 8)
        :: [CacheLine 1 1 4] ++ [] ∧
    hit st' = wrap_int (hit demo_state + 1) ∧ miss st' = miss demo_state ∧
    eviction st' = eviction demo_state ∧
    dirty_eviction st' = dirty_eviction demo_state.
Proof.
  assert (H : 1 ≤ 2 ≤ INT_MAX) by (unfold INT_MAX; lia).
  assert (Hi : 0 ≤ 0 < 2) by lia.
  assert (Hno : Forall (λ x, tag x ≠ 8) [CacheLine 1 1 4])
    by (repeat constructor; simpl; lia).
  split; [exact (conj H (conj demo_state_reachable (conj Hi
            (conj resident_demo_state (conj Hno eq_refl)))))|].
  apply (hit_moves_to_front 2 2 H demo_state 8 0 0 [CacheLine 1 1 4]
           (CacheLine 1 1 8) [] demo_state_reachable Hi resident_demo_state
           Hno eq_refl).
Defined.

Lemma miss_inserts_at_front_witness :
  (1 ≤ 2 ≤ INT_MAX ∧ reachable 2 2 demo_state ∧ 0 ≤ 0 < 2 ∧
   Forall (λ x, tag x ≠ 12) (resident demo_state (Z.to_nat 0))) ∧
  let s := resident demo_state (Z.to_nat 0) in
  let full := bool_decide (2 ≤ Z.of_nat (length s)) in
  ∃ st', count 2 12 0 1 demo_state = Ok tt st' ∧
    resident st' (Z.to_nat 0)
      = CacheLine 1 1 12 :: (if full then removelast s else s) ∧
    hit st' = hit demo_state ∧ miss st' = wrap_int (miss demo_state + 1) ∧
    eviction st' = (if full then wrap_int (eviction demo_state + 1)
                    else eviction demo_state) ∧
    dirty_eviction st' =
      match (if full then last s else None) with
      | Some l => if dirty_bit l =? 1 then wrap_int (dirty_eviction demo_state + 1)
                  else dirty_eviction demo_state
      | None => dirty_eviction demo_state
      end.
Proof.
  assert (H : 1 ≤ 2 ≤ INT_MAX) by (unfold INT_MAX; lia).
  assert (Hi : 0 ≤ 0 < 2) by lia.
  assert (Hno : Forall (λ x, tag x ≠ 12) (resident demo_state (Z.to_nat 0))).
  { rewrite resident_demo_state. repeat constructor; simpl; lia. }
  split; [exact (conj H (conj demo_state_reachable (conj Hi Hno)))|].
  apply (miss_inserts_at_front 2 2 H demo_state 12 0 1 demo_state_reachable Hi Hno).
Defined.


Lemma distinct_sets_commute_witness :
  (1 ≤ 2 ≤ INT_MAX ∧ reachable 2 2 demo_state ∧ 0 ≤ 0 < 2 ∧ 0 ≤ 1 < 2 ∧
   0 ≠ 1) ∧
  ∃ sa sab sb sba,
    count 2 12 0 1 demo_state = Ok tt sa ∧ count 2 5 1 0 sa = Ok tt sab ∧
    count 2 5 1 0 demo_state = Ok tt sb ∧ count 2 12 0 1 sb = Ok tt sba ∧
    (∀ k, resident sab k = resident sba k) ∧
    hit sab = hit sba ∧ miss sab = miss sba ∧
    eviction sab = eviction sba ∧ dirty_eviction sab = dirty_eviction sba ∧
    dirty_count sab = dirty_count sba.
Proof.
  assert (H : 1 ≤ 2 ≤ INT_MAX) by (unfold INT_MAX; lia).
  assert (H0 : 0 ≤ 0 < 2) by lia.
  assert (H1 : 0 ≤ 1 < 2) by lia.
  assert (Hne : 0 ≠ 1) by lia.
  split; [exact (conj H (conj demo_state_reachable (conj H0 (conj H1 Hne))))|].
  apply (distinct_sets_commute 2 2 H demo_state 12 0 1 5 1 0
           demo_state_reachable H0 H1 Hne).
Defined.

Lemma resident_lines_valid_witness :
  (1 ≤ 2 ≤ INT_MAX ∧ reachable 2 2 demo_state ∧
   CacheLine 1 1 8 ∈ resident demo_state (Z.to_nat 0)) ∧
  valid_bit (CacheLine 1 1 8) = 1 ∧
  line_matches (Some (CacheLine 1 1 8)) 4 = (tag (CacheLine 1 1 8) =? 4).
Proof.
  assert (H : 1 ≤ 2 ≤ INT_MAX) by (unfold INT_MAX; lia).
  assert (Hl : CacheLine 1 1 8 ∈ resident demo_state (Z.to_nat 0)).
  { rewrite resident_demo_state. apply list_elem_of_further, list_elem_of_here. }
  split; [exact (conj H (conj demo_state_reachable Hl))|].
  apply (resident_lines_valid 2 2 H demo_state (Z.to_nat 0) (CacheLine 1 1 8) 4
           demo_state_reachable Hl).
Defined.

Lemma same_block_same_line_witness :
  decodable 1 1 ∧
  ((decode_tag 1 1 0x10 = decode_tag 1 1 0x11 ∧
    decode_set 1 1 0x10 = decode_set 1 1 0x11)
   ↔ 0x10 ≫ 1 = 0x11 ≫ 1).
Proof.
  assert (Hd : decodable 1 1) by (left; lia).
  split; [exact Hd|]. apply (same_block_same_line 1 1 0x10 0x11 Hd).
Defined.

Lemma same_block_hits_witness :
  (1 ≤ 2 ≤ INT_MAX ∧ decodable 1 1 ∧ reachable 2 (2 ^ 1) (init_state (2 ^ 1)) ∧
   is_access (load_at 0x10) = true ∧ is_access (store_at 0x11) = true ∧
   address (load_at 0x10) ≫ 1 = address (store_at 0x11) ≫ 1) ∧
  ∃ st1 st2,
    step 1 2 1 (load_at 0x10) (init_state (2 ^ 1)) = Ok tt st1 ∧
    step 1 2 1 (store_at 0x11) st1 = Ok tt st2 ∧
    hit st2 = wrap_int (hit st1 + 1) ∧ miss st2 = miss st1 ∧
    eviction st2 = eviction st1 ∧ dirty_eviction st2 = dirty_eviction st1 ∧
    dirty_count st2 = dirty_count st1.
Proof.
  assert (H : 1 ≤ 2 ≤ INT_MAX) by (unfold INT_MAX; lia).
  assert (Hd : decodable 1 1) by (left; lia).
  split; [exact (conj H (conj Hd (conj (reachable_init 2 (2 ^ 1))
            (conj eq_refl (conj eq_refl eq_refl)))))|].
  apply (same_block_hits 1 2 1 (load_at 0x10) (store_at 0x11) _ H Hd
           (reachable_init 2 (2 ^ 1)) eq_refl eq_refl eq_refl).
Defined.

Lemma block_granularity_witness :
  (decodable 1 1 ∧
   Forall2 (λ r r', operation r = operation r' ∧
                    address r ≫ 1 = address r' ≫ 1)
     [load_at 0x10; store_at 0x21] [TraceRecord "L" 0x11 8; store_at 0x20]) ∧
  main 1 2 1 [load_at 0x10; store_at 0x21]
  = main 1 2 1 [TraceRecord "L" 0x11 8; store_at 0x20].
Proof.
  assert (Hd : decodable 1 1) by (left; lia).
  assert (Hrel : Forall2 (λ r r', operation r = operation r' ∧
                                  address r ≫ 1 = address r' ≫ 1)
            [load_at 0x10; store_at 0x21]
            [TraceRecord "L" 0x11 8; store_at 0x20])
    by (repeat constructor).
  split; [exact (conj Hd Hrel)|]. apply (block_granularity 1 2 1 _ _ Hd Hrel).
Defined.

Lemma main_accounting_witness :
  (1 ≤ 2 ≤ INT_MAX ∧ decodable 1 1 ∧ 0 ≤ 1 ≤ 30 ∧
   num_accesses [store_at 0x10; TraceRecord "I" 0 1; load_at 0x20] ≤ INT_MAX) ∧
  ∃ st_end stats,
    simulate 1 2 1 [store_at 0x10; TraceRecord "I" 0 1; load_at 0x20]
      (init_state (2 ^ 1)) = Ok tt st_end ∧
    stats_of (main 1 2 1 [store_at 0x10; TraceRecord "I" 0 1; load_at 0x20])
      = Some stats ∧
    hits stats + misses stats
      = num_accesses [store_at 0x10; TraceRecord "I" 0 1; load_at 0x20] ∧
    evictions stats ≤ misses stats ∧
    misses stats - evictions stats = total_lines st_end ∧
    total_lines st_end ≤ 2 ^ 1 * 2.
Proof.
  assert (H : 1 ≤ 2 ≤ INT_MAX) by (unfold INT_MAX; lia).
  assert (Hd : decodable 1 1) by (left; lia).
  assert (Hb : 0 ≤ 1 ≤ 30) by lia.
  assert (Hn : num_accesses [store_at 0x10; TraceRecord "I" 0 1; load_at 0x20]
               ≤ INT_MAX) by (vm_compute; discriminate).
  split; [exact (conj H (conj Hd (conj Hb Hn)))|].
  apply (main_accounting 1 2 1 _ H Hd Hb Hn).
Defined.

Lemma free_cache_releases_all_witness :
  (1 ≤ 2 ≤ INT_MAX ∧ reachable 2 2 demo_state) ∧
  ∃ st', free_cache 2 demo_state = Ok tt st' ∧ heap st' = ∅ ∧ cache st' = [] ∧
         hit st' = hit demo_state ∧ miss st' = miss demo_state ∧
         eviction st' = eviction demo_state ∧
         dirty_eviction st' = dirty_eviction demo_state ∧
         dirty_count st' = wrap_int (dirty_lines demo_state).
Proof.
  assert (H : 1 ≤ 2 ≤ INT_MAX) by (unfold INT_MAX; lia).
  split; [split; [exact H|apply demo_state_reachable]|].
  apply (free_cache_releases_all 2 2 H demo_state demo_state_reachable).
Defined.


Lemma lru_inclusion_witness :
  (1 ≤ 1 ≤ 2 ∧ 2 ≤ INT_MAX ∧ decodable 1 1) ∧
  ∃ st st',
    simulate 1 1 1 [load_at 0x10; load_at 0x20; load_at 0x10] (init_state (2 ^ 1))
      = Ok tt st ∧
    simulate 1 2 1 [load_at 0x10; load_at 0x20; load_at 0x10] (init_state (2 ^ 1))
      = Ok tt st' ∧
    ∀ i, tag <$> resident st i = take (Z.to_nat 1) (tag <$> resident st' i).
Proof.
  assert (H : 1 ≤ 1 ≤ 2) by lia.
  assert (H' : 2 ≤ INT_MAX) by (unfold INT_MAX; lia).
  assert (Hd : decodable 1 1) by (left; lia).
  split; [exact (conj H (conj H' Hd))|].
  apply (lru_inclusion 1 1 2 1 _ H H' Hd).
Defined.

Lemma more_lines_fewer_misses_witness :
  (1 ≤ 1 ≤ 2 ∧ 2 ≤ INT_MAX ∧ decodable 1 1 ∧ 0 ≤ 1 ≤ 30 ∧
   num_accesses [load_at 0x10; load_at 0x20; load_at 0x10] ≤ INT_MAX) ∧
  ∃ stats stats',
    stats_of (main 1 1 1 [load_at 0x10; load_at 0x20; load_at 0x10])
      = Some stats ∧
    stats_of (main 1 2 1 [load_at 0x10; load_at 0x20; load_at 0x10])
      = Some stats' ∧
    hits stats ≤ hits stats' ∧ misses stats' ≤ misses stats.
Proof.
  assert (H : 1 ≤ 1 ≤ 2) by lia.
  assert (H' : 2 ≤ INT_MAX) by (unfold INT_MAX; lia).
  assert (Hd : decodable 1 1) by (left; lia).
  assert (Hb : 0 ≤ 1 ≤ 30) by lia.
  assert (Hn : num_accesses [load_at 0x10; load_at 0x20; load_at 0x10]
               ≤ INT_MAX) by (vm_compute; discriminate).
  split; [exact (conj H (conj H' (conj Hd (conj Hb Hn))))|].
  apply (more_lines_fewer_misses 1 1 2 1 _ H H' Hd Hb Hn).
Defined.
